(** * HttpPublishQueueAsync: the retained event buffer and its drain loop

    A shallow embedding of [src/HttpPublishQueueAsync.cpp].

    - The retained region is a list of bytes and pointers into it are
      offsets from [retainedBuffer].  The header lives in the first eight
      bytes of the region and the events behind it, as in the source;
      multi-byte fields are little endian, as on the ARM targets of the
      library.
    - A member function is a function from the object to the object after
      the call, paired with the returned value where there is one.  Calls
      do not interleave.
    - What a call reads from outside ([WiFi.ready()], [millis()], the
      status of the response) is an argument of the call; logging and the
      transport itself have no effect on the object.
    - [size_t] values are 32 bits wide and wrap around, [uint16_t]
      fields wrap around at 16 bits; offsets are integers. *)

From Stdlib Require Import ZArith List Lia Bool.
From Stdlib Require String.
From stdpp Require Import base list.
From coqutil Require Import Byte Word.LittleEndianList.
Import ListNotations.
Import String.StringSyntax.
Local Open Scope Z_scope.

(** ** Machine integers and layout constants *)

(** [size_t] and [unsigned long] are 32 bits wide on the target. *)
Definition size_t (x : Z) : Z := x mod 2 ^ 32.
Definition uint32_t (x : Z) : Z := x mod 2 ^ 32.
Definition uint16_t (x : Z) : Z := x mod 2 ^ 16.

Definition RETAINED_BUF_HEADER_MAGIC : Z := 0xd19cab61.

(** [RetainedBufHeader] is [{uint32_t magic; uint16_t size; uint16_t numEvents}],
    [EventData] is [{uint16_t port}]. *)
Definition sizeof_RetainedBufHeader : Z := 8.
Definition sizeof_EventData : Z := 2.

(** ** The retained region as memory

    Only the region is part of the state.  Bytes outside of it read as
    NUL and a store outside of it is lost.  This is a convention of the
    model, not what the machine does: there a read behind the region
    finds whatever memory lies there, a store behind it lands in that
    memory, and [memmove] with a wrapped length runs over it.  The
    properties below that depend on what is read or written are
    therefore stated for states in which every access of the call is
    inside the region: the counted events end inside the region
    ([walked q <= retainedBufferSize q]) and what [publish] stores fits
    the size it computes ([fits]).  The constructor is the exception:
    it runs on any content, and a read behind the region can only occur
    while skipping an event that ends behind the region, which the
    constructor answers with a reset whatever was read. *)

Definition load_bytes (mem : list byte) (p : Z) (n : nat) : list byte :=
  take n (drop (Z.to_nat p) (repeat Byte.x00 (Z.to_nat (- p)) ++ mem)
          ++ repeat Byte.x00 n).

Definition store_bytes (mem : list byte) (p : Z) (bs : list byte) : list byte :=
  let bs' := drop (Z.to_nat (- p)) bs in
  let i := Z.to_nat p in
  take i mem ++ take (length mem - i) bs' ++ drop (i + length bs') mem.

Definition load_u16 (mem : list byte) (p : Z) : Z := le_combine (load_bytes mem p 2).
Definition load_u32 (mem : list byte) (p : Z) : Z := le_combine (load_bytes mem p 4).
Definition store_u16 (mem : list byte) (p v : Z) : list byte := store_bytes mem p (le_split 2 v).
Definition store_u32 (mem : list byte) (p v : Z) : list byte := store_bytes mem p (le_split 4 v).

(** [memmove]: the source range is read before anything is written. *)
Definition memmove (mem : list byte) (dst src n : Z) : list byte :=
  store_bytes mem dst (load_bytes mem src (Z.to_nat n)).

(** ** C strings *)

(** Number of bytes before the first NUL. *)
Fixpoint strlen (s : list byte) : nat :=
  match s with
  | [] => O
  | b :: r => if Byte.eqb b Byte.x00 then O else S (strlen r)
  end.

(** What a [char *] at offset [p] sees of the region. *)
Definition chars_at (mem : list byte) (p : Z) : list byte :=
  if p <? 0 then [] else drop (Z.to_nat p) mem.

Definition strlen_at (mem : list byte) (p : Z) : Z :=
  Z.of_nat (strlen (chars_at mem p)).

(** The characters of the C string at offset [p], without the NUL. *)
Definition string_at (mem : list byte) (p : Z) : list byte :=
  take (strlen (chars_at mem p)) (chars_at mem p).

Definition strcpy (mem : list byte) (dst : Z) (s : list byte) : list byte :=
  store_bytes mem dst (take (strlen s) s ++ [Byte.x00]).

(** ** The header fields, at offsets 0, 4 and 6 of the region *)

Definition hdr_magic (mem : list byte) : Z := load_u32 mem 0.
Definition hdr_size (mem : list byte) : Z := load_u16 mem 4.
Definition hdr_numEvents (mem : list byte) : Z := load_u16 mem 6.

Definition set_hdr_magic (mem : list byte) (v : Z) := store_u32 mem 0 v.
Definition set_hdr_size (mem : list byte) (v : Z) := store_u16 mem 4 v.
Definition set_hdr_numEvents (mem : list byte) (v : Z) := store_u16 mem 6 v.

(** ** The object *)

Inductive StateHandler : Type :=
| startState_h
| checkQueueState_h
| waitRetryState_h.

(** The class declaration is not among the sources: the members are those
    the member functions use, with the types their uses ask for.
    [eventName] and [data] are read by [publish], which declares neither,
    and are taken as members as well; [data] is a pointer that may be
    NULL. *)
Record HttpPublishQueueAsync : Type := mkQueue {
  retainedBuffer : list byte;
  retainedBufferSize : Z;
  nextFree : Z;
  isSending : bool;
  lastPublish : Z;
  failureRetryMs : Z;
  stateHandler : StateHandler;
  eventName : list byte;
  data : option (list byte)
}.

Definition with_buffer (q : HttpPublishQueueAsync) (mem : list byte) :=
  mkQueue mem (retainedBufferSize q) (nextFree q) (isSending q) (lastPublish q)
          (failureRetryMs q) (stateHandler q) (eventName q) (data q).
Definition with_nextFree (q : HttpPublishQueueAsync) (p : Z) :=
  mkQueue (retainedBuffer q) (retainedBufferSize q) p (isSending q) (lastPublish q)
          (failureRetryMs q) (stateHandler q) (eventName q) (data q).
Definition with_isSending (q : HttpPublishQueueAsync) (b : bool) :=
  mkQueue (retainedBuffer q) (retainedBufferSize q) (nextFree q) b (lastPublish q)
          (failureRetryMs q) (stateHandler q) (eventName q) (data q).
Definition with_lastPublish (q : HttpPublishQueueAsync) (t : Z) :=
  mkQueue (retainedBuffer q) (retainedBufferSize q) (nextFree q) (isSending q) t
          (failureRetryMs q) (stateHandler q) (eventName q) (data q).
Definition with_stateHandler (q : HttpPublishQueueAsync) (h : StateHandler) :=
  mkQueue (retainedBuffer q) (retainedBufferSize q) (nextFree q) (isSending q)
          (lastPublish q) (failureRetryMs q) h (eventName q) (data q).
Definition with_data (q : HttpPublishQueueAsync) (d : option (list byte)) :=
  mkQueue (retainedBuffer q) (retainedBufferSize q) (nextFree q) (isSending q)
          (lastPublish q) (failureRetryMs q) (stateHandler q) (eventName q) d.

Definition numEvents (q : HttpPublishQueueAsync) : Z := hdr_numEvents (retainedBuffer q).

(** ** skipEvent *)

Definition skipEvent (mem : list byte) (start : Z) : Z :=
  let start := start + sizeof_EventData in
  let start := start + (strlen_at mem start + 1) in
  let start := start + (strlen_at mem start + 1) in
  let offset := size_t start in
  if negb (offset mod 4 =? 0) then start + (4 - offset mod 4) else start.

(** ** The constructor *)

(** The loop of the constructor: [n] events still to skip from [p];
    the flag is [initBuffer]. *)
Fixpoint skipEvents (mem : list byte) (end_ : Z) (n : nat) (p : Z) : Z * bool :=
  match n with
  | O => (p, false)
  | S n' =>
      let p := skipEvent mem p in
      if p >? end_ then (p, true) else skipEvents mem end_ n' p
  end.

(** [self] is the object with its members as the class declaration
    initialises them; the constructor sets the buffer, its size and
    [nextFree]. *)
Definition construct (self : HttpPublishQueueAsync) (buf : list byte) (size : Z)
  : HttpPublishQueueAsync :=
  let q := mkQueue buf size (nextFree self) (isSending self) (lastPublish self)
                   (failureRetryMs self) (stateHandler self) (eventName self) (data self) in
  let '(p, initBuffer) :=
    if (hdr_magic buf =? RETAINED_BUF_HEADER_MAGIC) && (hdr_size buf =? size) then
      skipEvents buf size (Z.to_nat (hdr_numEvents buf)) sizeof_RetainedBufHeader
    else (nextFree self, true) in
  if initBuffer then
    let mem := set_hdr_magic buf RETAINED_BUF_HEADER_MAGIC in
    let mem := set_hdr_size mem size in
    let mem := set_hdr_numEvents mem 0 in
    with_nextFree (with_buffer q mem) sizeof_RetainedBufHeader
  else with_nextFree q p.

(** ** discardOldEvent *)

Definition discardOldEvent (secondEvent : bool) (q : HttpPublishQueueAsync)
  : bool * HttpPublishQueueAsync :=
  let mem := retainedBuffer q in
  let start := sizeof_RetainedBufHeader in
  let end_ := retainedBufferSize q in
  if secondEvent && (hdr_numEvents mem <? 2) then (false, q)
  else if negb secondEvent && (hdr_numEvents mem <? 1) then (false, q)
  else
    let start := if secondEvent then skipEvent mem start else start in
    let next := skipEvent mem start in
    let len := size_t (next - start) in
    let after := size_t (end_ - next) in
    let mem := if after >? 0 then memmove mem start next after else mem in
    let mem := set_hdr_numEvents mem (uint16_t (hdr_numEvents mem - 1)) in
    (true, with_nextFree (with_buffer q mem) (nextFree q - len)).

(** ** publish *)

(** The size computed at the top of [publish]. *)
Definition eventSize (hostName path body : list byte) : Z :=
  let size := size_t (sizeof_EventData + Z.of_nat (strlen hostName)
                      + Z.of_nat (strlen path) + Z.of_nat (strlen body) + 3) in
  if negb (size mod 4 =? 0) then size_t (size + (4 - size mod 4)) else size.

(** Every path through the body of the [while(true)] returns, so the body
    runs once. *)
Definition publish (q : HttpPublishQueueAsync) (hostName : list byte) (port : Z)
    (path body : list byte) : bool * HttpPublishQueueAsync :=
  let q := match data q with None => with_data q (Some []) | Some _ => q end in
  let size := eventSize hostName path body in
  if size >? size_t (retainedBufferSize q - sizeof_RetainedBufHeader) then (false, q)
  else
    let end_ := retainedBufferSize q in
    if size_t (end_ - nextFree q) >=? size then
      let mem := store_u16 (retainedBuffer q) (nextFree q) port in
      let cp := nextFree q + sizeof_EventData in
      let mem := strcpy mem cp (eventName q) in
      let cp := cp + (strlen_at mem cp + 1) in
      let mem := strcpy mem cp (default [] (data q)) in
      let mem := set_hdr_numEvents mem (uint16_t (hdr_numEvents mem + 1)) in
      (true, with_nextFree (with_buffer q mem) (nextFree q + size))
    else if hdr_numEvents (retainedBuffer q) =? 1 then (false, q)
    else (false, snd (discardOldEvent (isSending q) q)).

(** ** clearEvents *)

Definition clearEvents (q : HttpPublishQueueAsync) : bool * HttpPublishQueueAsync :=
  if negb (isSending q) then
    (true, with_buffer q (set_hdr_numEvents (retainedBuffer q) 0))
  else (false, q).

(** ** The drain loop *)

(** What [checkQueueState] reads of the first event: the port, the
    string behind it and the string behind that one. *)
Definition frontEvent (mem : list byte) : Z * list byte * list byte :=
  let data_ := sizeof_RetainedBufHeader in
  let eventName_ := sizeof_RetainedBufHeader + sizeof_EventData in
  let eventData_ := eventName_ + (strlen_at mem eventName_ + 1) in
  (load_u16 mem data_, string_at mem eventName_, string_at mem eventData_).

Definition startState (q : HttpPublishQueueAsync) : HttpPublishQueueAsync :=
  with_stateHandler q checkQueueState_h.

(** The outside world of one call: [WiFi.ready()], [millis()] in the
    condition, [response.status] after [http.post], [millis()] after the
    attempt. *)
Record Tick : Type := mkTick {
  wifiReady : bool;
  millis0 : Z;
  responseStatus : Z;
  millis1 : Z
}.

Definition canPublish (q : HttpPublishQueueAsync) (t : Tick) : bool :=
  (hdr_numEvents (retainedBuffer q) >? 0) && wifiReady t
  && (uint32_t (millis0 t - lastPublish q) >=? 1010).

Definition checkQueueState (q : HttpPublishQueueAsync) (t : Tick) : HttpPublishQueueAsync :=
  if canPublish q t then
    let q := with_isSending q true in
    let q :=
      if (responseStatus t >=? 200) && (responseStatus t <? 300)
      then snd (discardOldEvent false q)
      else with_stateHandler q waitRetryState_h in
    let q := with_isSending q false in
    with_lastPublish q (millis1 t)
  else q.

Definition waitRetryState (q : HttpPublishQueueAsync) (t : Tick) : HttpPublishQueueAsync :=
  if uint32_t (millis0 t - lastPublish q) >=? failureRetryMs q
  then with_stateHandler q checkQueueState_h
  else q.

(** One turn of [threadFunction]: call the current handler. *)
Definition stateStep (q : HttpPublishQueueAsync) (t : Tick) : HttpPublishQueueAsync :=
  match stateHandler q with
  | startState_h => startState q
  | checkQueueState_h => checkQueueState q t
  | waitRetryState_h => waitRetryState q t
  end.


(** * Vocabulary of the properties *)

(** Rounding up to the next multiple of four. *)
Definition align4 (x : Z) : Z :=
  if negb (x mod 4 =? 0) then x + (4 - x mod 4) else x.

(** The event stored at offset [p], read the way [checkQueueState] reads
    the first one. *)
Definition eventAt (mem : list byte) (p : Z) : Z * list byte * list byte :=
  let name := p + sizeof_EventData in
  let payload := name + (strlen_at mem name + 1) in
  (load_u16 mem p, string_at mem name, string_at mem payload).

(** The same on the bytes [l] from the start of an event on: the length
    of the event before alignment, and its fields. *)
Definition rawLen (l : list byte) : nat :=
  let a := drop 2 l in
  let b := drop (S (strlen a)) a in
  (2 + (strlen a + 1) + (strlen b + 1))%nat.

Definition parse (l : list byte) : Z * list byte * list byte :=
  let a := drop 2 l in
  let b := drop (S (strlen a)) a in
  (le_combine (take 2 (l ++ repeat Byte.x00 2)), take (strlen a) a, take (strlen b) b).

(** [skipEvent] applied [n] times, and the events it passes. *)
Fixpoint walk (mem : list byte) (n : nat) (p : Z) : Z :=
  match n with
  | O => p
  | S n' => walk mem n' (skipEvent mem p)
  end.

Fixpoint events (mem : list byte) (n : nat) (p : Z) : list (Z * list byte * list byte) :=
  match n with
  | O => []
  | S n' => eventAt mem p :: events mem n' (skipEvent mem p)
  end.

(** The layout of a record, independent of [skipEvent]: a record is
    its header, a name and a payload, each string with its NUL, padded to
    the next multiple of four bytes.  [recordEnd] is the offset of the
    first byte behind the record that starts at [p], [recordsEnd] the
    offset behind [n] records in a row, [records] their fields. *)
Definition recordEnd (mem : list byte) (p : Z) : Z :=
  align4 (p + Z.of_nat (rawLen (chars_at mem p))).

Fixpoint recordsEnd (mem : list byte) (n : nat) (p : Z) : Z :=
  match n with
  | O => p
  | S n' => recordsEnd mem n' (recordEnd mem p)
  end.

Fixpoint records (mem : list byte) (n : nat) (p : Z) : list (Z * list byte * list byte) :=
  match n with
  | O => []
  | S n' => parse (chars_at mem p) :: records mem n' (recordEnd mem p)
  end.

Definition storedEvents (q : HttpPublishQueueAsync) : list (Z * list byte * list byte) :=
  events (retainedBuffer q) (Z.to_nat (numEvents q)) sizeof_RetainedBufHeader.

(** The region has the size the object believes it has, holds its header
    and is no larger than a [uint16_t] can tell. *)
Definition region_ok (q : HttpPublishQueueAsync) : Prop :=
  Z.of_nat (length (retainedBuffer q)) = retainedBufferSize q /\
  sizeof_RetainedBufHeader <= retainedBufferSize q < 2 ^ 16.

(** The offset reached by skipping the stored events. *)
Definition walked (q : HttpPublishQueueAsync) : Z :=
  walk (retainedBuffer q) (Z.to_nat (numEvents q)) sizeof_RetainedBufHeader.

(** The log is well formed: skipping [numEvents] events from the end of
    the header arrives at the cursor, inside the region. *)
Definition consistent (q : HttpPublishQueueAsync) : Prop :=
  region_ok q /\ walked q = nextFree q /\ nextFree q <= retainedBufferSize q.

(** The region after [publish] stored an event at [nf]. *)
Definition storeEvent (mem : list byte) (nf port : Z) (e d : list byte) : list byte :=
  let mem := store_u16 mem nf port in
  let cp := nf + sizeof_EventData in
  let mem := strcpy mem cp e in
  let cp := cp + (strlen_at mem cp + 1) in
  let mem := strcpy mem cp d in
  set_hdr_numEvents mem (uint16_t (hdr_numEvents mem + 1)).

(** The bytes [publish] stores: the event header, [eventName] and [data],
    each string with its NUL. *)
Definition storedBytes (q : HttpPublishQueueAsync) (port : Z) : list byte :=
  le_split 2 port
  ++ (take (strlen (eventName q)) (eventName q) ++ [Byte.x00])
  ++ (take (strlen (default [] (data q))) (default [] (data q)) ++ [Byte.x00]).

(** The header is valid, the cursor is a multiple of four inside the
    region, and skipping the stored events does not pass the cursor. *)
Definition bounded (q : HttpPublishQueueAsync) : Prop :=
  region_ok q /\
  hdr_magic (retainedBuffer q) = RETAINED_BUF_HEADER_MAGIC /\
  hdr_size (retainedBuffer q) = retainedBufferSize q /\
  nextFree q mod 4 = 0 /\
  walked q <= nextFree q /\
  nextFree q <= retainedBufferSize q.

(** The calls that reach the buffer: the three public operations and one
    turn of the drain loop. *)
Inductive Call : Type :=
| Publish (hostName : list byte) (port : Z) (path body : list byte)
| ClearEvents
| DiscardOldEvent (secondEvent : bool)
| Turn (t : Tick).

Definition call (q : HttpPublishQueueAsync) (c : Call) : HttpPublishQueueAsync :=
  match c with
  | Publish hostName port path body => snd (publish q hostName port path body)
  | ClearEvents => snd (clearEvents q)
  | DiscardOldEvent secondEvent => snd (discardOldEvent secondEvent q)
  | Turn t => stateStep q t
  end.

Definition calls (q : HttpPublishQueueAsync) (cs : list Call) : HttpPublishQueueAsync :=
  fold_left call cs q.

(** What [publish] stores fits the size it computes. *)
Definition fits (q : HttpPublishQueueAsync) (c : Call) : Prop :=
  match c with
  | Publish hostName port path body =>
      Z.of_nat (length (storedBytes q port)) <= eventSize hostName path body
  | _ => True
  end.

(** Region, size and cursor of [q'] are those of [q]. *)
Definition same_buffer (q q' : HttpPublishQueueAsync) : Prop :=
  retainedBuffer q' = retainedBuffer q /\
  retainedBufferSize q' = retainedBufferSize q /\
  nextFree q' = nextFree q.

(** The region after [discardOldEvent] removed the event at [start]. *)
Definition removeAt (mem : list byte) (end_ start : Z) : list byte :=
  let next := skipEvent mem start in
  let after := size_t (end_ - next) in
  let mem1 := if after >? 0 then memmove mem start next after else mem in
  set_hdr_numEvents mem1 (uint16_t (hdr_numEvents mem1 - 1)).

Definition header_valid (buf : list byte) (size : Z) : bool :=
  (hdr_magic buf =? RETAINED_BUF_HEADER_MAGIC) && (hdr_size buf =? size).

Definition walk_overflows (buf : list byte) (size : Z) : bool :=
  walk buf (Z.to_nat (hdr_numEvents buf)) sizeof_RetainedBufHeader >? size.

(** ** Sample objects *)

Definition cstr (s : String.string) : list byte := String.list_byte_of_string s.
Arguments cstr s%_string_scope.

Definition members (e : list byte) (d : option (list byte)) : HttpPublishQueueAsync :=
  mkQueue [] 0 0 false 0 30000 startState_h e d.

(** A zeroed region of 32 bytes, then one and two events of 8 bytes. *)
Definition sample_empty : HttpPublishQueueAsync :=
  construct (members (cstr "h") (Some (cstr "b"))) (repeat Byte.x00 32) 32.
Definition sample_one : HttpPublishQueueAsync :=
  snd (publish sample_empty (cstr "h") 80 (cstr "") (cstr "b")).
Definition sample_two : HttpPublishQueueAsync :=
  snd (publish sample_one (cstr "h") 81 (cstr "") (cstr "b")).

(** Three events of 8 bytes in a region of 40 bytes, the first one being
    sent. *)
Definition sample_three : HttpPublishQueueAsync :=
  let q := construct (members (cstr "h") (Some (cstr "b"))) (repeat Byte.x00 40) 40 in
  let q := snd (publish q (cstr "h") 80 (cstr "") (cstr "b")) in
  let q := snd (publish q (cstr "h") 81 (cstr "") (cstr "b")) in
  let q := snd (publish q (cstr "h") 82 (cstr "") (cstr "b")) in
  with_isSending q true.

(** Three events in a region of 40 bytes, the last one stored for a
    request with a path: 12 bytes are reserved for it and [skipEvent]
    passes it in 8, so the cursor is 4 bytes behind the end of the events.
    The first event is being sent. *)
Definition sample_slack : HttpPublishQueueAsync :=
  let q := construct (members (cstr "h") (Some (cstr "b"))) (repeat Byte.x00 40) 40 in
  let q := snd (publish q (cstr "h") 80 (cstr "") (cstr "b")) in
  let q := snd (publish q (cstr "h") 81 (cstr "") (cstr "b")) in
  let q := snd (publish q (cstr "h") 82 (cstr "a") (cstr "bcde")) in
  with_isSending q true.

(** An empty region of 64 bytes in an object whose [eventName] is empty
    and whose [data] is not set. *)
Definition sample_plain : HttpPublishQueueAsync :=
  construct (members [] None) (repeat Byte.x00 64) 64.

(** An empty region of 64 bytes for the requests of the specification's
    scenario, the object's [eventName] and [data] being the host name and
    the body of the first request. *)
Definition sample_host : HttpPublishQueueAsync :=
  construct (members (cstr "host1") (Some (cstr "b"))) (repeat Byte.x00 64) 64.


(** ** Vocabulary of the further properties *)

(** The first iterations of the loop of [threadFunction], one for each
    reading of the outside world. *)
Definition threadFunction (q : HttpPublishQueueAsync) (ts : list Tick)
  : HttpPublishQueueAsync :=
  fold_left stateStep ts q.

(** The event [publish] stores, as it is read back. *)
Definition storedEvent (q : HttpPublishQueueAsync) (port : Z) : Z * list byte * list byte :=
  (uint16_t port,
   take (strlen (eventName q)) (eventName q),
   take (strlen (default [] (data q))) (default [] (data q))).

(** [discardOldEvent(false)] called [k] times. *)
Definition discardFirst (k : nat) (q : HttpPublishQueueAsync) : HttpPublishQueueAsync :=
  Nat.iter k (fun q => snd (discardOldEvent false q)) q.

(** Turns at which the network is ready, the last attempt ([last]) is at
    least 1010 ms old and the request is answered with a status in
    [200, 300). *)
Fixpoint prompt (last : Z) (ts : list Tick) : Prop :=
  match ts with
  | [] => True
  | t :: ts' =>
      wifiReady t = true /\
      1010 <= uint32_t (millis0 t - last) /\
      200 <= responseStatus t < 300 /\
      prompt (millis1 t) ts'
  end.

(** Two turns, two seconds apart, each answered with 200. *)
Definition sample_ticks : list Tick :=
  [mkTick true 5000 200 5100; mkTick true 7000 200 7050].

(** What [publish] stores fills, up to the rounding to four bytes, the
    size it computes, and [clearEvents] is not among the calls. *)
Definition exactFit (q : HttpPublishQueueAsync) (c : Call) : Prop :=
  match c with
  | Publish hostName port path body =>
      align4 (Z.of_nat (length (storedBytes q port))) = eventSize hostName path body
  | ClearEvents => False
  | _ => True
  end.

(** One accepted request, the first turn of the drain loop, one
    eviction. *)
Definition sample_calls : list Call :=
  [Publish (cstr "h") 81 (cstr "") (cstr "b");
   Turn (mkTick true 5000 200 5100);
   DiscardOldEvent false].

(** * Properties *)

(** Closed facts about the sample objects are settled by evaluation. *)
Ltac by_compute :=
  vm_compute; repeat split; first [reflexivity | discriminate | intro; discriminate].

(** ** Arithmetic of the machine integers *)

Lemma size_t_small (x : Z) : 0 <= x < 2 ^ 32 -> size_t x = x.
Proof. intros H. unfold size_t. apply Z.mod_small. exact H. Qed.

Lemma uint16_t_small (x : Z) : 0 <= x < 2 ^ 16 -> uint16_t x = x.
Proof. intros H. unfold uint16_t. apply Z.mod_small. exact H. Qed.

Lemma size_t_mod4 (x : Z) : size_t x mod 4 = x mod 4.
Proof.
  unfold size_t.
  apply Z.mod_mod_divide. exists (2 ^ 30). reflexivity.
Qed.

Lemma align4_spec (x : Z) : x <= align4 x < x + 4 /\ align4 x mod 4 = 0.
Proof.
  unfold align4.
  pose proof (Z.mod_pos_bound x 4 ltac:(lia)) as Hb.
  destruct (x mod 4 =? 0) eqn:E; simpl.
  - apply Z.eqb_eq in E. lia.
  - apply Z.eqb_neq in E. split; [lia|].
    rewrite (Z.div_mod x 4) at 1 by lia.
    replace (4 * (x / 4) + x mod 4 + (4 - x mod 4)) with ((x / 4 + 1) * 4) by lia.
    apply Z.mod_mul. lia.
Qed.

Lemma align4_le (x y : Z) : x <= y -> y mod 4 = 0 -> align4 x <= y.
Proof.
  intros Hxy Hy.
  destruct (align4_spec x) as [[_ Hlt] Hm].
  destruct (Z.le_gt_cases (align4 x) y) as [|Hgt]; [assumption|exfalso].
  pose proof (Z.div_mod (align4 x) 4 ltac:(lia)) as Ha.
  pose proof (Z.div_mod y 4 ltac:(lia)) as Hy'.
  rewrite Hm in Ha. rewrite Hy in Hy'. lia.
Qed.

Lemma align4_shift (x k : Z) : k mod 4 = 0 -> align4 (x - k) = align4 x - k.
Proof.
  intros Hk. unfold align4.
  assert ((x - k) mod 4 = x mod 4) as ->.
  { rewrite Zminus_mod, Hk, Z.sub_0_r. apply Z.mod_mod. lia. }
  destruct (x mod 4 =? 0); simpl; lia.
Qed.

Lemma eventSize_spec (hostName path body : list byte) :
  let raw := sizeof_EventData + Z.of_nat (strlen hostName)
             + Z.of_nat (strlen path) + Z.of_nat (strlen body) + 3 in
  raw + 3 < 2 ^ 32 -> eventSize hostName path body = align4 raw.
Proof.
  intros raw Hraw. unfold eventSize. fold raw.
  assert (0 <= raw) by (unfold raw, sizeof_EventData; lia).
  rewrite (size_t_small raw) by lia.
  unfold align4.
  pose proof (Z.mod_pos_bound raw 4 ltac:(lia)).
  destruct (raw mod 4 =? 0) eqn:E; simpl; [reflexivity|].
  apply Z.eqb_neq in E. apply size_t_small. lia.
Qed.

(** ** publish: the paths that store nothing *)

Lemma publish_oversized_eq q hostName port path body :
  eventSize hostName path body > size_t (retainedBufferSize q - sizeof_RetainedBufHeader) ->
  publish q hostName port path body =
    (false, match data q with None => with_data q (Some []) | Some _ => q end).
Proof.
  intros H. unfold publish.
  destruct (data q); cbn [retainedBufferSize with_data];
    (destruct (Z.gtb_spec (eventSize hostName path body)
                 (size_t (retainedBufferSize q - sizeof_RetainedBufHeader)));
     [reflexivity | lia]).
Qed.

Lemma same_buffer_data q :
  same_buffer q (match data q with None => with_data q (Some []) | Some _ => q end).
Proof. destruct (data q); repeat split. Qed.

(** C7. An event whose size exceeds the region size minus the header size
    is refused at once: [publish] returns [false] and the region, with its
    header fields and stored events, and the cursor are what they were,
    whatever the number of stored events. *)
Theorem publish_oversized_rejected q hostName port path body :
  sizeof_RetainedBufHeader <= retainedBufferSize q < 2 ^ 16 ->
  eventSize hostName path body > retainedBufferSize q - sizeof_RetainedBufHeader ->
  fst (publish q hostName port path body) = false /\
  same_buffer q (snd (publish q hostName port path body)).
Proof.
  intros Hsz Hbig.
  rewrite publish_oversized_eq.
  - split; [reflexivity | apply same_buffer_data].
  - rewrite size_t_small; unfold sizeof_RetainedBufHeader in *; lia.
Qed.

Lemma publish_oversized_rejected_witness :
  (sizeof_RetainedBufHeader <= retainedBufferSize sample_two < 2 ^ 16 /\
   eventSize (cstr "a-host-name-of-some-length") (cstr "/p") (cstr "b")
     > retainedBufferSize sample_two - sizeof_RetainedBufHeader) /\
  fst (publish sample_two (cstr "a-host-name-of-some-length") 80 (cstr "/p") (cstr "b")) = false /\
  same_buffer sample_two
    (snd (publish sample_two (cstr "a-host-name-of-some-length") 80 (cstr "/p") (cstr "b"))).
Proof.
  assert (sizeof_RetainedBufHeader <= retainedBufferSize sample_two < 2 ^ 16) as H1
    by by_compute.
  assert (eventSize (cstr "a-host-name-of-some-length") (cstr "/p") (cstr "b")
            > retainedBufferSize sample_two - sizeof_RetainedBufHeader) as H2
    by by_compute.
  split; [split; assumption|].
  exact (publish_oversized_rejected sample_two _ 80 _ _ H1 H2).
Defined.

Lemma publish_full_eq q hostName port path body :
  let q' := match data q with None => with_data q (Some []) | Some _ => q end in
  eventSize hostName path body <= size_t (retainedBufferSize q - sizeof_RetainedBufHeader) ->
  size_t (retainedBufferSize q - nextFree q) < eventSize hostName path body ->
  publish q hostName port path body =
    if numEvents q =? 1 then (false, q')
    else (false, snd (discardOldEvent (isSending q) q')).
Proof.
  intros q' Hfit Hroom. unfold publish, numEvents. subst q'.
  destruct (data q); cbn [retainedBufferSize nextFree retainedBuffer isSending with_data];
    (destruct (Z.gtb_spec (eventSize hostName path body)
                 (size_t (retainedBufferSize q - sizeof_RetainedBufHeader))); [lia|];
     destruct (Z.geb_spec (size_t (retainedBufferSize q - nextFree q))
                 (eventSize hostName path body)); [lia|];
     reflexivity).
Qed.

(** C8. With exactly one event stored, a [publish] whose event does not
    fit behind the cursor returns [false]; the region, with the stored
    event and the event count, and the cursor are what they were. *)
Theorem publish_single_event_kept q hostName port path body :
  numEvents q = 1 ->
  sizeof_RetainedBufHeader <= nextFree q <= retainedBufferSize q ->
  retainedBufferSize q < 2 ^ 16 ->
  retainedBufferSize q - nextFree q < eventSize hostName path body ->
  fst (publish q hostName port path body) = false /\
  same_buffer q (snd (publish q hostName port path body)).
Proof.
  intros Hn Hcur Hsz Hroom.
  assert (size_t (retainedBufferSize q - nextFree q) = retainedBufferSize q - nextFree q) as Hfree
    by (apply size_t_small; unfold sizeof_RetainedBufHeader in *; lia).
  destruct (Z.le_gt_cases (eventSize hostName path body)
              (size_t (retainedBufferSize q - sizeof_RetainedBufHeader))) as [Hfit|Hbig].
  - rewrite publish_full_eq; [| exact Hfit | rewrite Hfree; exact Hroom].
    rewrite Hn. split; [reflexivity | apply same_buffer_data].
  - rewrite publish_oversized_eq by lia.
    split; [reflexivity | apply same_buffer_data].
Qed.

Lemma publish_single_event_kept_witness :
  (numEvents sample_one = 1 /\
   sizeof_RetainedBufHeader <= nextFree sample_one <= retainedBufferSize sample_one /\
   retainedBufferSize sample_one < 2 ^ 16 /\
   retainedBufferSize sample_one - nextFree sample_one
     < eventSize (cstr "host-17") (cstr "/path") (cstr "body")) /\
  fst (publish sample_one (cstr "host-17") 80 (cstr "/path") (cstr "body")) = false /\
  same_buffer sample_one
    (snd (publish sample_one (cstr "host-17") 80 (cstr "/path") (cstr "body"))).
Proof.
  assert (numEvents sample_one = 1) as H1 by by_compute.
  assert (sizeof_RetainedBufHeader <= nextFree sample_one <= retainedBufferSize sample_one) as H2
    by by_compute.
  assert (retainedBufferSize sample_one < 2 ^ 16) as H3 by by_compute.
  assert (retainedBufferSize sample_one - nextFree sample_one
            < eventSize (cstr "host-17") (cstr "/path") (cstr "body")) as H4
    by by_compute.
  split; [repeat split; first [exact H1 | apply H2 | exact H3 | exact H4]|].
  exact (publish_single_event_kept sample_one _ 80 _ _ H1 H2 H3 H4).
Defined.

(** C1. The space check is not retried after an eviction.  In a region of
    32 bytes holding two events of 8 bytes, an event of 12 bytes fits the
    usable 24 bytes but not the 8 free ones; [publish] evicts the oldest
    event, which frees 16 bytes, and returns [false] without storing the
    new event. *)
Theorem publish_gives_up_after_one_eviction :
  let r := publish sample_two (cstr "h") 82 (cstr "a") (cstr "bcde") in
  eventSize (cstr "h") (cstr "a") (cstr "bcde") = 12 /\
  retainedBufferSize sample_two - sizeof_RetainedBufHeader = 24 /\
  retainedBufferSize sample_two - nextFree sample_two = 8 /\
  isSending sample_two = false /\
  storedEvents sample_two = [(80, cstr "h", cstr "b"); (81, cstr "h", cstr "b")] /\
  fst r = false /\
  storedEvents (snd r) = [(81, cstr "h", cstr "b")] /\
  retainedBufferSize (snd r) - nextFree (snd r) = 16.
Proof. by_compute. Qed.

(** ** clearEvents *)

Lemma clearEvents_sending q : isSending q = true -> clearEvents q = (false, q).
Proof. intros H. unfold clearEvents. rewrite H. reflexivity. Qed.

Lemma clearEvents_nextFree q : nextFree (snd (clearEvents q)) = nextFree q.
Proof. unfold clearEvents. destruct (isSending q); reflexivity. Qed.

(** C3. [clearEvents] does not move the cursor.  With one event of 8
    bytes stored and no send in flight it returns [true] and sets the
    event count to zero, but the cursor stays at offset 16 instead of
    going back to the end of the header; the next event is then stored
    behind the cleared one, and the first event of the queue is the
    cleared one. *)
Theorem clearEvents_leaves_cursor :
  let q := snd (clearEvents sample_one) in
  let q' := snd (publish q (cstr "h") 99 (cstr "") (cstr "b")) in
  isSending sample_one = false /\
  storedEvents sample_one = [(80, cstr "h", cstr "b")] /\
  nextFree sample_one = 16 /\
  fst (clearEvents sample_one) = true /\
  numEvents q = 0 /\
  nextFree q = 16 /\
  nextFree q <> sizeof_RetainedBufHeader /\
  numEvents q' = 1 /\
  storedEvents q' = [(80, cstr "h", cstr "b")].
Proof. by_compute. Qed.

(** ** Loads and stores inside the region *)

(** A store changes the bytes of the region it covers and no others. *)
Lemma store_bytes_lookup (mem : list byte) (p : Z) (bs : list byte) (i : nat) :
  (i < length mem)%nat ->
  store_bytes mem p bs !! i =
    if decide (p <= Z.of_nat i < p + Z.of_nat (length bs))
    then bs !! Z.to_nat (Z.of_nat i - p)
    else mem !! i.
Proof.
  intros Hi. unfold store_bytes.
  set (bs' := drop (Z.to_nat (- p)) bs). set (n := Z.to_nat p).
  assert (length bs' = length bs - Z.to_nat (- p))%nat as Hbs'
    by (unfold bs'; apply length_drop).
  destruct (decide (i < n)%nat) as [Hlt|Hge].
  - rewrite lookup_app_l by (rewrite length_take; lia).
    rewrite lookup_take_lt by lia.
    destruct (decide (p <= Z.of_nat i < p + Z.of_nat (length bs))); [lia | reflexivity].
  - rewrite lookup_app_r by (rewrite length_take; lia).
    rewrite length_take. replace (n `min` length mem)%nat with n by lia.
    destruct (decide (i - n < length bs')%nat) as [Hin|Hout].
    + rewrite lookup_app_l by (rewrite length_take; lia).
      rewrite lookup_take_lt by lia.
      unfold bs'. rewrite lookup_drop.
      destruct (decide (p <= Z.of_nat i < p + Z.of_nat (length bs))); [|lia].
      f_equal. lia.
    + rewrite lookup_app_r by (rewrite length_take; lia).
      rewrite length_take, lookup_drop.
      destruct (decide (p <= Z.of_nat i < p + Z.of_nat (length bs))); [lia|].
      f_equal. lia.
Qed.

(** A load reads the bytes of the region and NUL outside of it. *)
Lemma load_bytes_nth (mem : list byte) (p : Z) (n j : nat) :
  (j < n)%nat ->
  nth j (load_bytes mem p n) Byte.x00 =
    if decide (0 <= p + Z.of_nat j < Z.of_nat (length mem))
    then nth (Z.to_nat (p + Z.of_nat j)) mem Byte.x00
    else Byte.x00.
Proof.
  intros Hj. unfold load_bytes.
  rewrite nth_firstn.
  destruct (Nat.ltb_spec j n); [|lia].
  set (z := Z.to_nat (- p)).
  set (l := drop (Z.to_nat p) (repeat Byte.x00 z ++ mem)).
  assert (length l = z + length mem - Z.to_nat p)%nat as Hl
    by (unfold l; rewrite length_drop, length_app, repeat_length; reflexivity).
  destruct (decide (j < length l)%nat) as [Hin|Hout].
  - rewrite app_nth1 by assumption.
    unfold l. rewrite nth_skipn.
    destruct (decide (Z.to_nat p + j < z)%nat) as [Hneg|Hpos].
    + rewrite app_nth1 by (rewrite repeat_length; lia).
      rewrite nth_repeat.
      destruct (decide (0 <= p + Z.of_nat j < Z.of_nat (length mem))); [lia | reflexivity].
    + rewrite app_nth2 by (rewrite repeat_length; lia).
      rewrite repeat_length.
      destruct (decide (0 <= p + Z.of_nat j < Z.of_nat (length mem))); [|lia].
      f_equal. lia.
  - rewrite app_nth2 by lia. rewrite nth_repeat.
    destruct (decide (0 <= p + Z.of_nat j < Z.of_nat (length mem))); [lia | reflexivity].
Qed.

(** A store over the middle part of a region split in three. *)
Lemma store_bytes_app (a b c bs : list byte) :
  length bs = length b ->
  store_bytes (a ++ b ++ c) (Z.of_nat (length a)) bs = a ++ bs ++ c.
Proof.
  intros Hlen. unfold store_bytes.
  replace (Z.to_nat (- Z.of_nat (length a))) with O by lia.
  rewrite Nat2Z.id, drop_0, take_app_length.
  f_equal. f_equal.
  - apply take_ge. rewrite !length_app. lia.
  - rewrite Hlen, drop_app_add, drop_app_length. reflexivity.
Qed.

Lemma load_bytes_app (a b c : list byte) :
  load_bytes (a ++ b ++ c) (Z.of_nat (length a)) (length b) = b.
Proof.
  unfold load_bytes.
  replace (Z.to_nat (- Z.of_nat (length a))) with O by lia.
  rewrite Nat2Z.id. cbn [repeat app].
  rewrite drop_app_length, <- app_assoc. apply take_app_length.
Qed.

Lemma chars_at_app (a r : list byte) : chars_at (a ++ r) (Z.of_nat (length a)) = r.
Proof.
  unfold chars_at.
  destruct (Z.ltb_spec (Z.of_nat (length a)) 0); [lia|].
  rewrite Nat2Z.id. apply drop_app_length.
Qed.

Lemma chars_at_nonneg (mem : list byte) (p : Z) :
  0 <= p -> chars_at mem p = drop (Z.to_nat p) mem.
Proof. intros H. unfold chars_at. destruct (Z.ltb_spec p 0); [lia | reflexivity]. Qed.

Lemma chars_at_add (mem : list byte) (p : Z) (k : nat) :
  0 <= p -> chars_at mem (p + Z.of_nat k) = drop k (chars_at mem p).
Proof.
  intros H. rewrite !chars_at_nonneg by lia.
  rewrite drop_drop. f_equal. lia.
Qed.

Lemma load_bytes_chars (mem : list byte) (p : Z) (n : nat) :
  0 <= p ->
  load_bytes mem p n = take n (chars_at mem p ++ repeat Byte.x00 n).
Proof.
  intros H. unfold load_bytes. rewrite chars_at_nonneg by lia.
  replace (Z.to_nat (- p)) with O by lia. reflexivity.
Qed.

(** ** The header fields of a region of at least eight bytes *)

Lemma header_split (mem : list byte) :
  8 <= Z.of_nat (length mem) ->
  exists m s n body,
    mem = m ++ s ++ n ++ body /\ length m = 4%nat /\ length s = 2%nat /\ length n = 2%nat /\
    body = chars_at mem 8.
Proof.
  intros H.
  exists (take 4 mem), (take 2 (drop 4 mem)), (take 2 (drop 6 mem)), (drop 8 mem).
  rewrite !length_take, !length_drop.
  repeat split; try lia.
  rewrite <- (take_drop 4 mem) at 1. f_equal.
  rewrite <- (take_drop 2 (drop 4 mem)) at 1. f_equal.
  rewrite drop_drop. cbn [Nat.add].
  rewrite <- (take_drop 2 (drop 6 mem)) at 1. f_equal.
  rewrite drop_drop. reflexivity.
Qed.

Section HeaderFields.
Variables m s n body : list byte.
Hypothesis Hm : length m = 4%nat.
Hypothesis Hs : length s = 2%nat.
Hypothesis Hn : length n = 2%nat.

Lemma hdr_magic_split : hdr_magic (m ++ s ++ n ++ body) = le_combine m.
Proof.
  unfold hdr_magic, load_u32. f_equal.
  change 0 with (Z.of_nat (length (@nil byte))).
  rewrite <- Hm. apply (load_bytes_app [] m (s ++ n ++ body)).
Qed.

Lemma hdr_size_split : hdr_size (m ++ s ++ n ++ body) = le_combine s.
Proof.
  unfold hdr_size, load_u16. f_equal.
  replace 4 with (Z.of_nat (length m)) by lia.
  rewrite <- Hs. apply load_bytes_app.
Qed.

Lemma hdr_numEvents_split : hdr_numEvents (m ++ s ++ n ++ body) = le_combine n.
Proof.
  unfold hdr_numEvents, load_u16. f_equal.
  replace 6 with (Z.of_nat (length (m ++ s))) by (rewrite length_app; lia).
  rewrite <- Hn. rewrite (app_assoc m s). apply load_bytes_app.
Qed.

Lemma set_hdr_magic_split (v : Z) :
  set_hdr_magic (m ++ s ++ n ++ body) v = le_split 4 v ++ s ++ n ++ body.
Proof.
  unfold set_hdr_magic, store_u32.
  change 0 with (Z.of_nat (length (@nil byte))).
  apply (store_bytes_app [] m (s ++ n ++ body)).
  rewrite length_le_split. lia.
Qed.

Lemma set_hdr_size_split (v : Z) :
  set_hdr_size (m ++ s ++ n ++ body) v = m ++ le_split 2 v ++ n ++ body.
Proof.
  unfold set_hdr_size, store_u16.
  replace 4 with (Z.of_nat (length m)) by lia.
  apply store_bytes_app. rewrite length_le_split. lia.
Qed.

Lemma set_hdr_numEvents_split (v : Z) :
  set_hdr_numEvents (m ++ s ++ n ++ body) v = m ++ s ++ le_split 2 v ++ body.
Proof.
  unfold set_hdr_numEvents, store_u16.
  replace 6 with (Z.of_nat (length (m ++ s))) by (rewrite length_app; lia).
  rewrite (app_assoc m s), (app_assoc m s).
  apply store_bytes_app. rewrite length_le_split. lia.
Qed.

Lemma chars_at_body (k : nat) :
  chars_at (m ++ s ++ n ++ body) (8 + Z.of_nat k) = drop k body.
Proof.
  replace 8 with (Z.of_nat (length (m ++ s ++ n))) by (rewrite !length_app; lia).
  rewrite chars_at_add by lia.
  rewrite (app_assoc s n), (app_assoc m (s ++ n)).
  rewrite chars_at_app. reflexivity.
Qed.
End HeaderFields.

(** ** C strings in a list of bytes *)

Lemma strlen_le (s : list byte) : (strlen s <= length s)%nat.
Proof.
  induction s as [|b s IH]; cbn [strlen length]; [lia|].
  destruct (Byte.eqb b Byte.x00); lia.
Qed.

Lemma strlen_app (l r : list byte) :
  strlen (l ++ r) =
    if (strlen l <? length l)%nat then strlen l else (length l + strlen r)%nat.
Proof.
  induction l as [|b l IH]; cbn [strlen length app].
  - reflexivity.
  - destruct (Byte.eqb b Byte.x00); [reflexivity|].
    rewrite IH.
    destruct (Nat.ltb_spec (strlen l) (length l)), (Nat.ltb_spec (S (strlen l)) (S (length l)));
      lia.
Qed.

Lemma strlen_app_lt (l r : list byte) :
  (strlen l < length l)%nat -> strlen (l ++ r) = strlen l.
Proof.
  intros H. rewrite strlen_app.
  destruct (Nat.ltb_spec (strlen l) (length l)); [reflexivity | lia].
Qed.

Lemma strlen_app_found (l r : list byte) :
  (strlen (l ++ r) < length l)%nat -> strlen l = strlen (l ++ r).
Proof.
  rewrite strlen_app.
  destruct (Nat.ltb_spec (strlen l) (length l)); [reflexivity | lia].
Qed.

(** The bytes before the first NUL hold no NUL. *)
Lemma strlen_take (s r : list byte) :
  strlen (take (strlen s) s ++ Byte.x00 :: r) = strlen s.
Proof.
  induction s as [|b s IH]; cbn [strlen take app].
  - reflexivity.
  - destruct (Byte.eqb b Byte.x00) eqn:E; cbn [strlen take app].
    + reflexivity.
    + rewrite E, IH. reflexivity.
Qed.

Lemma length_take_strlen (s : list byte) : length (take (strlen s) s) = strlen s.
Proof. rewrite length_take. pose proof (strlen_le s). lia. Qed.

(** ** An event seen from its first byte *)

Lemma skipEvent_align (mem : list byte) (p : Z) :
  skipEvent mem p =
    align4 (p + sizeof_EventData + (strlen_at mem (p + sizeof_EventData) + 1)
            + (strlen_at mem (p + sizeof_EventData
                              + (strlen_at mem (p + sizeof_EventData) + 1)) + 1)).
Proof. unfold skipEvent, align4. rewrite size_t_mod4. reflexivity. Qed.

Lemma skipEvent_chars (mem : list byte) (p : Z) :
  0 <= p -> skipEvent mem p = align4 (p + Z.of_nat (rawLen (chars_at mem p))).
Proof.
  intros Hp. rewrite skipEvent_align. f_equal.
  unfold strlen_at, rawLen, sizeof_EventData.
  change 2 with (Z.of_nat 2).
  rewrite (chars_at_add mem p 2) by lia.
  set (a := drop 2 (chars_at mem p)).
  replace (p + Z.of_nat 2 + (Z.of_nat (strlen a) + 1))
    with (p + Z.of_nat (2 + S (strlen a))) by lia.
  rewrite (chars_at_add mem p (2 + S (strlen a))) by lia.
  rewrite <- drop_drop. fold a. lia.
Qed.

Lemma eventAt_chars (mem : list byte) (p : Z) :
  0 <= p -> eventAt mem p = parse (chars_at mem p).
Proof.
  intros Hp. unfold eventAt, parse, load_u16, string_at, strlen_at, sizeof_EventData.
  rewrite load_bytes_chars by lia.
  change 2 with (Z.of_nat 2).
  rewrite (chars_at_add mem p 2) by lia.
  set (a := drop 2 (chars_at mem p)).
  replace (p + Z.of_nat 2 + (Z.of_nat (strlen a) + 1))
    with (p + Z.of_nat (2 + S (strlen a))) by lia.
  rewrite (chars_at_add mem p (2 + S (strlen a))) by lia.
  rewrite <- drop_drop. fold a. reflexivity.
Qed.

(** An event that ends inside a window [w] of the memory does not depend
    on what follows the window. *)
Lemma rawLen_window (w r : list byte) :
  (rawLen w <= length w)%nat ->
  rawLen (w ++ r) = rawLen w /\ parse (w ++ r) = parse w.
Proof.
  unfold rawLen, parse. intros H.
  assert (2 <= length w)%nat as H2 by lia.
  rewrite (drop_app_le w r 2) by lia.
  set (a := drop 2 w) in *.
  assert (length a = length w - 2)%nat as Ha by (unfold a; rewrite length_drop; lia).
  assert (strlen (a ++ r) = strlen a) as Hsa by (apply strlen_app_lt; lia).
  rewrite Hsa.
  rewrite (drop_app_le a r (S (strlen a))) by lia.
  set (b := drop (S (strlen a)) a) in *.
  assert (length b = length a - S (strlen a))%nat as Hb by (unfold b; rewrite length_drop; lia).
  assert (strlen (b ++ r) = strlen b) as Hsb by (apply strlen_app_lt; lia).
  rewrite Hsb. split; [reflexivity|].
  f_equal; [f_equal|].
  - f_equal. rewrite <- app_assoc. rewrite !take_app_le by lia. reflexivity.
  - apply take_app_le. lia.
  - apply take_app_le. lia.
Qed.

Lemma rawLen_window_inv (w r : list byte) :
  (rawLen (w ++ r) <= length w)%nat -> (rawLen w <= length w)%nat.
Proof.
  unfold rawLen. intros H.
  rewrite (drop_app_le w r 2) in H by lia.
  set (a := drop 2 w) in *.
  assert (length a = length w - 2)%nat as Ha by (unfold a; rewrite length_drop; lia).
  assert (strlen a = strlen (a ++ r)) as Hsa by (apply strlen_app_found; lia).
  rewrite <- Hsa in H.
  rewrite (drop_app_le a r (S (strlen a))) in H by lia.
  set (b := drop (S (strlen a)) a) in *.
  assert (length b = length a - S (strlen a))%nat as Hb by (unfold b; rewrite length_drop; lia).
  assert (strlen b = strlen (b ++ r)) as Hsb by (apply strlen_app_found; lia).
  lia.
Qed.

(** ** Skipping events *)

Lemma strlen_at_nonneg (mem : list byte) (p : Z) : 0 <= strlen_at mem p.
Proof. unfold strlen_at. lia. Qed.

Lemma skipEvent_ge (mem : list byte) (p : Z) : p + 4 <= skipEvent mem p.
Proof.
  rewrite skipEvent_align.
  match goal with |- _ <= align4 ?x => pose proof (align4_spec x) as Ha end.
  pose proof (strlen_at_nonneg mem (p + sizeof_EventData)).
  pose proof (strlen_at_nonneg mem
    (p + sizeof_EventData + (strlen_at mem (p + sizeof_EventData) + 1))).
  unfold sizeof_EventData in *. lia.
Qed.

Lemma skipEvent_aligned (mem : list byte) (p : Z) : skipEvent mem p mod 4 = 0.
Proof. rewrite skipEvent_align. apply align4_spec. Qed.

Lemma walk_ge (mem : list byte) (n : nat) (p : Z) : p <= walk mem n p.
Proof.
  revert p. induction n as [|n IH]; intros p; cbn [walk]; [lia|].
  pose proof (IH (skipEvent mem p)). pose proof (skipEvent_ge mem p). lia.
Qed.

Lemma walk_aligned (mem : list byte) (n : nat) (p : Z) :
  p mod 4 = 0 -> walk mem n p mod 4 = 0.
Proof.
  revert p. induction n as [|n IH]; intros p Hp; cbn [walk]; [exact Hp|].
  apply IH, skipEvent_aligned.
Qed.

(** Every event takes at least four bytes. *)
Lemma walk_lower (mem : list byte) (n : nat) (p : Z) :
  p + 4 * Z.of_nat n <= walk mem n p.
Proof.
  revert p. induction n as [|n IH]; intros p; cbn [walk]; [lia|].
  pose proof (IH (skipEvent mem p)). pose proof (skipEvent_ge mem p). lia.
Qed.

(** [skipEvent] follows the layout of the records: it ends where the
    record that starts at [p] ends. *)
Lemma skipEvent_recordEnd (mem : list byte) (p : Z) :
  0 <= p -> skipEvent mem p = recordEnd mem p.
Proof. apply skipEvent_chars. Qed.

Lemma walk_recordsEnd (mem : list byte) (n : nat) (p : Z) :
  0 <= p -> walk mem n p = recordsEnd mem n p.
Proof.
  revert p. induction n as [|n IH]; intros p Hp; cbn [walk recordsEnd]; [reflexivity|].
  rewrite <- skipEvent_recordEnd by assumption.
  apply IH. pose proof (skipEvent_ge mem p). lia.
Qed.

Lemma events_records (mem : list byte) (n : nat) (p : Z) :
  0 <= p -> events mem n p = records mem n p.
Proof.
  revert p. induction n as [|n IH]; intros p Hp; cbn [events records]; [reflexivity|].
  rewrite <- skipEvent_recordEnd, eventAt_chars by assumption.
  f_equal. apply IH. pose proof (skipEvent_ge mem p). lia.
Qed.

(** The loop of the constructor stops with [initBuffer] set exactly when
    skipping all the events ends behind the region. *)
Lemma skipEvents_walk (mem : list byte) (end_ : Z) (n : nat) (p : Z) :
  p <= end_ ->
  snd (skipEvents mem end_ n p) = (walk mem n p >? end_) /\
  (walk mem n p <= end_ -> fst (skipEvents mem end_ n p) = walk mem n p).
Proof.
  revert p. induction n as [|n IH]; intros p Hp; cbn [skipEvents walk].
  - destruct (Z.gtb_spec p end_); split; try reflexivity; lia.
  - pose proof (walk_ge mem n (skipEvent mem p)) as Hge.
    destruct (Z.gtb_spec (skipEvent mem p) end_) as [Hgt|Hle]; cbn [fst snd].
    + split; [|lia].
      destruct (Z.gtb_spec (walk mem n (skipEvent mem p)) end_); [reflexivity | lia].
    + apply IH. exact Hle.
Qed.

(** ** The constructor *)

Lemma construct_keep self buf size :
  sizeof_RetainedBufHeader <= size ->
  header_valid buf size = true ->
  walk_overflows buf size = false ->
  construct self buf size =
    mkQueue buf size
      (walk buf (Z.to_nat (hdr_numEvents buf)) sizeof_RetainedBufHeader)
      (isSending self) (lastPublish self) (failureRetryMs self) (stateHandler self)
      (eventName self) (data self).
Proof.
  unfold header_valid, walk_overflows, construct. intros Hsize Hv Ho. rewrite Hv.
  destruct (skipEvents_walk buf size (Z.to_nat (hdr_numEvents buf))
              sizeof_RetainedBufHeader Hsize) as [Hflag Hpos].
  destruct (skipEvents buf size (Z.to_nat (hdr_numEvents buf)) sizeof_RetainedBufHeader)
    as [p flag]. cbn [fst snd] in *.
  rewrite Ho in Hflag. subst flag.
  rewrite Hpos; [reflexivity|].
  destruct (Z.gtb_spec (walk buf (Z.to_nat (hdr_numEvents buf)) sizeof_RetainedBufHeader) size);
    [discriminate | lia].
Qed.

Lemma construct_reset self buf size :
  sizeof_RetainedBufHeader <= size ->
  header_valid buf size && negb (walk_overflows buf size) = false ->
  construct self buf size =
    mkQueue
      (set_hdr_numEvents
         (set_hdr_size (set_hdr_magic buf RETAINED_BUF_HEADER_MAGIC) size) 0)
      size sizeof_RetainedBufHeader
      (isSending self) (lastPublish self) (failureRetryMs self) (stateHandler self)
      (eventName self) (data self).
Proof.
  unfold header_valid, walk_overflows, construct. intros Hsize H.
  destruct ((hdr_magic buf =? RETAINED_BUF_HEADER_MAGIC) && (hdr_size buf =? size));
    [|reflexivity].
  destruct (skipEvents_walk buf size (Z.to_nat (hdr_numEvents buf))
              sizeof_RetainedBufHeader Hsize) as [Hflag _].
  destruct (skipEvents buf size (Z.to_nat (hdr_numEvents buf)) sizeof_RetainedBufHeader)
    as [p flag]. cbn [fst snd] in *.
  cbn [andb] in H. apply negb_false_iff in H. rewrite H in Hflag. subst flag.
  reflexivity.
Qed.

(** What the reset leaves in a region that holds its header. *)
Lemma reset_header (buf : list byte) (size : Z) :
  8 <= Z.of_nat (length buf) -> 0 <= size < 2 ^ 16 ->
  let mem := set_hdr_numEvents
               (set_hdr_size (set_hdr_magic buf RETAINED_BUF_HEADER_MAGIC) size) 0 in
  hdr_magic mem = RETAINED_BUF_HEADER_MAGIC /\ hdr_size mem = size /\
  hdr_numEvents mem = 0 /\ length mem = length buf /\ chars_at mem 8 = chars_at buf 8.
Proof.
  intros Hlen Hsize mem.
  destruct (header_split buf Hlen) as (m & s & n & body & Hbuf & Hm & Hs & Hn & Hbody).
  assert (mem = le_split 4 RETAINED_BUF_HEADER_MAGIC ++ le_split 2 size
                ++ le_split 2 0 ++ body) as Hmem.
  { subst mem. rewrite Hbuf.
    rewrite set_hdr_magic_split by assumption.
    rewrite set_hdr_size_split by (try apply length_le_split; assumption).
    rewrite set_hdr_numEvents_split by (try apply length_le_split; assumption).
    reflexivity. }
  rewrite Hmem.
  rewrite hdr_magic_split, hdr_size_split, hdr_numEvents_split
    by apply length_le_split.
  rewrite !le_combine_split.
  repeat split.
  - apply Z.mod_small. change (Z.of_nat 2 * 8) with 16. lia.
  - rewrite Hbuf, !length_app, !length_le_split. lia.
  - pose proof (chars_at_body (le_split 4 RETAINED_BUF_HEADER_MAGIC) (le_split 2 size)
                  (le_split 2 0) body (length_le_split _ _) (length_le_split _ _)
                  (length_le_split _ _) 0) as H1.
    change (8 + Z.of_nat 0) with 8 in H1. change (drop 0 body) with body in H1.
    rewrite H1. exact Hbody.
Qed.

(** The two cases of the constructor, in terms of [skipEvent] applied
    [numEvents] times. *)
Lemma construct_cases self buf size :
  Z.of_nat (length buf) = size ->
  sizeof_RetainedBufHeader <= size < 2 ^ 16 ->
  let q := construct self buf size in
  (if header_valid buf size && negb (walk_overflows buf size)
   then retainedBuffer q = buf /\
        nextFree q = walk buf (Z.to_nat (hdr_numEvents buf)) sizeof_RetainedBufHeader
   else hdr_magic (retainedBuffer q) = RETAINED_BUF_HEADER_MAGIC /\
        hdr_size (retainedBuffer q) = size /\
        numEvents q = 0 /\
        nextFree q = sizeof_RetainedBufHeader /\
        chars_at (retainedBuffer q) sizeof_RetainedBufHeader
          = chars_at buf sizeof_RetainedBufHeader) /\
  consistent q /\
  construct q (retainedBuffer q) (retainedBufferSize q) = q.
Proof.
  intros Hlen Hsize q.
  destruct (header_valid buf size && negb (walk_overflows buf size)) eqn:Hcase.
  - apply andb_true_iff in Hcase as [Hv Ho]. apply negb_true_iff in Ho.
    assert (q = mkQueue buf size
                  (walk buf (Z.to_nat (hdr_numEvents buf)) sizeof_RetainedBufHeader)
                  (isSending self) (lastPublish self) (failureRetryMs self)
                  (stateHandler self) (eventName self) (data self)) as Hq
      by (apply construct_keep; [lia | assumption | assumption]).
    rewrite Hq. cbn [retainedBuffer nextFree retainedBufferSize].
    split; [split; reflexivity|]. split.
    + unfold consistent, walked, region_ok, numEvents.
      cbn [retainedBuffer nextFree retainedBufferSize].
      repeat split; try lia.
      unfold walk_overflows in Ho.
      destruct (Z.gtb_spec (walk buf (Z.to_nat (hdr_numEvents buf))
                              sizeof_RetainedBufHeader) size); [discriminate | lia].
    + rewrite construct_keep by (first [assumption | lia]). reflexivity.
  - assert (q = mkQueue
                  (set_hdr_numEvents
                     (set_hdr_size (set_hdr_magic buf RETAINED_BUF_HEADER_MAGIC) size) 0)
                  size sizeof_RetainedBufHeader
                  (isSending self) (lastPublish self) (failureRetryMs self)
                  (stateHandler self) (eventName self) (data self)) as Hq
      by (apply construct_reset; [lia | assumption]).
    unfold sizeof_RetainedBufHeader in Hsize.
    destruct (reset_header buf size ltac:(lia) ltac:(lia))
      as (Hmagic & Hsz & Hnum & Hl & Hbody).
    rewrite Hq. unfold numEvents. cbn [retainedBuffer nextFree retainedBufferSize].
    split; [repeat split; assumption|]. split.
    + unfold consistent, walked, region_ok, numEvents.
      cbn [retainedBuffer nextFree retainedBufferSize].
      rewrite Hnum, Hl. change (Z.to_nat 0) with O. cbn [walk].
      unfold sizeof_RetainedBufHeader.
      repeat split; lia.
    + rewrite construct_keep.
      * rewrite Hnum. reflexivity.
      * unfold sizeof_RetainedBufHeader. lia.
      * unfold header_valid. rewrite Hmagic, Hsz, !Z.eqb_refl. reflexivity.
      * unfold walk_overflows. rewrite Hnum.
        change (Z.to_nat 0) with O. cbn [walk].
        unfold sizeof_RetainedBufHeader.
        destruct (Z.gtb_spec 8 size); [lia | reflexivity].
Qed.

(** C9. The constructor validates or resets, for every content of the
    region.  If the magic or the stored size is wrong, or the recorded
    number of records, each laid out as a header and two strings with
    their NULs padded to a multiple of four bytes, ends behind the
    region, the header is rewritten (magic, size of the region, no
    events) and the cursor is the end of the header.  Otherwise the
    region is kept as it is, the cursor is the offset of the first byte
    behind the last of these records, and the stored events are their
    fields.  Either way every counted event has at least four bytes
    before the cursor, the cursor is inside the region, the result is a
    well-formed log, and constructing again on the resulting region
    changes nothing.  [construct] is a total function: it has one result
    for every region content and no failure value. *)
Theorem construct_validates_or_resets self buf size :
  Z.of_nat (length buf) = size ->
  sizeof_RetainedBufHeader <= size < 2 ^ 16 ->
  let q := construct self buf size in
  let n := Z.to_nat (hdr_numEvents buf) in
  (if header_valid buf size && negb (recordsEnd buf n sizeof_RetainedBufHeader >? size)
   then retainedBuffer q = buf /\
        nextFree q = recordsEnd buf n sizeof_RetainedBufHeader /\
        numEvents q = hdr_numEvents buf /\
        storedEvents q = records buf n sizeof_RetainedBufHeader
   else hdr_magic (retainedBuffer q) = RETAINED_BUF_HEADER_MAGIC /\
        hdr_size (retainedBuffer q) = size /\
        numEvents q = 0 /\
        nextFree q = sizeof_RetainedBufHeader /\
        chars_at (retainedBuffer q) sizeof_RetainedBufHeader
          = chars_at buf sizeof_RetainedBufHeader) /\
  sizeof_RetainedBufHeader + 4 * numEvents q <= nextFree q <= size /\
  consistent q /\
  construct q (retainedBuffer q) (retainedBufferSize q) = q.
Proof.
  intros Hlen Hsize q n.
  destruct (construct_cases self buf size Hlen Hsize) as (Hcase & Hc & Hid).
  fold q in Hcase, Hc, Hid.
  unfold walk_overflows in Hcase. fold n in Hcase.
  rewrite walk_recordsEnd in Hcase by (unfold sizeof_RetainedBufHeader; lia).
  split; [|split; [|exact (conj Hc Hid)]].
  - destruct (header_valid buf size
              && negb (recordsEnd buf n sizeof_RetainedBufHeader >? size)).
    + destruct Hcase as (Hb & Hn).
      refine (conj Hb (conj Hn _)).
      unfold storedEvents, numEvents. rewrite Hb. fold n.
      split; [reflexivity|].
      apply events_records. unfold sizeof_RetainedBufHeader. lia.
    + exact Hcase.
  - destruct Hc as ((_ & _) & Hw & Hcur).
    pose proof (walk_lower (retainedBuffer q) (Z.to_nat (numEvents q))
                  sizeof_RetainedBufHeader) as Hlow.
    unfold walked in Hw. rewrite Hw in Hlow.
    assert (retainedBufferSize q = size) as Hsz.
    { unfold q, construct.
      destruct (if (hdr_magic buf =? RETAINED_BUF_HEADER_MAGIC) && (hdr_size buf =? size)
                then skipEvents buf size (Z.to_nat (hdr_numEvents buf))
                       sizeof_RetainedBufHeader
                else (nextFree self, true)) as [p [|]]; reflexivity. }
    rewrite Hsz in Hcur. lia.
Qed.

Lemma construct_validates_or_resets_witness :
  (Z.of_nat (length (retainedBuffer sample_two)) = 32 /\
   sizeof_RetainedBufHeader <= 32 < 2 ^ 16) /\
  recordsEnd (retainedBuffer sample_two) 2 sizeof_RetainedBufHeader = 24 /\
  records (retainedBuffer sample_two) 2 sizeof_RetainedBufHeader
    = [(80, cstr "h", cstr "b"); (81, cstr "h", cstr "b")] /\
  let buf := retainedBuffer sample_two in
  let q := construct (members [] None) buf 32 in
  let n := Z.to_nat (hdr_numEvents buf) in
  (if header_valid buf 32 && negb (recordsEnd buf n sizeof_RetainedBufHeader >? 32)
   then retainedBuffer q = buf /\
        nextFree q = recordsEnd buf n sizeof_RetainedBufHeader /\
        numEvents q = hdr_numEvents buf /\
        storedEvents q = records buf n sizeof_RetainedBufHeader
   else hdr_magic (retainedBuffer q) = RETAINED_BUF_HEADER_MAGIC /\
        hdr_size (retainedBuffer q) = 32 /\
        numEvents q = 0 /\
        nextFree q = sizeof_RetainedBufHeader /\
        chars_at (retainedBuffer q) sizeof_RetainedBufHeader
          = chars_at buf sizeof_RetainedBufHeader) /\
  sizeof_RetainedBufHeader + 4 * numEvents q <= nextFree q <= 32 /\
  consistent q /\
  construct q (retainedBuffer q) (retainedBufferSize q) = q.
Proof.
  assert (Z.of_nat (length (retainedBuffer sample_two)) = 32) as H1 by by_compute.
  assert (sizeof_RetainedBufHeader <= 32 < 2 ^ 16) as H2 by by_compute.
  split; [split; assumption|]. split; [by_compute|]. split; [by_compute|].
  exact (construct_validates_or_resets (members [] None) (retainedBuffer sample_two) 32 H1 H2).
Defined.

(** A region whose magic was overwritten comes back empty. *)
Example construct_corrupt_magic :
  let buf := Byte.x00 :: drop 1 (retainedBuffer sample_two) in
  let q := construct (members [] None) buf 32 in
  numEvents sample_two = 2 /\ header_valid buf 32 = false /\
  numEvents q = 0 /\ nextFree q = sizeof_RetainedBufHeader /\ storedEvents q = [].
Proof. by_compute. Qed.

(** ** Removing an event: the memory afterwards *)

Lemma memmove_split (a b c : list byte) :
  memmove (a ++ b ++ c) (Z.of_nat (length a)) (Z.of_nat (length a + length b))
          (Z.of_nat (length c))
  = a ++ c ++ drop (length c) (b ++ c).
Proof.
  unfold memmove. rewrite Nat2Z.id.
  assert (load_bytes (a ++ b ++ c) (Z.of_nat (length a + length b)) (length c) = c) as ->.
  { rewrite <- length_app, app_assoc.
    rewrite <- (app_nil_r c) at 1. apply load_bytes_app. }
  rewrite <- (take_drop (length c) (b ++ c)) at 1.
  apply store_bytes_app.
  rewrite length_take, length_app. lia.
Qed.

Lemma discard_memory (mem : list byte) (start next : Z) :
  sizeof_RetainedBufHeader <= start <= next ->
  next <= Z.of_nat (length mem) < 2 ^ 32 ->
  let after := size_t (Z.of_nat (length mem) - next) in
  let mem1 := if after >? 0 then memmove mem start next after else mem in
  let mem2 := set_hdr_numEvents mem1 (uint16_t (hdr_numEvents mem1 - 1)) in
  exists m sz nn a b c,
    mem = m ++ sz ++ nn ++ a ++ b ++ c /\
    mem2 = m ++ sz ++ le_split 2 (uint16_t (le_combine nn - 1))
             ++ a ++ c ++ drop (length c) (b ++ c) /\
    length m = 4%nat /\ length sz = 2%nat /\ length nn = 2%nat /\
    8 + Z.of_nat (length a) = start /\ Z.of_nat (length b) = next - start.
Proof.
  intros Hs He after mem1 mem2. unfold sizeof_RetainedBufHeader in Hs.
  destruct (header_split mem ltac:(lia)) as (m & sz & nn & body & Hmem & Hm & Hsz & Hnn & _).
  assert (Z.of_nat (length body) = Z.of_nat (length mem) - 8) as Hbody
    by (rewrite Hmem, !length_app; lia).
  set (a := take (Z.to_nat (start - 8)) body).
  set (b := take (Z.to_nat (next - start)) (drop (Z.to_nat (start - 8)) body)).
  set (c := drop (Z.to_nat (next - 8)) body).
  assert (body = a ++ b ++ c) as Habc.
  { unfold a, b, c.
    rewrite <- (take_drop (Z.to_nat (start - 8)) body) at 1. f_equal.
    rewrite <- (take_drop (Z.to_nat (next - start)) (drop (Z.to_nat (start - 8)) body)) at 1.
    f_equal. rewrite drop_drop. f_equal. lia. }
  assert (Z.of_nat (length a) = start - 8) as Ha by (unfold a; rewrite length_take; lia).
  assert (Z.of_nat (length b) = next - start) as Hb
    by (unfold b; rewrite length_take, length_drop; lia).
  assert (Z.of_nat (length c) = Z.of_nat (length mem) - next) as Hc
    by (unfold c; rewrite length_drop; lia).
  exists m, sz, nn, a, b, c.
  assert (mem1 = m ++ sz ++ nn ++ a ++ c ++ drop (length c) (b ++ c)) as Hmem1.
  { subst mem1 after. rewrite size_t_small by lia. rewrite <- Hc.
    destruct (Z.gtb_spec (Z.of_nat (length c)) 0) as [Hpos|Hzero].
    - pose proof (memmove_split (m ++ sz ++ nn ++ a) b c) as Hmv.
      rewrite <- !app_assoc in Hmv.
      rewrite <- Hmv, Hmem, Habc. f_equal; rewrite !length_app; lia.
    - assert (c = []) as -> by (destruct c; [reflexivity | cbn [length] in Hzero; lia]).
      rewrite Hmem, Habc. cbn [length drop app]. rewrite !app_nil_r. reflexivity. }
  repeat split; try assumption; try lia.
  - rewrite Hmem, Habc. reflexivity.
  - subst mem2. rewrite Hmem1.
    rewrite hdr_numEvents_split by assumption.
    apply set_hdr_numEvents_split; assumption.
Qed.

(** ** Events behind a removed one move down unchanged *)

Section Shift.
Variables mem mem' : list byte.
Variables s len : Z.
Variables c d : list byte.
Hypothesis Hs : 0 <= s.
Hypothesis Hlen : 0 <= len.
Hypothesis Hmod : len mod 4 = 0.
Hypothesis Hc : chars_at mem (s + len) = c.
Hypothesis Hc' : chars_at mem' s = c ++ d.
Hypothesis HE : Z.of_nat (length mem) = s + len + Z.of_nat (length c).

Lemma chars_shift (p : Z) :
  s + len <= p <= Z.of_nat (length mem) ->
  chars_at mem p = drop (Z.to_nat (p - s - len)) c /\
  chars_at mem' (p - len) = drop (Z.to_nat (p - s - len)) c ++ d.
Proof.
  intros Hp. set (k := Z.to_nat (p - s - len)). split.
  - replace p with (s + len + Z.of_nat k) by lia.
    rewrite chars_at_add by lia. rewrite Hc. reflexivity.
  - replace (p - len) with (s + Z.of_nat k) by lia.
    rewrite chars_at_add by lia. rewrite Hc'.
    apply drop_app_le. lia.
Qed.

Lemma skip_shift (p : Z) :
  s + len <= p -> skipEvent mem p <= Z.of_nat (length mem) ->
  skipEvent mem' (p - len) = skipEvent mem p - len /\
  eventAt mem' (p - len) = eventAt mem p.
Proof.
  intros Hp Hin.
  pose proof (skipEvent_ge mem p) as Hge.
  destruct (chars_shift p ltac:(lia)) as [H1 H2].
  rewrite !eventAt_chars by lia.
  rewrite (skipEvent_chars mem p) in * by lia.
  rewrite (skipEvent_chars mem' (p - len)) by lia.
  rewrite H1 in *. rewrite H2.
  set (w := drop (Z.to_nat (p - s - len)) c) in *.
  assert (Z.of_nat (length w) = Z.of_nat (length mem) - p) as Hw
    by (unfold w; rewrite length_drop; lia).
  pose proof (align4_spec (p + Z.of_nat (rawLen w))) as Hal.
  destruct (rawLen_window w d ltac:(lia)) as [-> ->].
  split; [|reflexivity].
  rewrite <- align4_shift by assumption. f_equal. lia.
Qed.

Lemma walk_shift (n : nat) (p : Z) :
  s + len <= p -> walk mem n p <= Z.of_nat (length mem) ->
  walk mem' n (p - len) = walk mem n p - len /\
  events mem' n (p - len) = events mem n p.
Proof.
  revert p. induction n as [|n IH]; intros p Hp Hin; cbn [walk events] in *.
  - split; reflexivity.
  - pose proof (walk_ge mem n (skipEvent mem p)) as Hge.
    pose proof (skipEvent_ge mem p) as Hge'.
    destruct (skip_shift p Hp ltac:(lia)) as [-> ->].
    destruct (IH (skipEvent mem p) ltac:(lia) Hin) as [-> ->].
    split; reflexivity.
Qed.
End Shift.

(** An event that ends before the removed one is left as it is. *)
Lemma skip_prefix (mem mem' w r r' : list byte) (p : Z) :
  0 <= p ->
  chars_at mem p = w ++ r -> chars_at mem' p = w ++ r' ->
  skipEvent mem p <= p + Z.of_nat (length w) ->
  skipEvent mem' p = skipEvent mem p /\ eventAt mem' p = eventAt mem p.
Proof.
  intros Hp H1 H2 Hin.
  rewrite !eventAt_chars by lia.
  rewrite (skipEvent_chars mem p) in * by lia.
  rewrite (skipEvent_chars mem' p) by lia.
  rewrite H1 in *. rewrite H2.
  pose proof (align4_spec (p + Z.of_nat (rawLen (w ++ r)))) as Hal.
  assert (rawLen w <= length w)%nat as Hw by (apply (rawLen_window_inv w r); lia).
  destruct (rawLen_window w r Hw) as [-> ->].
  destruct (rawLen_window w r' Hw) as [-> ->].
  split; reflexivity.
Qed.

(** ** What removing the event at [start] does to the region *)

Lemma le_combine_u16 (nn : list byte) : length nn = 2%nat -> 0 <= le_combine nn < 2 ^ 16.
Proof. intros H. pose proof (le_combine_bound nn) as Hb. rewrite H in Hb. exact Hb. Qed.

Lemma removeAt_spec (mem : list byte) (end_ start : Z) :
  Z.of_nat (length mem) = end_ -> end_ < 2 ^ 32 ->
  sizeof_RetainedBufHeader <= start -> start mod 4 = 0 ->
  skipEvent mem start <= end_ ->
  let next := skipEvent mem start in
  let len := next - start in
  let mem2 := removeAt mem end_ start in
  length mem2 = length mem /\
  hdr_magic mem2 = hdr_magic mem /\
  hdr_size mem2 = hdr_size mem /\
  hdr_numEvents mem2 = uint16_t (hdr_numEvents mem - 1) /\
  0 <= hdr_numEvents mem < 2 ^ 16 /\
  (forall n p, next <= p -> walk mem n p <= end_ ->
     walk mem2 n (p - len) = walk mem n p - len /\
     events mem2 n (p - len) = events mem n p) /\
  (forall p, sizeof_RetainedBufHeader <= p -> skipEvent mem p <= start ->
     skipEvent mem2 p = skipEvent mem p /\ eventAt mem2 p = eventAt mem p) /\
  load_bytes mem2 sizeof_RetainedBufHeader (Z.to_nat (start - sizeof_RetainedBufHeader))
    = load_bytes mem sizeof_RetainedBufHeader (Z.to_nat (start - sizeof_RetainedBufHeader)).
Proof.
  intros HE Hbig Hstart Hal Hnext next len mem2.
  unfold sizeof_RetainedBufHeader in *.
  pose proof (skipEvent_ge mem start) as Hge. fold next in Hge, Hnext.
  destruct (discard_memory mem start next) as
    (m & sz & nn & a & b & c & Hmem & Hmem2 & Hm & Hsz & Hnn & Ha & Hb);
    [unfold sizeof_RetainedBufHeader; lia | lia |].
  assert (mem2 = m ++ sz ++ le_split 2 (uint16_t (le_combine nn - 1))
                   ++ a ++ c ++ drop (length c) (b ++ c)) as Hmem2'.
  { rewrite <- Hmem2. unfold mem2, removeAt. fold next. rewrite HE. reflexivity. }
  clear Hmem2. set (d := drop (length c) (b ++ c)) in *.
  set (nn' := le_split 2 (uint16_t (le_combine nn - 1))) in *.
  assert (length nn' = 2%nat) as Hnn' by apply length_le_split.
  assert (length d = length b) as Hd
    by (unfold d; rewrite length_drop, length_app; lia).
  assert (Z.of_nat (length mem) = start + len + Z.of_nat (length c)) as Hlenmem
    by (rewrite Hmem, !length_app; lia).
  assert (len mod 4 = 0) as Hlen4.
  { unfold len. rewrite Zminus_mod. unfold next.
    rewrite skipEvent_aligned, Hal. reflexivity. }
  assert (forall k : nat, chars_at mem (8 + Z.of_nat k) = drop k (a ++ b ++ c)) as Hch
    by (intros k; rewrite Hmem; apply chars_at_body; assumption).
  assert (forall k : nat, chars_at mem2 (8 + Z.of_nat k) = drop k (a ++ c ++ d)) as Hch2
    by (intros k; rewrite Hmem2'; apply chars_at_body; assumption).
  assert (hdr_numEvents mem = le_combine nn) as Hnum
    by (rewrite Hmem; apply hdr_numEvents_split; assumption).
  assert (forall n p, next <= p -> walk mem n p <= end_ ->
            walk mem2 n (p - len) = walk mem n p - len /\
            events mem2 n (p - len) = events mem n p) as Hshift.
  { intros n p Hp Hw.
    apply (walk_shift mem mem2 start len c d); try lia.
    - replace (start + len) with (8 + Z.of_nat (length a + length b)) by lia.
      rewrite Hch, drop_app_add, drop_app_length. reflexivity.
    - replace start with (8 + Z.of_nat (length a)) by lia.
      rewrite Hch2, drop_app_length. reflexivity. }
  assert (forall p, 8 <= p -> skipEvent mem p <= start ->
            skipEvent mem2 p = skipEvent mem p /\ eventAt mem2 p = eventAt mem p) as Hpre.
  { intros p Hp Hin. pose proof (skipEvent_ge mem p).
    apply (skip_prefix mem mem2 (drop (Z.to_nat (p - 8)) a) (b ++ c) (c ++ d)); try lia.
    - replace p with (8 + Z.of_nat (Z.to_nat (p - 8))) at 1 by lia.
      rewrite Hch. apply drop_app_le. lia.
    - replace p with (8 + Z.of_nat (Z.to_nat (p - 8))) at 1 by lia.
      rewrite Hch2. apply drop_app_le. lia.
    - rewrite length_drop. lia. }
  split; [rewrite Hmem2', Hmem, !length_app; lia|].
  split; [rewrite Hmem2', Hmem, !hdr_magic_split by assumption; reflexivity|].
  split; [rewrite Hmem2', Hmem, !hdr_size_split by assumption; reflexivity|].
  split.
  { rewrite Hnum, Hmem2', hdr_numEvents_split by assumption.
    unfold nn'. rewrite le_combine_split.
    unfold uint16_t. change (Z.of_nat 2 * 8) with 16. apply Z.mod_mod. lia. }
  split; [rewrite Hnum; apply le_combine_u16; assumption|].
  split; [exact Hshift|].
  split; [exact Hpre|].
  replace (Z.to_nat (start - 8)) with (length a) by lia.
  rewrite Hmem2', Hmem.
  replace 8 with (Z.of_nat (length (m ++ sz ++ nn'))) at 1
    by (rewrite !length_app; lia).
  replace 8 with (Z.of_nat (length (m ++ sz ++ nn))) at 1
    by (rewrite !length_app; lia).
  pose proof (load_bytes_app (m ++ sz ++ nn') a (c ++ d)) as H1.
  pose proof (load_bytes_app (m ++ sz ++ nn) a (b ++ c)) as H2.
  rewrite <- !app_assoc in H1, H2. rewrite H1, H2. reflexivity.
Qed.

(** ** discardOldEvent *)

Lemma discardOldEvent_eq (secondEvent : bool) q :
  (if secondEvent then 2 else 1) <= numEvents q ->
  let mem := retainedBuffer q in
  let start := if secondEvent then skipEvent mem sizeof_RetainedBufHeader
               else sizeof_RetainedBufHeader in
  discardOldEvent secondEvent q =
    (true, with_nextFree (with_buffer q (removeAt mem (retainedBufferSize q) start))
             (nextFree q - size_t (skipEvent mem start - start))).
Proof.
  unfold numEvents, discardOldEvent, removeAt. intros H.
  destruct secondEvent; cbn [andb negb].
  - destruct (Z.ltb_spec (hdr_numEvents (retainedBuffer q)) 2); [lia | reflexivity].
  - destruct (Z.ltb_spec (hdr_numEvents (retainedBuffer q)) 1); [lia | reflexivity].
Qed.

Lemma discardOldEvent_refused (secondEvent : bool) q :
  numEvents q < (if secondEvent then 2 else 1) ->
  discardOldEvent secondEvent q = (false, q).
Proof.
  unfold numEvents, discardOldEvent. intros H.
  destruct secondEvent; cbn [andb negb].
  - destruct (Z.ltb_spec (hdr_numEvents (retainedBuffer q)) 2); [reflexivity | lia].
  - destruct (Z.ltb_spec (hdr_numEvents (retainedBuffer q)) 1); [reflexivity | lia].
Qed.

(** The members outside the buffer are not touched. *)
Lemma discardOldEvent_members (secondEvent : bool) q :
  let q' := snd (discardOldEvent secondEvent q) in
  retainedBufferSize q' = retainedBufferSize q /\ isSending q' = isSending q /\
  lastPublish q' = lastPublish q /\ failureRetryMs q' = failureRetryMs q /\
  stateHandler q' = stateHandler q /\ eventName q' = eventName q /\ data q' = data q.
Proof.
  unfold discardOldEvent.
  destruct (secondEvent && (hdr_numEvents (retainedBuffer q) <? 2));
    [repeat split|].
  destruct (negb secondEvent && (hdr_numEvents (retainedBuffer q) <? 1));
    repeat split.
Qed.

Lemma discard_first q :
  region_ok q -> 1 <= numEvents q -> walked q <= retainedBufferSize q ->
  let q' := snd (discardOldEvent false q) in
  let len := skipEvent (retainedBuffer q) sizeof_RetainedBufHeader
             - sizeof_RetainedBufHeader in
  fst (discardOldEvent false q) = true /\
  region_ok q' /\
  numEvents q' = numEvents q - 1 /\
  storedEvents q' = drop 1 (storedEvents q) /\
  walked q' = walked q - len /\
  nextFree q' = nextFree q - len /\
  len mod 4 = 0 /\
  hdr_magic (retainedBuffer q') = hdr_magic (retainedBuffer q) /\
  hdr_size (retainedBuffer q') = hdr_size (retainedBuffer q).
Proof.
  intros (Hlen & Hsz) Hn Hwalk q' len.
  subst q' len. rewrite (discardOldEvent_eq false q Hn).
  unfold storedEvents, walked, region_ok, numEvents in *.
  cbn [fst snd retainedBuffer retainedBufferSize nextFree with_nextFree with_buffer].
  set (mem := retainedBuffer q) in *. set (E := retainedBufferSize q) in *.
  unfold sizeof_RetainedBufHeader in *.
  destruct (Z.to_nat (hdr_numEvents mem)) as [|n'] eqn:En; [lia|].
  cbn [walk events drop] in *.
  pose proof (walk_ge mem n' (skipEvent mem 8)) as Hge.
  pose proof (skipEvent_ge mem 8) as Hge8.
  destruct (removeAt_spec mem E 8 Hlen ltac:(lia) ltac:(unfold sizeof_RetainedBufHeader; lia)
              eq_refl ltac:(lia))
    as (Hl2 & Hmagic & Hsize & Hnum & Hnb & Hshift & _ & _).
  destruct (Hshift n' (skipEvent mem 8) ltac:(lia) ltac:(lia)) as [Hw He].
  replace (skipEvent mem 8 - (skipEvent mem 8 - 8)) with 8 in Hw, He by lia.
  rewrite size_t_small by lia.
  assert (hdr_numEvents (removeAt mem E 8) = hdr_numEvents mem - 1) as Hnum'
    by (rewrite Hnum; apply uint16_t_small; lia).
  rewrite Hnum'.
  replace (Z.to_nat (hdr_numEvents mem - 1)) with n' by lia.
  assert ((skipEvent mem 8 - 8) mod 4 = 0) as Hmod
    by (rewrite Zminus_mod, skipEvent_aligned; reflexivity).
  repeat split; try assumption; try lia.
Qed.

Lemma discard_second q :
  region_ok q -> 2 <= numEvents q -> walked q <= retainedBufferSize q ->
  let q' := snd (discardOldEvent true q) in
  let first := skipEvent (retainedBuffer q) sizeof_RetainedBufHeader in
  let len := skipEvent (retainedBuffer q) first - first in
  fst (discardOldEvent true q) = true /\
  region_ok q' /\
  numEvents q' = numEvents q - 1 /\
  storedEvents q' = take 1 (storedEvents q) ++ drop 2 (storedEvents q) /\
  walked q' = walked q - len /\
  nextFree q' = nextFree q - len /\
  len mod 4 = 0 /\
  load_bytes (retainedBuffer q') sizeof_RetainedBufHeader
             (Z.to_nat (first - sizeof_RetainedBufHeader))
    = load_bytes (retainedBuffer q) sizeof_RetainedBufHeader
                 (Z.to_nat (first - sizeof_RetainedBufHeader)) /\
  hdr_magic (retainedBuffer q') = hdr_magic (retainedBuffer q) /\
  hdr_size (retainedBuffer q') = hdr_size (retainedBuffer q).
Proof.
  intros (Hlen & Hsz) Hn Hwalk q' first len.
  subst q' len. rewrite (discardOldEvent_eq true q Hn).
  unfold storedEvents, walked, region_ok, numEvents in *.
  cbn [fst snd retainedBuffer retainedBufferSize nextFree with_nextFree with_buffer].
  set (mem := retainedBuffer q) in *. set (E := retainedBufferSize q) in *.
  fold first.
  destruct (Z.to_nat (hdr_numEvents mem)) as [|[|n']] eqn:En; [lia | lia |].
  cbn [walk events drop take app] in *. fold first in Hwalk |- *.
  pose proof (walk_ge mem n' (skipEvent mem first)) as Hge.
  pose proof (skipEvent_ge mem first) as Hge1.
  pose proof (skipEvent_ge mem sizeof_RetainedBufHeader) as Hge8. fold first in Hge8.
  unfold sizeof_RetainedBufHeader in Hsz, Hge8.
  destruct (removeAt_spec mem E first Hlen ltac:(lia)
              ltac:(unfold sizeof_RetainedBufHeader; lia)
              (skipEvent_aligned mem _) ltac:(lia))
    as (Hl2 & Hmagic & Hsize & Hnum & Hnb & Hshift & Hpre & Hbytes).
  destruct (Hshift n' (skipEvent mem first) ltac:(lia) ltac:(lia)) as [Hw He].
  replace (skipEvent mem first - (skipEvent mem first - first)) with first in Hw, He by lia.
  destruct (Hpre sizeof_RetainedBufHeader ltac:(lia) ltac:(fold first; lia)) as [Hs1 He1].
  fold first in Hs1.
  rewrite size_t_small by lia.
  assert (hdr_numEvents (removeAt mem E first) = hdr_numEvents mem - 1) as Hnum'
    by (rewrite Hnum; apply uint16_t_small; lia).
  rewrite Hnum'.
  replace (Z.to_nat (hdr_numEvents mem - 1)) with (S n') by lia.
  cbn [walk events]. rewrite Hs1, He1, Hw, He.
  assert ((skipEvent mem first - first) mod 4 = 0) as Hmod
    by (unfold first; rewrite Zminus_mod, !skipEvent_aligned; reflexivity).
  repeat split; try assumption; try (unfold sizeof_RetainedBufHeader; lia).
Qed.

(** Removing an event of a well-formed log leaves a well-formed log. *)
Lemma discard_consistent (secondEvent : bool) q :
  consistent q -> (if secondEvent then 2 else 1) <= numEvents q ->
  consistent (snd (discardOldEvent secondEvent q)).
Proof.
  intros (Hr & Hw & Hc) Hn.
  pose proof (skipEvent_ge (retainedBuffer q) sizeof_RetainedBufHeader) as H1.
  pose proof (skipEvent_ge (retainedBuffer q)
                (skipEvent (retainedBuffer q) sizeof_RetainedBufHeader)) as H2.
  destruct (discardOldEvent_members secondEvent q) as (Hsz & _).
  destruct secondEvent.
  - destruct (discard_second q Hr Hn ltac:(lia)) as (_ & Hr' & _ & _ & Hw' & Hnf & _).
    split; [exact Hr' | split; lia].
  - destruct (discard_first q Hr Hn ltac:(lia)) as (_ & Hr' & _ & _ & Hw' & Hnf & _).
    split; [exact Hr' | split; lia].
Qed.

(** Setting [data] does not change what [discardOldEvent] does to the
    region and the cursor. *)
Lemma discardOldEvent_data (secondEvent : bool) q (d : option (list byte)) :
  fst (discardOldEvent secondEvent (with_data q d)) = fst (discardOldEvent secondEvent q) /\
  same_buffer (snd (discardOldEvent secondEvent q))
              (snd (discardOldEvent secondEvent (with_data q d))) /\
  isSending (snd (discardOldEvent secondEvent (with_data q d))) = isSending q.
Proof.
  unfold discardOldEvent, same_buffer.
  cbn [retainedBuffer retainedBufferSize nextFree with_data].
  destruct (secondEvent && (hdr_numEvents (retainedBuffer q) <? 2));
    [repeat split|].
  destruct (negb secondEvent && (hdr_numEvents (retainedBuffer q) <? 1));
    repeat split.
Qed.

(** C6. With at least two events stored and a send in flight, on a
    region whose counted events end inside it: the eviction,
    [discardOldEvent(isSending)], removes the second event and keeps the
    first and all later ones; the bytes of the first event, from the end
    of the header to the start of the second event, are the same before
    and after; the events still end inside the region, and the cursor
    keeps its distance to their end.  A [publish] that finds no room
    behind the cursor for a size that would fit an empty region does
    exactly this eviction, and returns [false]. *)
Theorem eviction_spares_event_in_flight q :
  region_ok q -> walked q <= retainedBufferSize q ->
  2 <= numEvents q -> isSending q = true ->
  let d := discardOldEvent (isSending q) q in
  let first := skipEvent (retainedBuffer q) sizeof_RetainedBufHeader in
  (fst d = true /\
   storedEvents (snd d) = take 1 (storedEvents q) ++ drop 2 (storedEvents q) /\
   numEvents (snd d) = numEvents q - 1 /\
   load_bytes (retainedBuffer (snd d)) sizeof_RetainedBufHeader
              (Z.to_nat (first - sizeof_RetainedBufHeader))
     = load_bytes (retainedBuffer q) sizeof_RetainedBufHeader
                  (Z.to_nat (first - sizeof_RetainedBufHeader)) /\
   region_ok (snd d) /\ walked (snd d) <= retainedBufferSize (snd d) /\
   nextFree (snd d) - walked (snd d) = nextFree q - walked q /\
   (consistent q -> consistent (snd d))) /\
  (forall hostName port path body,
     sizeof_RetainedBufHeader <= nextFree q <= retainedBufferSize q ->
     eventSize hostName path body <= retainedBufferSize q - sizeof_RetainedBufHeader ->
     retainedBufferSize q - nextFree q < eventSize hostName path body ->
     let r := publish q hostName port path body in
     fst r = false /\ same_buffer (snd d) (snd r) /\
     storedEvents (snd r) = take 1 (storedEvents q) ++ drop 2 (storedEvents q) /\
     isSending (snd r) = true).
Proof.
  intros Hr Hw Hn Hs d first. subst d. rewrite Hs.
  destruct (discard_second q Hr Hn Hw)
    as (H1 & Hr' & H3 & H4 & Hw' & Hc' & _ & H6 & _).
  fold first in H6.
  assert (retainedBufferSize (snd (discardOldEvent true q)) = retainedBufferSize q) as Hsz
    by apply (discardOldEvent_members true q).
  pose proof (skipEvent_ge (retainedBuffer q) sizeof_RetainedBufHeader) as Hg1.
  pose proof (skipEvent_ge (retainedBuffer q)
                (skipEvent (retainedBuffer q) sizeof_RetainedBufHeader)) as Hg2.
  split.
  - refine (conj H1 (conj H4 (conj H3 (conj H6 (conj Hr' _))))).
    split; [rewrite Hsz; lia|]. split; [lia|].
    intros Hc. apply (discard_consistent true q Hc Hn).
  - intros hostName port path body Hcur Hfit Hfull r. subst r.
    destruct Hr as (Hlen & Hsize).
    unfold sizeof_RetainedBufHeader in Hcur, Hfit, Hsize.
    rewrite publish_full_eq
      by (unfold sizeof_RetainedBufHeader; rewrite size_t_small; lia).
    destruct (Z.eqb_spec (numEvents q) 1) as [He|_]; [lia|]. cbn [fst snd]. rewrite Hs.
    assert (same_buffer (snd (discardOldEvent true q))
              (snd (discardOldEvent true
                      (match data q with None => with_data q (Some []) | Some _ => q end)))
            /\ isSending (snd (discardOldEvent true
                      (match data q with None => with_data q (Some []) | Some _ => q end)))
               = true) as (Hsame & Hsend).
    { destruct (data q).
      - split; [repeat split|].
        destruct (discardOldEvent_members true q) as (_ & Hi & _).
        rewrite Hi. exact Hs.
      - destruct (discardOldEvent_data true q (Some [])) as (_ & Ha & Hb).
        split; [exact Ha | rewrite Hb; exact Hs]. }
    refine (conj eq_refl (conj Hsame (conj _ Hsend))).
    destruct Hsame as (Hb & _). unfold storedEvents, numEvents in *.
    rewrite Hb. exact H4.
Qed.

Lemma eviction_spares_event_in_flight_witness :
  (region_ok sample_slack /\ walked sample_slack <= retainedBufferSize sample_slack /\
   2 <= numEvents sample_slack /\ isSending sample_slack = true) /\
  storedEvents sample_slack
    = [(80, cstr "h", cstr "b"); (81, cstr "h", cstr "b"); (82, cstr "h", cstr "b")] /\
  walked sample_slack = 32 /\ nextFree sample_slack = 36 /\
  (let r := publish sample_slack (cstr "h") 83 (cstr "a") (cstr "bcde") in
   fst r = false /\
   storedEvents (snd r) = [(80, cstr "h", cstr "b"); (82, cstr "h", cstr "b")]) /\
  let q := sample_slack in
  let d := discardOldEvent (isSending q) q in
  let first := skipEvent (retainedBuffer q) sizeof_RetainedBufHeader in
  (fst d = true /\
   storedEvents (snd d) = take 1 (storedEvents q) ++ drop 2 (storedEvents q) /\
   numEvents (snd d) = numEvents q - 1 /\
   load_bytes (retainedBuffer (snd d)) sizeof_RetainedBufHeader
              (Z.to_nat (first - sizeof_RetainedBufHeader))
     = load_bytes (retainedBuffer q) sizeof_RetainedBufHeader
                  (Z.to_nat (first - sizeof_RetainedBufHeader)) /\
   region_ok (snd d) /\ walked (snd d) <= retainedBufferSize (snd d) /\
   nextFree (snd d) - walked (snd d) = nextFree q - walked q /\
   (consistent q -> consistent (snd d))) /\
  (forall hostName port path body,
     sizeof_RetainedBufHeader <= nextFree q <= retainedBufferSize q ->
     eventSize hostName path body <= retainedBufferSize q - sizeof_RetainedBufHeader ->
     retainedBufferSize q - nextFree q < eventSize hostName path body ->
     let r := publish q hostName port path body in
     fst r = false /\ same_buffer (snd d) (snd r) /\
     storedEvents (snd r) = take 1 (storedEvents q) ++ drop 2 (storedEvents q) /\
     isSending (snd r) = true).
Proof.
  assert (region_ok sample_slack) as H1 by by_compute.
  assert (walked sample_slack <= retainedBufferSize sample_slack) as H2 by by_compute.
  assert (2 <= numEvents sample_slack) as H3 by by_compute.
  assert (isSending sample_slack = true) as H4 by by_compute.
  split; [exact (conj H1 (conj H2 (conj H3 H4)))|].
  split; [by_compute|]. split; [by_compute|]. split; [by_compute|]. split; [by_compute|].
  exact (eviction_spares_event_in_flight sample_slack H1 H2 H3 H4).
Defined.

(** ** The drain loop *)

(** C5. A call of [checkQueueState] that attempts a transport, on a
    region whose counted events end inside it: with a response status in
    [200, 300) the oldest event, and only it, is removed and the handler
    stays [checkQueueState]; the events still end inside the region and
    the cursor keeps its distance to their end; with any other status
    nothing is removed and the handler becomes [waitRetryState]; either
    way [isSending] is false and [lastPublish] is the time read after
    the attempt. *)
Theorem checkQueueState_attempt q t :
  region_ok q -> walked q <= retainedBufferSize q ->
  stateHandler q = checkQueueState_h -> canPublish q t = true ->
  let q' := stateStep q t in
  (if (200 <=? responseStatus t) && (responseStatus t <? 300)
   then storedEvents q' = drop 1 (storedEvents q) /\
        numEvents q' = numEvents q - 1 /\
        stateHandler q' = checkQueueState_h /\
        region_ok q' /\ walked q' <= retainedBufferSize q' /\
        nextFree q' - walked q' = nextFree q - walked q /\
        (consistent q -> consistent q')
   else storedEvents q' = storedEvents q /\
        same_buffer q q' /\
        stateHandler q' = waitRetryState_h) /\
  isSending q' = false /\
  lastPublish q' = millis1 t.
Proof.
  intros Hr Hw Hh Hcan q'. subst q'.
  unfold stateStep. rewrite Hh. unfold checkQueueState. rewrite Hcan.
  assert (1 <= numEvents q) as Hn.
  { unfold canPublish in Hcan. apply andb_true_iff in Hcan as [Hcan _].
    apply andb_true_iff in Hcan as [Hcan _]. unfold numEvents.
    destruct (Z.gtb_spec (hdr_numEvents (retainedBuffer q)) 0); [lia | discriminate]. }
  replace (responseStatus t >=? 200) with (200 <=? responseStatus t)
    by (symmetry; apply Z.geb_leb).
  destruct ((200 <=? responseStatus t) && (responseStatus t <? 300)).
  - destruct (discard_first (with_isSending q true) Hr Hn Hw)
      as (_ & Hr' & H3 & H4 & Hw' & Hc' & _).
    destruct (discardOldEvent_members false (with_isSending q true))
      as (Hsz & _ & _ & _ & H5 & _).
    cbn [stateHandler with_isSending retainedBufferSize] in H5, Hsz.
    pose proof (skipEvent_ge (retainedBuffer q) sizeof_RetainedBufHeader) as Hg.
    cbn [retainedBuffer with_isSending] in Hw', Hc'.
    refine (conj (conj H4 (conj H3 (conj _ (conj Hr' _)))) (conj eq_refl eq_refl)).
    + cbn [stateHandler with_lastPublish with_isSending]. rewrite H5. exact Hh.
    + split; [|split].
      * change (walked (snd (discardOldEvent false (with_isSending q true)))
                <= retainedBufferSize (snd (discardOldEvent false (with_isSending q true)))).
        rewrite Hsz. change (walked (with_isSending q true)) with (walked q) in Hw'. lia.
      * change (nextFree (snd (discardOldEvent false (with_isSending q true)))
                - walked (snd (discardOldEvent false (with_isSending q true)))
                = nextFree q - walked q).
        change (walked (with_isSending q true)) with (walked q) in Hw'.
        change (nextFree (with_isSending q true)) with (nextFree q) in Hc'. lia.
      * intros Hc.
        exact (discard_consistent false (with_isSending q true) Hc Hn).
  - refine (conj (conj eq_refl (conj _ eq_refl)) (conj eq_refl eq_refl)).
    unfold same_buffer. auto.
Qed.

Lemma checkQueueState_attempt_witness :
  let q := startState (snd (publish sample_host (cstr "host1") 80 (cstr "/a") (cstr "b"))) in
  let t := mkTick true 5000 200 5100 in
  (region_ok q /\ walked q <= retainedBufferSize q /\
   stateHandler q = checkQueueState_h /\ canPublish q t = true) /\
  storedEvents q = [(80, cstr "host1", cstr "b")] /\
  walked q = 20 /\ nextFree q = 24 /\
  let q' := stateStep q t in
  (if (200 <=? responseStatus t) && (responseStatus t <? 300)
   then storedEvents q' = drop 1 (storedEvents q) /\
        numEvents q' = numEvents q - 1 /\
        stateHandler q' = checkQueueState_h /\
        region_ok q' /\ walked q' <= retainedBufferSize q' /\
        nextFree q' - walked q' = nextFree q - walked q /\
        (consistent q -> consistent q')
   else storedEvents q' = storedEvents q /\
        same_buffer q q' /\
        stateHandler q' = waitRetryState_h) /\
  isSending q' = false /\
  lastPublish q' = millis1 t.
Proof.
  intros q t.
  assert (region_ok q) as H1 by by_compute.
  assert (walked q <= retainedBufferSize q) as H2 by by_compute.
  assert (stateHandler q = checkQueueState_h) as H3 by by_compute.
  assert (canPublish q t = true) as H4 by by_compute.
  split; [exact (conj H1 (conj H2 (conj H3 H4)))|].
  split; [by_compute|]. split; [by_compute|]. split; [by_compute|].
  exact (checkQueueState_attempt q t H1 H2 H3 H4).
Defined.

(** A refused request: status 503 keeps both events and moves to
    [waitRetryState]; the retry interval later the handler is
    [checkQueueState] again, the first event still in front. *)
Example checkQueueState_failure :
  let q := stateStep (startState sample_two) (mkTick true 5000 503 5100) in
  let q' := stateStep q (mkTick true 35100 0 0) in
  storedEvents q = storedEvents sample_two /\
  stateHandler q = waitRetryState_h /\ isSending q = false /\ lastPublish q = 5100 /\
  stateStep q (mkTick true 35099 0 0) = q /\
  stateHandler q' = checkQueueState_h /\
  frontEvent (retainedBuffer q') = (80, cstr "h", cstr "b").
Proof. by_compute. Qed.

(** ** publish: what is reserved and what is stored *)

Lemma publish_stored q hostName port path body :
  fst (publish q hostName port path body) = true ->
  nextFree (snd (publish q hostName port path body))
    = nextFree q + eventSize hostName path body.
Proof.
  unfold publish.
  destruct (data q); cbn [retainedBufferSize nextFree retainedBuffer isSending with_data];
    (destruct (eventSize hostName path body >?
               size_t (retainedBufferSize q - sizeof_RetainedBufHeader));
     [discriminate|];
     destruct (size_t (retainedBufferSize q - nextFree q) >=? eventSize hostName path body);
     [intros _; reflexivity|];
     destruct (hdr_numEvents (retainedBuffer q) =? 1); discriminate).
Qed.

(** [publish] looks at [hostName], [path] and [body] only to measure them. *)
Lemma publish_only_measures q port hostName path body hostName' path' body' :
  eventSize hostName' path' body' = eventSize hostName path body ->
  publish q hostName' port path' body' = publish q hostName port path body.
Proof. intros H. unfold publish. rewrite H. reflexivity. Qed.

(** From an event start that is a multiple of four, [skipEvent] advances
    by the header and the two strings it finds, rounded up. *)
Lemma skipEvent_stride (mem : list byte) (p : Z) :
  p mod 4 = 0 ->
  let name := p + sizeof_EventData in
  let payload := name + (strlen_at mem name + 1) in
  skipEvent mem p - p
    = align4 (sizeof_EventData + (strlen_at mem name + 1) + (strlen_at mem payload + 1)).
Proof.
  intros Hp name payload. rewrite skipEvent_align. fold name. fold payload.
  rewrite <- (align4_shift _ p Hp). f_equal. subst payload name. lia.
Qed.

(** The size by which [publish] advances the cursor for an event it
    stores is the size of the event header plus the lengths of
    [hostName], [path] and [body], each with its NUL, rounded up to the
    next multiple of four. *)
Lemma publish_reserves_three_strings q hostName port path body :
  Z.of_nat (strlen hostName) + Z.of_nat (strlen path) + Z.of_nat (strlen body) + 8 < 2 ^ 32 ->
  fst (publish q hostName port path body) = true ->
  nextFree (snd (publish q hostName port path body)) - nextFree q
    = align4 (sizeof_EventData + (Z.of_nat (strlen hostName) + 1)
              + (Z.of_nat (strlen path) + 1) + (Z.of_nat (strlen body) + 1)).
Proof.
  intros Hsmall Hok.
  rewrite (publish_stored q hostName port path body Hok).
  rewrite eventSize_spec by (unfold sizeof_EventData; lia).
  replace (nextFree q + _ - nextFree q)
    with (align4 (sizeof_EventData + Z.of_nat (strlen hostName) + Z.of_nat (strlen path)
                  + Z.of_nat (strlen body) + 3)) by lia.
  f_equal. lia.
Qed.

(** C2. The size [publish] reserves is not the size [skipEvent]
    passes.  For the request ("host1", 80, "/a", "b") [publish] advances
    the cursor by 16 bytes: the event header and the three strings
    [hostName], [path] and [body] with their NULs, 13 bytes, rounded up.
    The record it stored holds the header and two strings, "host1" and
    "b": 10 bytes that round up to 12, and [skipEvent] advances over it
    by 12, so that the walk looks for the next record 4 bytes before the
    place where [publish] stores it.  In an object whose [eventName] and
    [data] are empty the same request reserves 16 bytes for a record of
    4 bytes, which [skipEvent] passes in 4. *)
Theorem publish_size_is_not_the_skipped_size :
  (let q := sample_host in
   let r := publish q (cstr "host1") 80 (cstr "/a") (cstr "b") in
   let p := nextFree q in
   fst r = true /\
   eventAt (retainedBuffer (snd r)) p = (80, cstr "host1", cstr "b") /\
   nextFree (snd r) - p = 16 /\
   align4 (sizeof_EventData + (Z.of_nat (strlen (cstr "host1")) + 1)
           + (Z.of_nat (strlen (cstr "/a")) + 1) + (Z.of_nat (strlen (cstr "b")) + 1)) = 16 /\
   skipEvent (retainedBuffer (snd r)) p - p = 12 /\
   align4 (sizeof_EventData + (Z.of_nat (length (cstr "host1")) + 1)
           + (Z.of_nat (length (cstr "b")) + 1)) = 12 /\
   nextFree (snd r) - p <> skipEvent (retainedBuffer (snd r)) p - p) /\
  (let q := sample_plain in
   let r := publish q (cstr "host1") 80 (cstr "/a") (cstr "b") in
   let p := nextFree q in
   fst r = true /\
   eventAt (retainedBuffer (snd r)) p = (80, [], []) /\
   nextFree (snd r) - p = 16 /\
   skipEvent (retainedBuffer (snd r)) p - p = 4 /\
   nextFree (snd r) - p <> skipEvent (retainedBuffer (snd r)) p - p).
Proof. by_compute. Qed.

(** C4. The requests of a queue do not come back.  [publish] stores the
    port and the object's [eventName] and [data]; [hostName], [path] and
    [body] only enter the size.  So two requests of equal size leave the
    same object behind, whatever the object was; and after the requests
    ("host1", 80, "/a", "b") and ("host2", 80, "/c", "d"), which take 32 of
    the 56 usable bytes, the first event read back has no path and the
    second one, found 12 bytes behind the first where 16 were reserved,
    is empty. *)
Theorem publish_does_not_store_the_request :
  (forall q port,
     publish q (cstr "host2") port (cstr "/c") (cstr "d")
       = publish q (cstr "host1") port (cstr "/a") (cstr "b")) /\
  let r1 := publish sample_host (cstr "host1") 80 (cstr "/a") (cstr "b") in
  let r2 := publish (snd r1) (cstr "host2") 80 (cstr "/c") (cstr "d") in
  let q := snd r2 in
  fst r1 = true /\ fst r2 = true /\
  eventSize (cstr "host1") (cstr "/a") (cstr "b")
    + eventSize (cstr "host2") (cstr "/c") (cstr "d") = 32 /\
  retainedBufferSize sample_host - sizeof_RetainedBufHeader = 56 /\
  numEvents q = 2 /\
  frontEvent (retainedBuffer q) = (80, cstr "host1", cstr "b") /\
  fst (discardOldEvent false q) = true /\
  frontEvent (retainedBuffer (snd (discardOldEvent false q))) = (0, [], []) /\
  storedEvents q = [(80, cstr "host1", cstr "b"); (0, [], [])].
Proof.
  split.
  - intros q port. apply publish_only_measures. by_compute.
  - by_compute.
Qed.

(** Where the strings of the object are longer than those of the
    request, what [publish] stores does not fit the size it computes.  In
    the object whose [eventName] is "host1" and whose [data] is "b", the
    request ("", 0, "", "") reserves 8 bytes while 10 are stored, which
    [skipEvent] passes in 12; removing the event puts the cursor at
    offset 4, inside the header, and the next request is stored over the
    header's size and event count. *)
Example cursor_leaves_the_event_area :
  let q0 := sample_host in
  let r1 := publish q0 [] 0 [] [] in
  let r2 := discardOldEvent false (snd r1) in
  let r3 := publish (snd r2) [] 4660 [] [] in
  nextFree q0 = sizeof_RetainedBufHeader /\ numEvents q0 = 0 /\
  hdr_size (retainedBuffer q0) = 64 /\ retainedBufferSize q0 = 64 /\
  eventSize [] [] [] = 8 /\ Z.of_nat (length (storedBytes q0 0)) = 10 /\
  fst r1 = true /\ nextFree (snd r1) = 16 /\ numEvents (snd r1) = 1 /\
  skipEvent (retainedBuffer (snd r1)) sizeof_RetainedBufHeader = 20 /\
  fst r2 = true /\ nextFree (snd r2) = 4 /\
  nextFree (snd r2) < sizeof_RetainedBufHeader /\
  fst r3 = true /\ hdr_size (retainedBuffer (snd r3)) = 4660 /\
  hdr_size (retainedBuffer (snd r3)) <> retainedBufferSize (snd r3).
Proof. by_compute. Qed.

(** ** The cursor stays in the event area while events fit their size

    As long as the bytes [publish] stores fit the size it reserves, the
    header stays valid and the cursor stays between the end of the
    header and the end of the region, under any sequence of calls. *)

Lemma eventSize_aligned (hostName path body : list byte) :
  eventSize hostName path body mod 4 = 0.
Proof.
  unfold eventSize.
  set (size := size_t _).
  pose proof (Z.mod_pos_bound size 4 ltac:(lia)) as Hb.
  destruct (size mod 4 =? 0) eqn:E; cbn [negb].
  - apply Z.eqb_eq in E. exact E.
  - rewrite size_t_mod4.
    rewrite (Z.div_mod size 4) at 1 by lia.
    replace (4 * (size / 4) + size mod 4 + (4 - size mod 4)) with ((size / 4 + 1) * 4) by lia.
    apply Z.mod_mul. lia.
Qed.


Lemma walk_snoc (mem : list byte) (n : nat) (p : Z) :
  walk mem (S n) p = skipEvent mem (walk mem n p).
Proof.
  revert p. induction n as [|n IH]; intros p; [reflexivity|].
  cbn [walk] in *. apply IH.
Qed.

(** A NUL ends the string at the latest. *)
Lemma strlen_nul (u v : list byte) : (strlen (u ++ Byte.x00 :: v) <= length u)%nat.
Proof.
  induction u as [|b u IH]; cbn [strlen app length].
  - change (Byte.eqb Byte.x00 Byte.x00) with true. cbn iota. lia.
  - destruct (Byte.eqb b Byte.x00); lia.
Qed.

(** Skipping from [g] bytes before a stored event ends inside the event. *)
Lemma rawLen_into_event (gap hdr name payload post : list byte) :
  length hdr = 2%nat ->
  (rawLen (gap ++ hdr ++ (name ++ [Byte.x00]) ++ (payload ++ [Byte.x00]) ++ post)
   <= length gap + (2 + (length name + 1) + (length payload + 1)))%nat.
Proof.
  intros Hh. unfold rawLen.
  set (l := gap ++ hdr ++ (name ++ [Byte.x00]) ++ (payload ++ [Byte.x00]) ++ post).
  set (u := drop 2 (gap ++ hdr ++ name)).
  assert (length u = length gap + length name)%nat as Hu
    by (unfold u; rewrite length_drop, !length_app; lia).
  assert (drop 2 l = u ++ Byte.x00 :: payload ++ Byte.x00 :: post) as Ha.
  { unfold l, u.
    replace (gap ++ hdr ++ (name ++ [Byte.x00]) ++ (payload ++ [Byte.x00]) ++ post)
      with ((gap ++ hdr ++ name) ++ Byte.x00 :: payload ++ Byte.x00 :: post)
      by (rewrite <- !app_assoc; reflexivity).
    apply drop_app_le. rewrite !length_app. lia. }
  rewrite Ha.
  pose proof (strlen_nul u (payload ++ Byte.x00 :: post)) as Hsa.
  set (sa := strlen (u ++ Byte.x00 :: payload ++ Byte.x00 :: post)) in *.
  set (v := drop (S sa) (u ++ Byte.x00 :: payload)).
  assert (length v = length u + 1 + length payload - S sa)%nat as Hv
    by (unfold v; rewrite length_drop, !length_app; cbn [length]; lia).
  assert (drop (S sa) (u ++ Byte.x00 :: payload ++ Byte.x00 :: post)
          = v ++ Byte.x00 :: post) as Hb.
  { unfold v.
    replace (u ++ Byte.x00 :: payload ++ Byte.x00 :: post)
      with ((u ++ Byte.x00 :: payload) ++ Byte.x00 :: post)
      by (rewrite <- app_assoc; reflexivity).
    apply drop_app_le. rewrite !length_app. cbn [length]. lia. }
  rewrite Hb.
  pose proof (strlen_nul v post) as Hsb.
  lia.
Qed.

(** ** The region after a stored event *)

Lemma publish_room_eq q hostName port path body :
  let q0 := match data q with None => with_data q (Some []) | Some _ => q end in
  eventSize hostName path body <= size_t (retainedBufferSize q - sizeof_RetainedBufHeader) ->
  eventSize hostName path body <= size_t (retainedBufferSize q - nextFree q) ->
  publish q hostName port path body =
    (true,
     with_nextFree
       (with_buffer q0 (storeEvent (retainedBuffer q) (nextFree q) port (eventName q)
                                   (default [] (data q))))
       (nextFree q + eventSize hostName path body)).
Proof.
  intros q0 Hfit Hroom. unfold publish, storeEvent. subst q0.
  destruct (data q) eqn:Hd;
    cbn [retainedBufferSize nextFree retainedBuffer isSending eventName data with_data];
    rewrite ?Hd;
    (destruct (Z.gtb_spec (eventSize hostName path body)
                 (size_t (retainedBufferSize q - sizeof_RetainedBufHeader))); [lia|];
     destruct (Z.geb_spec (size_t (retainedBufferSize q - nextFree q))
                 (eventSize hostName path body)); [reflexivity | lia]).
Qed.

Lemma split3 (l : list byte) (a b : nat) :
  l = take a l ++ take b (drop a l) ++ drop (a + b) l.
Proof.
  rewrite <- (take_drop a l) at 1. f_equal.
  rewrite <- (take_drop b (drop a l)) at 1. f_equal.
  apply drop_drop.
Qed.

Lemma storeEvent_memory (m sz nn body : list byte) (k : nat) (port : Z) (e d : list byte) :
  length m = 4%nat -> length sz = 2%nat -> length nn = 2%nat ->
  let rec := le_split 2 port ++ (take (strlen e) e ++ [Byte.x00])
             ++ (take (strlen d) d ++ [Byte.x00]) in
  (k + length rec <= length body)%nat ->
  storeEvent (m ++ sz ++ nn ++ body) (8 + Z.of_nat k) port e d
    = m ++ sz ++ le_split 2 (uint16_t (le_combine nn + 1))
        ++ take k body ++ rec ++ drop (k + length rec) body.
Proof.
  intros Hm Hsz Hnn rec Hfit.
  set (P := le_split 2 port) in *.
  set (E' := take (strlen e) e ++ [Byte.x00]) in *.
  set (D' := take (strlen d) d ++ [Byte.x00]) in *.
  assert (length P = 2%nat) as HP by apply length_le_split.
  assert (length rec = 2 + length E' + length D')%nat as Hrec
    by (unfold rec; rewrite !length_app; lia).
  set (W := take (length rec) (drop k body)).
  assert (length W = length rec) as HW
    by (unfold W; rewrite length_take, length_drop; lia).
  set (post := drop (k + length rec) body).
  set (w1 := take 2 W). set (w2 := take (length E') (drop 2 W)).
  set (w3 := drop (2 + length E') W).
  assert (length w1 = 2%nat) as Hw1 by (unfold w1; rewrite length_take; lia).
  assert (length w2 = length E') as Hw2
    by (unfold w2; rewrite length_take, length_drop; lia).
  assert (length w3 = length D') as Hw3 by (unfold w3; rewrite length_drop; lia).
  set (pre := m ++ sz ++ nn ++ take k body).
  assert (Z.of_nat (length pre) = 8 + Z.of_nat k) as Hpre
    by (unfold pre; rewrite !length_app, length_take; lia).
  assert (m ++ sz ++ nn ++ body = pre ++ w1 ++ w2 ++ w3 ++ post) as Hmem.
  { rewrite (split3 body k (length rec)) at 1. fold W. fold post.
    rewrite (split3 W 2 (length E')) at 1. fold w1. fold w2. fold w3.
    unfold pre. rewrite <- !app_assoc. reflexivity. }
  unfold storeEvent. rewrite Hmem.
  (* the port *)
  assert (store_u16 (pre ++ w1 ++ w2 ++ w3 ++ post) (8 + Z.of_nat k) port
          = pre ++ P ++ w2 ++ w3 ++ post) as ->.
  { unfold store_u16. rewrite <- Hpre. apply store_bytes_app. lia. }
  (* the first string *)
  assert (8 + Z.of_nat k + sizeof_EventData = Z.of_nat (length (pre ++ P))) as Hcp
    by (rewrite length_app; unfold sizeof_EventData; lia).
  rewrite Hcp.
  assert (strcpy (pre ++ P ++ w2 ++ w3 ++ post) (Z.of_nat (length (pre ++ P))) e
          = (pre ++ P) ++ E' ++ w3 ++ post) as ->.
  { unfold strcpy. fold E'. rewrite (app_assoc pre P). apply store_bytes_app. lia. }
  assert (strlen_at ((pre ++ P) ++ E' ++ w3 ++ post) (Z.of_nat (length (pre ++ P)))
          = Z.of_nat (strlen e)) as ->.
  { unfold strlen_at. rewrite chars_at_app. unfold E'.
    rewrite <- app_assoc. cbn [app]. rewrite strlen_take. reflexivity. }
  (* the second string *)
  assert (Z.of_nat (length (pre ++ P)) + (Z.of_nat (strlen e) + 1)
          = Z.of_nat (length ((pre ++ P) ++ E'))) as ->.
  { unfold E'. rewrite !length_app, length_take_strlen. cbn [length]. lia. }
  assert (strcpy ((pre ++ P) ++ E' ++ w3 ++ post) (Z.of_nat (length ((pre ++ P) ++ E'))) d
          = ((pre ++ P) ++ E') ++ D' ++ post) as ->.
  { unfold strcpy. fold D'. rewrite (app_assoc (pre ++ P) E'). apply store_bytes_app. lia. }
  (* the event count *)
  replace (((pre ++ P) ++ E') ++ D' ++ post)
    with (m ++ sz ++ nn ++ take k body ++ rec ++ post)
    by (unfold pre, rec; rewrite <- !app_assoc; reflexivity).
  rewrite hdr_numEvents_split by assumption.
  apply set_hdr_numEvents_split; assumption.
Qed.

(** Events that end before an offset do not depend on what is stored
    from that offset on. *)
Lemma walk_prefix (mem mem' pre r r' : list byte) :
  chars_at mem 8 = pre ++ r -> chars_at mem' 8 = pre ++ r' ->
  forall n p, 8 <= p -> walk mem n p <= 8 + Z.of_nat (length pre) ->
    walk mem' n p = walk mem n p /\ events mem' n p = events mem n p.
Proof.
  intros H1 H2. induction n as [|n IH]; intros p Hp Hin; cbn [walk events] in *.
  - split; reflexivity.
  - pose proof (walk_ge mem n (skipEvent mem p)) as Hge.
    pose proof (skipEvent_ge mem p) as Hge'.
    assert (forall x y, chars_at x 8 = pre ++ y ->
              chars_at x p = drop (Z.to_nat (p - 8)) pre ++ y) as Hch.
    { intros x y Hx. replace p with (8 + Z.of_nat (Z.to_nat (p - 8))) at 1 by lia.
      rewrite chars_at_add by lia. rewrite Hx. apply drop_app_le. lia. }
    destruct (skip_prefix mem mem' (drop (Z.to_nat (p - 8)) pre) r r' p ltac:(lia)
                (Hch mem r H1) (Hch mem' r' H2)) as [-> ->].
    { rewrite length_drop. lia. }
    destruct (IH (skipEvent mem p) ltac:(lia) Hin) as [-> ->].
    split; reflexivity.
Qed.

Lemma align4_add (x y : Z) : x mod 4 = 0 -> align4 (x + y) = x + align4 y.
Proof.
  intros Hx. pose proof (align4_shift (x + y) x Hx) as H.
  replace (x + y - x) with y in H by lia. lia.
Qed.

(** The bytes [publish] stores are read back as one event of exactly
    their length. *)
Lemma parse_stored (port : Z) (e d post : list byte) :
  let name := take (strlen e) e in
  let payload := take (strlen d) d in
  let l := le_split 2 port ++ (name ++ [Byte.x00]) ++ (payload ++ [Byte.x00]) ++ post in
  rawLen l = (2 + (strlen e + 1) + (strlen d + 1))%nat /\
  parse l = (uint16_t port, name, payload).
Proof.
  intros name payload l. unfold rawLen, parse.
  assert (drop 2 l = name ++ Byte.x00 :: payload ++ Byte.x00 :: post) as Ha.
  { unfold l. rewrite drop_app_length' by (rewrite length_le_split; reflexivity).
    rewrite <- !app_assoc. reflexivity. }
  rewrite Ha.
  assert (strlen (name ++ Byte.x00 :: payload ++ Byte.x00 :: post) = strlen e) as Hsa
    by apply strlen_take.
  rewrite Hsa.
  assert (length name = strlen e) as Hln by apply length_take_strlen.
  assert (length payload = strlen d) as Hlp by apply length_take_strlen.
  assert (drop (S (strlen e)) (name ++ Byte.x00 :: payload ++ Byte.x00 :: post)
          = payload ++ Byte.x00 :: post) as Hb.
  { replace (name ++ Byte.x00 :: payload ++ Byte.x00 :: post)
      with ((name ++ [Byte.x00]) ++ payload ++ Byte.x00 :: post)
      by (rewrite <- app_assoc; reflexivity).
    apply drop_app_length'. rewrite length_app. cbn [length]. lia. }
  rewrite Hb.
  assert (strlen (payload ++ Byte.x00 :: post) = strlen d) as Hsb by apply strlen_take.
  rewrite Hsb. split; [reflexivity|].
  f_equal; [f_equal|].
  - unfold l. rewrite <- !app_assoc.
    rewrite take_app_length' by (rewrite length_le_split; reflexivity).
    rewrite le_combine_split. reflexivity.
  - rewrite <- Hln. apply take_app_length.
  - rewrite <- Hlp. apply take_app_length.
Qed.

(** What the walk finds of a record [publish] stored inside the region:
    the port, [eventName] and [data], and [skipEvent] passes the header
    and these two strings with their NULs, rounded up, whatever the
    request was. *)
Lemma publish_stored_stride q hostName port path body :
  region_ok q -> sizeof_RetainedBufHeader <= nextFree q -> nextFree q mod 4 = 0 ->
  nextFree q + Z.of_nat (length (storedBytes q port)) <= retainedBufferSize q ->
  fst (publish q hostName port path body) = true ->
  let q' := snd (publish q hostName port path body) in
  eventAt (retainedBuffer q') (nextFree q) = storedEvent q port /\
  skipEvent (retainedBuffer q') (nextFree q) - nextFree q
    = align4 (sizeof_EventData + (Z.of_nat (strlen (eventName q)) + 1)
              + (Z.of_nat (strlen (default [] (data q))) + 1)).
Proof.
  intros (Hlen & Hsize) Hcur Hal Hin Hok q'. subst q'.
  unfold sizeof_RetainedBufHeader in Hcur, Hsize.
  destruct (Z.le_gt_cases (eventSize hostName path body)
              (size_t (retainedBufferSize q - sizeof_RetainedBufHeader))) as [Hus|Hbig].
  2: { rewrite publish_oversized_eq in Hok by lia. discriminate Hok. }
  destruct (Z.le_gt_cases (eventSize hostName path body)
              (size_t (retainedBufferSize q - nextFree q))) as [Hroom|Hfull].
  2: { rewrite publish_full_eq in Hok by (try assumption; lia).
       destruct (numEvents q =? 1); discriminate Hok. }
  rewrite publish_room_eq by assumption.
  cbn [snd retainedBuffer with_nextFree with_buffer].
  unfold storedBytes, storedEvent in *.
  set (mem := retainedBuffer q) in *. set (nf := nextFree q) in *.
  set (E := retainedBufferSize q) in *.
  set (name := take (strlen (eventName q)) (eventName q)) in *.
  set (payload := take (strlen (default [] (data q))) (default [] (data q))) in *.
  set (rec := le_split 2 port ++ (name ++ [Byte.x00]) ++ (payload ++ [Byte.x00])) in *.
  destruct (header_split mem ltac:(lia))
    as (m & sz & nn & bd & Hmem & Hlm & Hlsz & Hlnn & _).
  assert (Z.of_nat (length bd) = E - 8) as Hbody
    by (rewrite <- Hlen, Hmem, !length_app; lia).
  set (k := Z.to_nat (nf - 8)).
  set (post := drop (k + length rec) bd).
  set (nn' := le_split 2 (uint16_t (le_combine nn + 1))).
  assert (length nn' = 2%nat) as Hlnn' by apply length_le_split.
  assert (storeEvent mem nf port (eventName q) (default [] (data q))
          = m ++ sz ++ nn' ++ take k bd ++ rec ++ post) as Hmem4.
  { rewrite Hmem. replace nf with (8 + Z.of_nat k) by lia.
    apply storeEvent_memory; try assumption. fold name payload rec. lia. }
  rewrite Hmem4.
  set (mem4 := m ++ sz ++ nn' ++ take k bd ++ rec ++ post).
  assert (length (take k bd) = k) as Hk by (rewrite length_take; lia).
  assert (chars_at mem4 nf
          = le_split 2 port ++ (name ++ [Byte.x00]) ++ (payload ++ [Byte.x00]) ++ post) as Hch.
  { replace nf with (8 + Z.of_nat k) by lia.
    unfold mem4. rewrite chars_at_body by assumption.
    rewrite drop_app_length' by (symmetry; exact Hk).
    unfold rec. rewrite <- !app_assoc. reflexivity. }
  destruct (parse_stored port (eventName q) (default [] (data q)) post) as [Hraw Hparse].
  fold name payload in Hraw, Hparse.
  split.
  - rewrite eventAt_chars by lia. rewrite Hch. exact Hparse.
  - rewrite skipEvent_chars by lia. rewrite Hch, Hraw.
    rewrite align4_add by assumption. unfold sizeof_EventData.
    replace (nf + align4 (Z.of_nat (2 + (strlen (eventName q) + 1)
                                    + (strlen (default [] (data q)) + 1))) - nf)
      with (align4 (Z.of_nat (2 + (strlen (eventName q) + 1)
                              + (strlen (default [] (data q)) + 1)))) by lia.
    f_equal. lia.
Qed.

(** ** The invariant *)

Lemma bounded_cursor q :
  bounded q ->
  hdr_magic (retainedBuffer q) = RETAINED_BUF_HEADER_MAGIC /\
  hdr_size (retainedBuffer q) = retainedBufferSize q /\
  sizeof_RetainedBufHeader <= nextFree q <= retainedBufferSize q.
Proof.
  intros (_ & Hm & Hs & _ & Hw & Hc).
  pose proof (walk_ge (retainedBuffer q) (Z.to_nat (numEvents q)) sizeof_RetainedBufHeader).
  unfold walked in Hw. repeat split; try assumption; lia.
Qed.

Lemma bounded_construct self buf size :
  Z.of_nat (length buf) = size -> sizeof_RetainedBufHeader <= size < 2 ^ 16 ->
  bounded (construct self buf size).
Proof.
  intros Hlen Hsize.
  destruct (header_valid buf size && negb (walk_overflows buf size)) eqn:Hcase.
  - apply andb_true_iff in Hcase as [Hv Ho]. apply negb_true_iff in Ho.
    rewrite construct_keep by (first [assumption | lia]).
    unfold header_valid in Hv. apply andb_true_iff in Hv as [Hv1 Hv2].
    apply Z.eqb_eq in Hv1, Hv2.
    unfold walk_overflows in Ho.
    assert (walk buf (Z.to_nat (hdr_numEvents buf)) sizeof_RetainedBufHeader <= size) as Hin
      by (destruct (Z.gtb_spec (walk buf (Z.to_nat (hdr_numEvents buf))
                                  sizeof_RetainedBufHeader) size); [discriminate | lia]).
    unfold bounded, region_ok, walked, numEvents.
    cbn [retainedBuffer retainedBufferSize nextFree].
    repeat split; try assumption; try lia.
    apply walk_aligned. reflexivity.
  - rewrite construct_reset by (first [assumption | lia]).
    unfold sizeof_RetainedBufHeader in Hsize.
    destruct (reset_header buf size ltac:(lia) ltac:(lia))
      as (Hmagic & Hsz & Hnum & Hl & _).
    unfold bounded, region_ok, walked, numEvents.
    cbn [retainedBuffer retainedBufferSize nextFree].
    rewrite Hnum, Hl. change (Z.to_nat 0) with O. cbn [walk].
    unfold sizeof_RetainedBufHeader.
    repeat split; try assumption; try lia.
Qed.

Lemma bounded_clearEvents q : bounded q -> bounded (snd (clearEvents q)).
Proof.
  intros Hb. unfold clearEvents.
  destruct (isSending q); cbn [negb snd]; [exact Hb|].
  destruct (bounded_cursor q Hb) as (_ & _ & Hcur).
  destruct Hb as ((Hlen & Hsize) & Hm & Hs & Hal & Hw & Hc).
  unfold sizeof_RetainedBufHeader in *.
  destruct (header_split (retainedBuffer q) ltac:(lia))
    as (m & sz & nn & body & Hmem & Hlm & Hlsz & Hlnn & _).
  unfold bounded, region_ok, walked, numEvents.
  cbn [retainedBuffer retainedBufferSize nextFree with_buffer].
  rewrite Hmem in *.
  rewrite set_hdr_numEvents_split by assumption.
  rewrite hdr_magic_split in Hm by assumption.
  rewrite hdr_size_split in Hs by assumption.
  rewrite hdr_magic_split, hdr_size_split, hdr_numEvents_split
    by (first [assumption | apply length_le_split]).
  rewrite le_combine_split. change (0 mod 2 ^ (Z.of_nat 2 * 8)) with 0.
  change (Z.to_nat 0) with O. cbn [walk].
  rewrite !length_app, length_le_split in *.
  unfold sizeof_RetainedBufHeader.
  repeat split; try assumption; lia.
Qed.

Lemma bounded_discardOldEvent (secondEvent : bool) q :
  bounded q -> bounded (snd (discardOldEvent secondEvent q)).
Proof.
  intros Hb.
  destruct (Z.lt_ge_cases (numEvents q) (if secondEvent then 2 else 1)) as [Hfew|Hn].
  { rewrite discardOldEvent_refused by assumption. exact Hb. }
  destruct Hb as (Hr & Hm & Hs & Hal & Hw & Hc).
  destruct (discardOldEvent_members secondEvent q) as (Hsz & _).
  pose proof (skipEvent_ge (retainedBuffer q) sizeof_RetainedBufHeader) as H1.
  pose proof (skipEvent_ge (retainedBuffer q)
                (skipEvent (retainedBuffer q) sizeof_RetainedBufHeader)) as H2.
  destruct secondEvent.
  - destruct (discard_second q Hr ltac:(lia) ltac:(lia))
      as (_ & Hr' & _ & _ & Hw' & Hnf & Hlen & _ & Hm' & Hs').
    unfold bounded. rewrite Hm', Hs', Hw', Hnf, Hsz.
    repeat split; try apply Hr'; try assumption; try lia.
    rewrite Zminus_mod, Hal, Hlen. reflexivity.
  - destruct (discard_first q Hr ltac:(lia) ltac:(lia))
      as (_ & Hr' & _ & _ & Hw' & Hnf & Hlen & Hm' & Hs').
    unfold bounded. rewrite Hm', Hs', Hw', Hnf, Hsz.
    repeat split; try apply Hr'; try assumption; try lia.
    rewrite Zminus_mod, Hal, Hlen. reflexivity.
Qed.

Lemma bounded_store q q0 port size :
  bounded q ->
  retainedBufferSize q0 = retainedBufferSize q ->
  Z.of_nat (length (storedBytes q port)) <= size ->
  size mod 4 = 0 ->
  size <= retainedBufferSize q - nextFree q ->
  bounded (with_nextFree
             (with_buffer q0 (storeEvent (retainedBuffer q) (nextFree q) port (eventName q)
                                         (default [] (data q))))
             (nextFree q + size)).
Proof.
  intros ((Hlen & Hsize) & Hm & Hs & Hal & Hw & Hc) Hq0 Hfit Hsz4 Hroom.
  unfold walked, numEvents, storedBytes in *.
  set (mem := retainedBuffer q) in *. set (nf := nextFree q) in *.
  set (E := retainedBufferSize q) in *.
  set (n := Z.to_nat (hdr_numEvents mem)) in *.
  unfold sizeof_RetainedBufHeader in *.
  pose proof (walk_ge mem n 8) as Hge.
  pose proof (walk_lower mem n 8) as Hlow.
  set (name := take (strlen (eventName q)) (eventName q)) in *.
  set (payload := take (strlen (default [] (data q))) (default [] (data q))) in *.
  set (rec := le_split 2 port ++ (name ++ [Byte.x00]) ++ (payload ++ [Byte.x00])) in *.
  assert (length rec = 2 + (length name + 1) + (length payload + 1))%nat as Hrec
    by (unfold rec; rewrite !length_app, length_le_split; cbn [length]; lia).
  destruct (header_split mem ltac:(lia))
    as (m & sz & nn & body & Hmem & Hlm & Hlsz & Hlnn & _).
  assert (Z.of_nat (length body) = E - 8) as Hbody
    by (rewrite <- Hlen, Hmem, !length_app; lia).
  assert (hdr_numEvents mem = le_combine nn) as Hnum
    by (rewrite Hmem; apply hdr_numEvents_split; assumption).
  pose proof (le_combine_u16 nn Hlnn) as Hnb.
  set (k := Z.to_nat (nf - 8)).
  set (post := drop (k + length rec) body).
  set (nn' := le_split 2 (uint16_t (le_combine nn + 1))).
  assert (length nn' = 2%nat) as Hlnn' by apply length_le_split.
  assert (storeEvent mem nf port (eventName q) (default [] (data q))
          = m ++ sz ++ nn' ++ take k body ++ rec ++ post) as Hmem4.
  { rewrite Hmem. replace nf with (8 + Z.of_nat k) by lia.
    apply storeEvent_memory; try assumption. fold name payload rec. lia. }
  unfold bounded, region_ok, walked, numEvents, sizeof_RetainedBufHeader.
  cbn [retainedBuffer retainedBufferSize nextFree with_nextFree with_buffer].
  rewrite Hmem4, Hq0. fold E.
  assert (length (take k body) = k) as Hk by (rewrite length_take; lia).
  rewrite hdr_magic_split, hdr_size_split, hdr_numEvents_split by assumption.
  rewrite Hmem, hdr_magic_split in Hm by assumption.
  rewrite Hmem, hdr_size_split in Hs by assumption.
  assert (le_combine nn' = le_combine nn + 1) as Hnum'.
  { unfold nn'. rewrite le_combine_split. change (Z.of_nat 2 * 8) with 16.
    unfold uint16_t. rewrite Z.mod_mod by lia. apply Z.mod_small. lia. }
  rewrite Hnum'.
  replace (Z.to_nat (le_combine nn + 1)) with (S n) by lia.
  rewrite walk_snoc.
  set (mem4 := m ++ sz ++ nn' ++ take k body ++ rec ++ post).
  assert (walk mem4 n 8 = walk mem n 8) as Hsame.
  { apply (walk_prefix mem mem4 (take k body) (drop k body) (rec ++ post)); try lia.
    - rewrite Hmem.
      pose proof (chars_at_body m sz nn body Hlm Hlsz Hlnn 0) as H0.
      change (8 + Z.of_nat 0) with 8 in H0. rewrite H0. cbn [drop].
      symmetry. apply take_drop.
    - pose proof (chars_at_body m sz nn' (take k body ++ rec ++ post) Hlm Hlsz Hlnn' 0) as H0.
      change (8 + Z.of_nat 0) with 8 in H0. exact H0. }
  rewrite Hsame. set (w := walk mem n 8) in *.
  assert (skipEvent mem4 w <= nf + size) as Hskip.
  { rewrite skipEvent_chars by lia.
    apply align4_le; [|rewrite Z.add_mod, Hal, Hsz4 by lia; reflexivity].
    assert (chars_at mem4 w
            = drop (Z.to_nat (w - 8)) (take k body)
              ++ le_split 2 port ++ (name ++ [Byte.x00]) ++ (payload ++ [Byte.x00]) ++ post)
      as ->.
    { replace w with (8 + Z.of_nat (Z.to_nat (w - 8))) at 1 by lia.
      unfold mem4. rewrite chars_at_body by assumption.
      rewrite drop_app_le by lia. unfold rec. rewrite <- !app_assoc. reflexivity. }
    pose proof (rawLen_into_event (drop (Z.to_nat (w - 8)) (take k body))
                  (le_split 2 port) name payload post (length_le_split _ _)) as Hraw.
    rewrite length_drop in Hraw. lia. }
  rewrite Hmem, !length_app in Hlen. unfold mem4 at 1. rewrite !length_app.
  unfold post. rewrite length_drop.
  repeat split; try assumption; try lia.
  rewrite Z.add_mod, Hal, Hsz4 by lia. reflexivity.
Qed.

Lemma bounded_data q :
  bounded q -> bounded (match data q with None => with_data q (Some []) | Some _ => q end).
Proof. intros H. destruct (data q); exact H. Qed.

Lemma bounded_publish q hostName port path body :
  bounded q ->
  Z.of_nat (length (storedBytes q port)) <= eventSize hostName path body ->
  bounded (snd (publish q hostName port path body)).
Proof.
  intros Hb Hfit.
  destruct (bounded_cursor q Hb) as (_ & _ & Hcur).
  pose proof Hb as ((Hlen & Hsize) & _).
  unfold sizeof_RetainedBufHeader in Hcur, Hsize.
  destruct (Z.le_gt_cases (eventSize hostName path body)
              (size_t (retainedBufferSize q - sizeof_RetainedBufHeader))) as [Hus|Hbig].
  2: { rewrite publish_oversized_eq by lia. apply bounded_data, Hb. }
  destruct (Z.le_gt_cases (eventSize hostName path body)
              (size_t (retainedBufferSize q - nextFree q))) as [Hroom|Hfull].
  2: { rewrite publish_full_eq by (try assumption; lia).
       destruct (numEvents q =? 1); cbn [snd].
       - apply bounded_data, Hb.
       - apply bounded_discardOldEvent, bounded_data, Hb. }
  rewrite publish_room_eq by assumption. cbn [snd].
  rewrite size_t_small in Hroom by lia.
  apply bounded_store; try assumption.
  - destruct (data q); reflexivity.
  - apply eventSize_aligned.
Qed.

Lemma bounded_stateStep q t : bounded q -> bounded (stateStep q t).
Proof.
  intros Hb. unfold stateStep.
  destruct (stateHandler q).
  - exact Hb.
  - unfold checkQueueState. destruct (canPublish q t); [|exact Hb].
    destruct ((responseStatus t >=? 200) && (responseStatus t <? 300)).
    + exact (bounded_discardOldEvent false (with_isSending q true) Hb).
    + exact Hb.
  - unfold waitRetryState.
    destruct (uint32_t (millis0 t - lastPublish q) >=? failureRetryMs q); exact Hb.
Qed.

Lemma bounded_call q c : bounded q -> fits q c -> bounded (call q c).
Proof.
  intros Hb Hf. destruct c as [hostName port path body | | secondEvent | t]; cbn [call].
  - apply bounded_publish; assumption.
  - apply bounded_clearEvents, Hb.
  - apply bounded_discardOldEvent, Hb.
  - apply bounded_stateStep, Hb.
Qed.

(** No call changes what [publish] will store. *)
Lemma publish_members q hostName port path body :
  eventName (snd (publish q hostName port path body)) = eventName q /\
  default [] (data (snd (publish q hostName port path body))) = default [] (data q).
Proof.
  unfold publish.
  set (q0 := match data q with None => with_data q (Some []) | Some _ => q end).
  assert (eventName q0 = eventName q /\ default [] (data q0) = default [] (data q)) as [He Hd]
    by (unfold q0; destruct (data q) eqn:Hdq; cbn [eventName data with_data];
        rewrite ?Hdq; split; reflexivity).
  destruct (discardOldEvent_members (isSending q0) q0) as (_ & _ & _ & _ & _ & He' & Hd').
  destruct (eventSize hostName path body >?
            size_t (retainedBufferSize q0 - sizeof_RetainedBufHeader)); [split; assumption|].
  destruct (size_t (retainedBufferSize q0 - nextFree q0) >=? eventSize hostName path body);
    [split; assumption|].
  destruct (hdr_numEvents (retainedBuffer q0) =? 1); [split; assumption|].
  cbn [snd]. rewrite He', Hd'. split; assumption.
Qed.

Lemma call_members q c :
  eventName (call q c) = eventName q /\
  default [] (data (call q c)) = default [] (data q).
Proof.
  destruct c as [hostName port path body | | secondEvent | t]; cbn [call].
  - apply publish_members.
  - unfold clearEvents. destruct (isSending q); split; reflexivity.
  - destruct (discardOldEvent_members secondEvent q) as (_ & _ & _ & _ & _ & He & Hd).
    rewrite He, Hd. split; reflexivity.
  - unfold stateStep, startState, checkQueueState, waitRetryState.
    destruct (stateHandler q); [split; reflexivity | |].
    + destruct (canPublish q t); [|split; reflexivity].
      destruct ((responseStatus t >=? 200) && (responseStatus t <? 300));
        [|split; reflexivity].
      destruct (discardOldEvent_members false (with_isSending q true))
        as (_ & _ & _ & _ & _ & He & Hd).
      split; [exact He | exact (f_equal (default []) Hd)].
    + destruct (uint32_t (millis0 t - lastPublish q) >=? failureRetryMs q);
        split; reflexivity.
Qed.

Lemma fits_call q c c' : fits q c' -> fits (call q c) c'.
Proof.
  destruct c' as [hostName port path body | | |]; cbn [fits]; try exact id.
  unfold storedBytes. destruct (call_members q c) as [-> ->]. exact id.
Qed.

(** From a well-formed start, and as long as what [publish] stores fits
    the size it computes, every sequence of calls leaves the header valid
    and the cursor between the end of the header and the end of the
    region. *)
Lemma bounded_calls (cs : list Call) q :
  bounded q -> Forall (fits q) cs -> bounded (calls q cs).
Proof.
  revert q. induction cs as [|c cs IH]; intros q Hb Hf; [exact Hb|].
  unfold calls. cbn [fold_left]. inversion Hf as [|? ? Hc Hcs]; subst.
  apply IH.
  - apply bounded_call; assumption.
  - eapply Forall_impl; [exact Hcs|]. intros c'. apply fits_call.
Qed.



(** What [publish] stores fits the size it computes whenever
    [eventName] and [data] are no longer than the host name and the body
    of the request: when they are empty, for one, or when they are the
    host name and the body themselves. *)
Lemma fits_short_members q hostName port path body :
  (strlen (eventName q) <= strlen hostName)%nat ->
  (strlen (default [] (data q)) <= strlen body)%nat ->
  Z.of_nat (strlen hostName) + Z.of_nat (strlen path) + Z.of_nat (strlen body) + 8 < 2 ^ 32 ->
  fits q (Publish hostName port path body).
Proof.
  intros He Hd Hsmall. cbn [fits]. unfold storedBytes.
  rewrite !length_app, length_le_split, !length_take_strlen. cbn [length].
  rewrite eventSize_spec by (unfold sizeof_EventData; lia).
  pose proof (align4_spec (sizeof_EventData + Z.of_nat (strlen hostName)
                           + Z.of_nat (strlen path) + Z.of_nat (strlen body) + 3)) as [[H _] _].
  unfold sizeof_EventData in *. lia.
Qed.



(** * Further properties of the code *)

(** ** skipEvent and the size of an event *)

(** X1. [skipEvent] always moves forward, by at least four bytes, and
    always returns a multiple of four, whatever the region holds and
    wherever it starts. *)
Theorem skipEvent_progress (mem : list byte) (start : Z) :
  start + 4 <= skipEvent mem start /\ skipEvent mem start mod 4 = 0.
Proof. split; [apply skipEvent_ge | apply skipEvent_aligned]. Qed.

(** X2. Without wrap-around of the 32-bit sum, the size [publish]
    computes is the least multiple of four that is not below the header
    and the three strings with their NULs; it is at least 8. *)
Theorem eventSize_least_multiple (hostName path body : list byte) :
  let raw := sizeof_EventData + (Z.of_nat (strlen hostName) + 1)
             + (Z.of_nat (strlen path) + 1) + (Z.of_nat (strlen body) + 1) in
  raw + 3 < 2 ^ 32 ->
  eventSize hostName path body mod 4 = 0 /\
  raw <= eventSize hostName path body < raw + 4 /\
  8 <= eventSize hostName path body.
Proof.
  intros raw Hraw. split; [apply eventSize_aligned|].
  assert (eventSize hostName path body = align4 raw) as ->.
  { rewrite eventSize_spec by (unfold raw, sizeof_EventData in *; lia).
    f_equal. unfold raw. lia. }
  destruct (align4_spec raw) as [Hb Hm]. split; [exact Hb|].
  assert (5 <= raw) by (unfold raw, sizeof_EventData; lia).
  pose proof (Z.div_mod (align4 raw) 4 ltac:(lia)) as Hd. rewrite Hm in Hd. lia.
Qed.

Lemma eventSize_least_multiple_witness :
  let raw := sizeof_EventData + (Z.of_nat (strlen (cstr "host1")) + 1)
             + (Z.of_nat (strlen (cstr "/a")) + 1) + (Z.of_nat (strlen (cstr "b")) + 1) in
  raw + 3 < 2 ^ 32 /\
  raw = 13 /\ eventSize (cstr "host1") (cstr "/a") (cstr "b") = 16 /\
  eventSize (cstr "host1") (cstr "/a") (cstr "b") mod 4 = 0 /\
  raw <= eventSize (cstr "host1") (cstr "/a") (cstr "b") < raw + 4 /\
  8 <= eventSize (cstr "host1") (cstr "/a") (cstr "b").
Proof.
  intros raw.
  assert (raw + 3 < 2 ^ 32) as H by by_compute.
  split; [exact H|]. split; [by_compute|]. split; [by_compute|].
  exact (eventSize_least_multiple (cstr "host1") (cstr "/a") (cstr "b") H).
Defined.

(** ** Stores leave the bytes before them alone *)

Lemma store_bytes_length (mem : list byte) (p : Z) (bs : list byte) :
  length (store_bytes mem p bs) = length mem.
Proof.
  unfold store_bytes.
  rewrite !length_app, !length_take, !length_drop. lia.
Qed.

Lemma store_bytes_take (mem : list byte) (p : Z) (bs : list byte) (k : nat) :
  Z.of_nat k <= p -> take k (store_bytes mem p bs) = take k mem.
Proof.
  intros Hk. apply list_eq. intros i.
  rewrite !lookup_take.
  destruct (decide (i < k)%nat) as [Hi|]; [|reflexivity].
  destruct (decide (i < length mem)%nat) as [Hin|Hout].
  - rewrite store_bytes_lookup by assumption.
    destruct (decide (p <= Z.of_nat i < p + Z.of_nat (length bs))); [lia | reflexivity].
  - rewrite !(proj2 (lookup_ge_None _ _)); [reflexivity | lia |].
    rewrite store_bytes_length. lia.
Qed.

Lemma take_take_le (l : list byte) (a b : nat) :
  (a <= b)%nat -> take a l = take a (take b l).
Proof. intros H. rewrite take_take. f_equal. lia. Qed.

(** The header fields are read from the first eight bytes. *)
Lemma header_frame (mem mem' : list byte) :
  8 <= Z.of_nat (length mem) -> length mem' = length mem ->
  (take 6 mem' = take 6 mem ->
   hdr_magic mem' = hdr_magic mem /\ hdr_size mem' = hdr_size mem) /\
  (take 8 mem' = take 8 mem -> hdr_numEvents mem' = hdr_numEvents mem).
Proof.
  intros Hlen Hlen'.
  destruct (header_split mem Hlen) as (m & sz & nn & body & Hmem & Hm & Hsz & Hnn & _).
  destruct (header_split mem' ltac:(lia))
    as (m' & sz' & nn' & body' & Hmem' & Hm' & Hsz' & Hnn' & _).
  rewrite Hmem, Hmem'.
  rewrite !hdr_magic_split, !hdr_size_split, !hdr_numEvents_split by assumption.
  split.
  - intros H6.
    rewrite (app_assoc m' sz'), (app_assoc m sz) in H6.
    rewrite !take_app_length' in H6 by (rewrite length_app; lia).
    apply app_inj_1 in H6 as [-> ->]; [split; reflexivity | lia].
  - intros H8.
    rewrite (app_assoc sz' nn'), (app_assoc sz nn) in H8.
    rewrite (app_assoc m' (sz' ++ nn')), (app_assoc m (sz ++ nn)) in H8.
    rewrite !take_app_length' in H8 by (rewrite !length_app; lia).
    apply app_inj_1 in H8 as [_ H8]; [|lia].
    apply app_inj_1 in H8 as [_ ->]; [reflexivity | lia].
Qed.

Lemma set_hdr_numEvents_fields (mem : list byte) (v : Z) :
  8 <= Z.of_nat (length mem) ->
  hdr_numEvents (set_hdr_numEvents mem v) = uint16_t v /\
  hdr_magic (set_hdr_numEvents mem v) = hdr_magic mem /\
  hdr_size (set_hdr_numEvents mem v) = hdr_size mem /\
  length (set_hdr_numEvents mem v) = length mem.
Proof.
  intros Hlen.
  destruct (header_split mem Hlen) as (m & sz & nn & body & Hmem & Hm & Hsz & Hnn & _).
  rewrite Hmem. rewrite set_hdr_numEvents_split by assumption.
  rewrite !hdr_magic_split, !hdr_size_split, hdr_numEvents_split
    by (first [assumption | apply length_le_split]).
  rewrite le_combine_split, !length_app, length_le_split.
  repeat split. lia.
Qed.

(** What [discardOldEvent] does to the header of any region. *)
Lemma removeAt_header (mem : list byte) (end_ start : Z) :
  8 <= Z.of_nat (length mem) -> 8 <= start ->
  hdr_numEvents (removeAt mem end_ start) = uint16_t (hdr_numEvents mem - 1) /\
  hdr_magic (removeAt mem end_ start) = hdr_magic mem /\
  hdr_size (removeAt mem end_ start) = hdr_size mem /\
  length (removeAt mem end_ start) = length mem.
Proof.
  intros Hlen Hstart. unfold removeAt.
  set (next := skipEvent mem start). set (after := size_t (end_ - next)).
  set (mem1 := if after >? 0 then memmove mem start next after else mem).
  assert (length mem1 = length mem /\ take 8 mem1 = take 8 mem) as [Hl1 Ht1].
  { unfold mem1. destruct (after >? 0); [|split; reflexivity].
    unfold memmove. split; [apply store_bytes_length|].
    apply store_bytes_take. lia. }
  destruct (header_frame mem mem1 Hlen Hl1) as [H6 H8].
  destruct H6 as [Hm Hs].
  { rewrite (take_take_le mem1 6 8), (take_take_le mem 6 8) by lia. rewrite Ht1. reflexivity. }
  specialize (H8 Ht1).
  destruct (set_hdr_numEvents_fields mem1 (uint16_t (hdr_numEvents mem1 - 1)) ltac:(lia))
    as (Hn' & Hm' & Hs' & Hl').
  rewrite Hn', Hm', Hs', Hl', H8, Hm, Hs, Hl1.
  repeat split. unfold uint16_t. apply Z.mod_mod. lia.
Qed.

(** What a stored event does to the header when it is stored behind it. *)
Lemma storeEvent_header (mem : list byte) (nf port : Z) (e d : list byte) :
  8 <= Z.of_nat (length mem) -> 8 <= nf ->
  hdr_numEvents (storeEvent mem nf port e d) = uint16_t (hdr_numEvents mem + 1) /\
  hdr_magic (storeEvent mem nf port e d) = hdr_magic mem /\
  hdr_size (storeEvent mem nf port e d) = hdr_size mem /\
  length (storeEvent mem nf port e d) = length mem.
Proof.
  intros Hlen Hnf. unfold storeEvent, store_u16, strcpy, sizeof_EventData.
  set (mem1 := store_bytes mem nf (le_split 2 port)).
  set (mem2 := store_bytes mem1 (nf + 2) (take (strlen e) e ++ [Byte.x00])).
  pose proof (strlen_at_nonneg mem2 (nf + 2)) as Hs0.
  set (cp := nf + 2 + (strlen_at mem2 (nf + 2) + 1)) in *.
  set (mem3 := store_bytes mem2 cp (take (strlen d) d ++ [Byte.x00])).
  assert (length mem3 = length mem) as Hl3
    by (unfold mem3, mem2, mem1; rewrite !store_bytes_length; reflexivity).
  assert (take 8 mem3 = take 8 mem) as Ht3.
  { unfold mem3, mem2, mem1. rewrite !store_bytes_take by (unfold cp; lia). reflexivity. }
  destruct (header_frame mem mem3 Hlen Hl3) as [H6 H8].
  destruct H6 as [Hm Hs].
  { rewrite (take_take_le mem3 6 8), (take_take_le mem 6 8) by lia. rewrite Ht3. reflexivity. }
  specialize (H8 Ht3).
  destruct (set_hdr_numEvents_fields mem3 (uint16_t (hdr_numEvents mem3 + 1)) ltac:(lia))
    as (Hn' & Hm' & Hs' & Hl').
  rewrite Hn', Hm', Hs', Hl', H8, Hm, Hs, Hl3.
  repeat split. unfold uint16_t. apply Z.mod_mod. lia.
Qed.

Lemma numEvents_range (mem : list byte) :
  8 <= Z.of_nat (length mem) -> 0 <= hdr_numEvents mem < 2 ^ 16.
Proof.
  intros Hlen.
  destruct (header_split mem Hlen) as (m & sz & nn & body & Hmem & Hm & Hsz & Hnn & _).
  rewrite Hmem, hdr_numEvents_split by assumption. apply le_combine_u16. assumption.
Qed.

(** ** discardOldEvent: when it removes an event *)

(** X3. On a region whose counted events end inside it, whatever the
    cursor, [discardOldEvent] returns [true] exactly when there are
    enough events (one, or two for the second event); it then takes one
    off the event count and leaves the header's magic and size alone.
    When it returns [false] the object is unchanged. *)
Theorem discardOldEvent_count (secondEvent : bool) q :
  region_ok q -> walked q <= retainedBufferSize q ->
  let r := discardOldEvent secondEvent q in
  if fst r
  then (if secondEvent then 2 else 1) <= numEvents q /\
       numEvents (snd r) = numEvents q - 1 /\
       hdr_magic (retainedBuffer (snd r)) = hdr_magic (retainedBuffer q) /\
       hdr_size (retainedBuffer (snd r)) = hdr_size (retainedBuffer q) /\
       length (retainedBuffer (snd r)) = length (retainedBuffer q)
  else numEvents q < (if secondEvent then 2 else 1) /\ snd r = q.
Proof.
  intros (Hlen0 & Hsize) _ r. subst r.
  assert (8 <= Z.of_nat (length (retainedBuffer q))) as Hlen
    by (unfold sizeof_RetainedBufHeader in Hsize; lia).
  destruct (Z.lt_ge_cases (numEvents q) (if secondEvent then 2 else 1)) as [Hfew|Hn].
  - rewrite discardOldEvent_refused by assumption. cbn [fst snd]. split; [assumption | reflexivity].
  - rewrite (discardOldEvent_eq secondEvent q Hn).
    cbn [fst snd retainedBuffer with_nextFree with_buffer]. unfold numEvents in *.
    cbn [retainedBuffer with_nextFree with_buffer].
    pose proof (numEvents_range (retainedBuffer q) Hlen) as Hr.
    pose proof (skipEvent_ge (retainedBuffer q) sizeof_RetainedBufHeader) as Hge.
    set (start := if secondEvent then skipEvent (retainedBuffer q) sizeof_RetainedBufHeader
                  else sizeof_RetainedBufHeader).
    assert (8 <= start) as Hstart
      by (unfold start, sizeof_RetainedBufHeader in *; destruct secondEvent; lia).
    destruct (removeAt_header (retainedBuffer q) (retainedBufferSize q) start Hlen Hstart)
      as (Hn' & Hm & Hs & Hl).
    rewrite Hn', Hm, Hs, Hl. repeat split; try lia.
    apply uint16_t_small. destruct secondEvent; lia.
Qed.

Lemma discardOldEvent_count_witness :
  (region_ok sample_one /\ walked sample_one <= retainedBufferSize sample_one) /\
  numEvents sample_one = 1 /\
  fst (discardOldEvent true sample_one) = false /\
  fst (discardOldEvent false sample_one) = true /\
  let r := discardOldEvent false sample_one in
  if fst r
  then 1 <= numEvents sample_one /\
       numEvents (snd r) = numEvents sample_one - 1 /\
       hdr_magic (retainedBuffer (snd r)) = hdr_magic (retainedBuffer sample_one) /\
       hdr_size (retainedBuffer (snd r)) = hdr_size (retainedBuffer sample_one) /\
       length (retainedBuffer (snd r)) = length (retainedBuffer sample_one)
  else numEvents sample_one < 1 /\ snd r = sample_one.
Proof.
  assert (region_ok sample_one) as H1 by by_compute.
  assert (walked sample_one <= retainedBufferSize sample_one) as H2 by by_compute.
  split; [exact (conj H1 H2)|].
  split; [by_compute|]. split; [by_compute|]. split; [by_compute|].
  exact (discardOldEvent_count false sample_one H1 H2).
Defined.

Lemma discardOldEvent_shrinks (secondEvent : bool) q :
  8 <= Z.of_nat (length (retainedBuffer q)) ->
  let q' := snd (discardOldEvent secondEvent q) in
  numEvents q' <= numEvents q /\ nextFree q' <= nextFree q /\
  hdr_magic (retainedBuffer q') = hdr_magic (retainedBuffer q) /\
  hdr_size (retainedBuffer q') = hdr_size (retainedBuffer q) /\
  length (retainedBuffer q') = length (retainedBuffer q).
Proof.
  intros Hlen q'. subst q'.
  destruct (Z.lt_ge_cases (numEvents q) (if secondEvent then 2 else 1)) as [Hfew|Hn].
  - rewrite discardOldEvent_refused by assumption. cbn [snd]. repeat split; lia.
  - rewrite (discardOldEvent_eq secondEvent q Hn).
    unfold numEvents in *. cbn [snd retainedBuffer nextFree with_nextFree with_buffer].
    pose proof (numEvents_range (retainedBuffer q) Hlen) as Hr.
    pose proof (skipEvent_ge (retainedBuffer q) sizeof_RetainedBufHeader) as Hge.
    set (start := if secondEvent then skipEvent (retainedBuffer q) sizeof_RetainedBufHeader
                  else sizeof_RetainedBufHeader).
    assert (8 <= start) as Hstart
      by (unfold start, sizeof_RetainedBufHeader in *; destruct secondEvent; lia).
    destruct (removeAt_header (retainedBuffer q) (retainedBufferSize q) start Hlen Hstart)
      as (Hn' & Hm & Hs & Hl).
    rewrite Hn', Hm, Hs, Hl.
    assert (0 <= size_t (skipEvent (retainedBuffer q) start - start))
      by (unfold size_t; apply Z.mod_pos_bound; lia).
    rewrite uint16_t_small by (destruct secondEvent; lia).
    repeat split; lia.
Qed.

Lemma data_default_fields q :
  let q0 := match data q with None => with_data q (Some []) | Some _ => q end in
  retainedBuffer q0 = retainedBuffer q /\ nextFree q0 = nextFree q /\
  retainedBufferSize q0 = retainedBufferSize q /\ isSending q0 = isSending q.
Proof. destruct (data q); repeat split. Qed.

(** ** publish: when it accepts a request *)

(** X4. On a region whose counted events end inside it, with the cursor
    between the header and the end of the region, and for a request for
    which what is stored fits the computed size: [publish] returns
    [true] exactly when the computed size fits behind the cursor.  It
    then advances the cursor by that size and adds one to the event
    count; when it returns [false] the cursor has not advanced and the
    event count has not grown. *)
Theorem publish_accepts_iff_room q hostName port path body :
  region_ok q -> walked q <= retainedBufferSize q ->
  sizeof_RetainedBufHeader <= nextFree q <= retainedBufferSize q ->
  fits q (Publish hostName port path body) ->
  let r := publish q hostName port path body in
  let size := eventSize hostName path body in
  if fst r
  then size <= retainedBufferSize q - nextFree q /\
       nextFree (snd r) = nextFree q + size /\
       numEvents (snd r) = uint16_t (numEvents q + 1)
  else retainedBufferSize q - nextFree q < size /\
       nextFree (snd r) <= nextFree q /\
       numEvents (snd r) <= numEvents q.
Proof.
  intros (Hlen0 & Hsize) _ Hcur _ r size. subst r. fold size.
  unfold sizeof_RetainedBufHeader in Hcur, Hsize.
  assert (8 <= Z.of_nat (length (retainedBuffer q))) as Hlen by lia.
  assert (retainedBufferSize q < 2 ^ 16) as Hsz by lia.
  assert (size_t (retainedBufferSize q - sizeof_RetainedBufHeader)
          = retainedBufferSize q - 8) as Hus
    by (apply size_t_small; unfold sizeof_RetainedBufHeader; lia).
  assert (size_t (retainedBufferSize q - nextFree q) = retainedBufferSize q - nextFree q)
    as Hfree by (apply size_t_small; lia).
  destruct (data_default_fields q) as (Hb0 & Hn0 & Hs0 & _).
  destruct (Z.le_gt_cases size (retainedBufferSize q - nextFree q)) as [Hroom|Hfull].
  - rewrite publish_room_eq by (fold size; lia).
    cbn [fst snd nextFree retainedBuffer with_nextFree with_buffer]. unfold numEvents.
    cbn [retainedBuffer with_nextFree with_buffer].
    destruct (storeEvent_header (retainedBuffer q) (nextFree q) port (eventName q)
                (default [] (data q)) Hlen ltac:(lia)) as (Hn' & _).
    rewrite Hn'. repeat split; assumption.
  - destruct (Z.le_gt_cases size (retainedBufferSize q - 8)) as [Hfit|Hbig].
    + rewrite publish_full_eq by (fold size; lia).
      destruct (numEvents q =? 1); cbn [fst snd].
      * unfold numEvents. rewrite Hb0, Hn0. repeat split; lia.
      * set (q0 := match data q with None => with_data q (Some []) | Some _ => q end) in *.
        destruct (discardOldEvent_shrinks (isSending q) q0 ltac:(rewrite Hb0; exact Hlen))
          as (Hn' & Hc' & _).
        unfold numEvents in *. rewrite Hb0 in Hn'. rewrite Hn0 in Hc'.
        repeat split; assumption.
    + rewrite publish_oversized_eq by (fold size; lia). cbn [fst snd].
      unfold numEvents. rewrite Hb0, Hn0. repeat split; lia.
Qed.

Lemma publish_accepts_iff_room_witness :
  (region_ok sample_two /\ walked sample_two <= retainedBufferSize sample_two /\
   sizeof_RetainedBufHeader <= nextFree sample_two <= retainedBufferSize sample_two /\
   fits sample_two (Publish (cstr "h") 82 (cstr "") (cstr "b"))) /\
  retainedBufferSize sample_two - nextFree sample_two = 8 /\
  fst (publish sample_two (cstr "h") 82 (cstr "") (cstr "b")) = true /\
  fst (publish sample_two (cstr "h") 82 (cstr "a") (cstr "bcde")) = false /\
  let r := publish sample_two (cstr "h") 82 (cstr "") (cstr "b") in
  let size := eventSize (cstr "h") (cstr "") (cstr "b") in
  if fst r
  then size <= retainedBufferSize sample_two - nextFree sample_two /\
       nextFree (snd r) = nextFree sample_two + size /\
       numEvents (snd r) = uint16_t (numEvents sample_two + 1)
  else retainedBufferSize sample_two - nextFree sample_two < size /\
       nextFree (snd r) <= nextFree sample_two /\
       numEvents (snd r) <= numEvents sample_two.
Proof.
  assert (region_ok sample_two) as H1 by by_compute.
  assert (walked sample_two <= retainedBufferSize sample_two) as H2 by by_compute.
  assert (sizeof_RetainedBufHeader <= nextFree sample_two <= retainedBufferSize sample_two)
    as H3 by by_compute.
  assert (fits sample_two (Publish (cstr "h") 82 (cstr "") (cstr "b"))) as H4 by by_compute.
  split; [exact (conj H1 (conj H2 (conj H3 H4)))|].
  split; [by_compute|]. split; [by_compute|]. split; [by_compute|].
  exact (publish_accepts_iff_room sample_two (cstr "h") 82 (cstr "") (cstr "b")
           H1 H2 H3 H4).
Defined.

(** ** The header under every call *)

Lemma publish_header q hostName port path body :
  8 <= Z.of_nat (length (retainedBuffer q)) ->
  sizeof_RetainedBufHeader <= nextFree q ->
  let q' := snd (publish q hostName port path body) in
  hdr_magic (retainedBuffer q') = hdr_magic (retainedBuffer q) /\
  hdr_size (retainedBuffer q') = hdr_size (retainedBuffer q) /\
  length (retainedBuffer q') = length (retainedBuffer q).
Proof.
  intros Hlen Hcur q'. subst q'. unfold sizeof_RetainedBufHeader in Hcur.
  destruct (data_default_fields q) as (Hb0 & Hn0 & Hs0 & _).
  destruct (Z.le_gt_cases (eventSize hostName path body)
              (size_t (retainedBufferSize q - sizeof_RetainedBufHeader))) as [Hus|Hbig].
  2: { rewrite publish_oversized_eq by lia. cbn [snd]. rewrite Hb0. repeat split. }
  destruct (Z.le_gt_cases (eventSize hostName path body)
              (size_t (retainedBufferSize q - nextFree q))) as [Hroom|Hfull].
  - rewrite publish_room_eq by assumption.
    cbn [snd retainedBuffer with_nextFree with_buffer].
    destruct (storeEvent_header (retainedBuffer q) (nextFree q) port (eventName q)
                (default [] (data q)) Hlen ltac:(lia)) as (_ & Hm & Hs & Hl).
    repeat split; assumption.
  - rewrite publish_full_eq by (try assumption; lia).
    destruct (numEvents q =? 1); cbn [snd].
    + rewrite Hb0. repeat split.
    + set (q0 := match data q with None => with_data q (Some []) | Some _ => q end) in *.
      destruct (discardOldEvent_shrinks (isSending q) q0 ltac:(rewrite Hb0; exact Hlen))
        as (_ & _ & Hm & Hs & Hl).
      rewrite Hb0 in Hm, Hs, Hl. repeat split; assumption.
Qed.

(** X5. On a region whose counted events end inside it, with the cursor
    between the header and the end of the region, no call - not
    [publish] of a request for which what is stored fits the computed
    size, [clearEvents], [discardOldEvent] or a turn of the drain loop -
    changes the header's magic or size or the length of the region,
    whatever magic and size the header holds. *)
Theorem header_kept_by_every_call q (c : Call) :
  region_ok q -> walked q <= retainedBufferSize q ->
  sizeof_RetainedBufHeader <= nextFree q <= retainedBufferSize q ->
  fits q c ->
  hdr_magic (retainedBuffer (call q c)) = hdr_magic (retainedBuffer q) /\
  hdr_size (retainedBuffer (call q c)) = hdr_size (retainedBuffer q) /\
  length (retainedBuffer (call q c)) = length (retainedBuffer q).
Proof.
  intros (Hlen0 & Hsize) _ (Hcur & _) _.
  assert (8 <= Z.of_nat (length (retainedBuffer q))) as Hlen
    by (unfold sizeof_RetainedBufHeader in Hsize; lia).
  destruct c as [hostName port path body | | secondEvent | t]; cbn [call].
  - apply publish_header; assumption.
  - unfold clearEvents. destruct (isSending q); cbn [negb snd]; [repeat split|].
    cbn [retainedBuffer with_buffer].
    destruct (set_hdr_numEvents_fields (retainedBuffer q) 0 Hlen) as (_ & Hm & Hs & Hl).
    repeat split; assumption.
  - destruct (discardOldEvent_shrinks secondEvent q Hlen) as (_ & _ & Hm & Hs & Hl).
    repeat split; assumption.
  - unfold stateStep, startState, checkQueueState, waitRetryState.
    destruct (stateHandler q); [repeat split | |].
    + destruct (canPublish q t); [|repeat split].
      destruct ((responseStatus t >=? 200) && (responseStatus t <? 300)); [|repeat split].
      destruct (discardOldEvent_shrinks false (with_isSending q true) Hlen)
        as (_ & _ & Hm & Hs & Hl).
      repeat split; assumption.
    + destruct (uint32_t (millis0 t - lastPublish q) >=? failureRetryMs q); repeat split.
Qed.

Lemma header_kept_by_every_call_witness :
  (region_ok sample_two /\ walked sample_two <= retainedBufferSize sample_two /\
   sizeof_RetainedBufHeader <= nextFree sample_two <= retainedBufferSize sample_two /\
   fits sample_two (Publish (cstr "h") 82 (cstr "a") (cstr "bcde"))) /\
  let c := Publish (cstr "h") 82 (cstr "a") (cstr "bcde") in
  hdr_magic (retainedBuffer (call sample_two c)) = hdr_magic (retainedBuffer sample_two) /\
  hdr_size (retainedBuffer (call sample_two c)) = hdr_size (retainedBuffer sample_two) /\
  length (retainedBuffer (call sample_two c)) = length (retainedBuffer sample_two).
Proof.
  assert (region_ok sample_two) as H1 by by_compute.
  assert (walked sample_two <= retainedBufferSize sample_two) as H2 by by_compute.
  assert (sizeof_RetainedBufHeader <= nextFree sample_two <= retainedBufferSize sample_two)
    as H3 by by_compute.
  assert (fits sample_two (Publish (cstr "h") 82 (cstr "a") (cstr "bcde"))) as H4
    by by_compute.
  split; [exact (conj H1 (conj H2 (conj H3 H4)))|].
  exact (header_kept_by_every_call sample_two
           (Publish (cstr "h") 82 (cstr "a") (cstr "bcde")) H1 H2 H3 H4).
Defined.

(** ** Removing events one after the other *)

Lemma discardFirst_consistent (k : nat) q :
  consistent q -> Z.of_nat k <= numEvents q ->
  consistent (discardFirst k q) /\
  storedEvents (discardFirst k q) = drop k (storedEvents q) /\
  numEvents (discardFirst k q) = numEvents q - Z.of_nat k.
Proof.
  intros Hc. induction k as [|k IH]; intros Hk.
  - change (discardFirst 0 q) with q. cbn [drop].
    split; [exact Hc|]. split; [reflexivity | lia].
  - destruct (IH ltac:(lia)) as (Hck & Hek & Hnk).
    change (discardFirst (S k) q) with (snd (discardOldEvent false (discardFirst k q))).
    set (qk := discardFirst k q) in *.
    assert (1 <= numEvents qk) as H1 by lia.
    pose proof (discard_consistent false qk Hck H1) as Hc'.
    destruct Hck as (Hr & Hw & Hcur).
    destruct (discard_first qk Hr ltac:(lia) ltac:(lia)) as (_ & _ & Hn' & He' & _).
    split; [exact Hc'|]. split.
    + rewrite He', Hek, drop_drop. f_equal. lia.
    + lia.
Qed.

Lemma storedEvents_front q :
  1 <= numEvents q ->
  storedEvents q !! O = Some (frontEvent (retainedBuffer q)).
Proof.
  intros Hn. unfold storedEvents.
  destruct (Z.to_nat (numEvents q)) as [|n] eqn:En; [lia|]. reflexivity.
Qed.

Lemma consistent_empty q : consistent q -> numEvents q = 0 -> nextFree q = sizeof_RetainedBufHeader.
Proof.
  intros (_ & Hw & _) Hn. unfold walked in Hw. rewrite Hn in Hw. symmetry. exact Hw.
Qed.

(** X6. On a well-formed log, calling [discardOldEvent(false)] [k]
    times removes the first [k] events and keeps the others in order, so
    that the event then read at the front is the one that was stored at
    position [k]; the log stays well formed, and once all events are
    removed the cursor is back at the end of the header. *)
Theorem discardOldEvent_is_fifo (k : nat) q :
  consistent q -> Z.of_nat k <= numEvents q ->
  let q' := discardFirst k q in
  consistent q' /\
  storedEvents q' = drop k (storedEvents q) /\
  numEvents q' = numEvents q - Z.of_nat k /\
  (if Z.of_nat k <? numEvents q
   then storedEvents q !! k = Some (frontEvent (retainedBuffer q'))
   else storedEvents q' = [] /\ nextFree q' = sizeof_RetainedBufHeader).
Proof.
  intros Hc Hk q'.
  destruct (discardFirst_consistent k q Hc Hk) as (Hc' & He' & Hn').
  fold q' in Hc', He', Hn'.
  split; [exact Hc'|]. split; [exact He'|]. split; [exact Hn'|].
  destruct (Z.ltb_spec (Z.of_nat k) (numEvents q)) as [Hlt|Hge].
  - pose proof (storedEvents_front q' ltac:(lia)) as Hf.
    rewrite He', lookup_drop, Nat.add_0_r in Hf. exact Hf.
  - assert (numEvents q' = 0) as H0 by lia. split.
    + unfold storedEvents. rewrite H0. reflexivity.
    + apply consistent_empty; assumption.
Qed.

Lemma discardOldEvent_is_fifo_witness :
  (consistent sample_three /\ Z.of_nat 2 <= numEvents sample_three) /\
  storedEvents sample_three
    = [(80, cstr "h", cstr "b"); (81, cstr "h", cstr "b"); (82, cstr "h", cstr "b")] /\
  frontEvent (retainedBuffer (discardFirst 2 sample_three)) = (82, cstr "h", cstr "b") /\
  let q' := discardFirst 2 sample_three in
  consistent q' /\
  storedEvents q' = drop 2 (storedEvents sample_three) /\
  numEvents q' = numEvents sample_three - Z.of_nat 2 /\
  (if Z.of_nat 2 <? numEvents sample_three
   then storedEvents sample_three !! 2%nat = Some (frontEvent (retainedBuffer q'))
   else storedEvents q' = [] /\ nextFree q' = sizeof_RetainedBufHeader).
Proof.
  assert (consistent sample_three) as H1 by by_compute.
  assert (Z.of_nat 2 <= numEvents sample_three) as H2 by by_compute.
  split; [exact (conj H1 H2)|]. split; [by_compute|]. split; [by_compute|].
  exact (discardOldEvent_is_fifo 2 sample_three H1 H2).
Defined.

(** ** What publish adds to a well-formed log *)

Lemma events_snoc (mem : list byte) (n : nat) (p : Z) :
  events mem (S n) p = events mem n p ++ [eventAt mem (walk mem n p)].
Proof.
  revert p. induction n as [|n IH]; intros p; [reflexivity|].
  change (events mem (S (S n)) p) with (eventAt mem p :: events mem (S n) (skipEvent mem p)).
  rewrite IH. reflexivity.
Qed.

Lemma publish_append q hostName port path body :
  consistent q ->
  eventSize hostName path body <= retainedBufferSize q - nextFree q ->
  align4 (Z.of_nat (length (storedBytes q port))) = eventSize hostName path body ->
  let r := publish q hostName port path body in
  fst r = true /\
  consistent (snd r) /\
  storedEvents (snd r) = storedEvents q ++ [storedEvent q port] /\
  numEvents (snd r) = numEvents q + 1.
Proof.
  intros ((Hlen & Hsize) & Hw & Hc) Hroom Hexact r. subst r.
  set (size := eventSize hostName path body) in *.
  unfold walked, numEvents, storedBytes, storedEvent, storedEvents in *.
  set (mem := retainedBuffer q) in *. set (nf := nextFree q) in *.
  set (E := retainedBufferSize q) in *.
  set (n := Z.to_nat (hdr_numEvents mem)) in *.
  unfold sizeof_RetainedBufHeader in *.
  pose proof (walk_ge mem n 8) as Hge.
  pose proof (walk_lower mem n 8) as Hlow.
  assert (nf mod 4 = 0) as Hal by (rewrite <- Hw; apply walk_aligned; reflexivity).
  set (name := take (strlen (eventName q)) (eventName q)) in *.
  set (payload := take (strlen (default [] (data q))) (default [] (data q))) in *.
  set (rec := le_split 2 port ++ (name ++ [Byte.x00]) ++ (payload ++ [Byte.x00])) in *.
  pose proof (align4_spec (Z.of_nat (length rec))) as [Hrs _].
  rewrite publish_room_eq by (fold size; rewrite size_t_small;
                              unfold sizeof_RetainedBufHeader; fold E nf; lia).
  fold size mem nf.
  cbn [fst snd retainedBuffer retainedBufferSize nextFree with_nextFree with_buffer].
  unfold consistent, region_ok, walked, numEvents, sizeof_RetainedBufHeader.
  cbn [retainedBuffer retainedBufferSize nextFree with_nextFree with_buffer].
  assert (retainedBufferSize
            (match data q with None => with_data q (Some []) | Some _ => q end) = E) as ->
    by (destruct (data q); reflexivity).
  destruct (header_split mem ltac:(lia))
    as (m & sz & nn & bd & Hmem & Hlm & Hlsz & Hlnn & _).
  assert (Z.of_nat (length bd) = E - 8) as Hbody
    by (rewrite <- Hlen, Hmem, !length_app; lia).
  assert (hdr_numEvents mem = le_combine nn) as Hnum
    by (rewrite Hmem; apply hdr_numEvents_split; assumption).
  pose proof (le_combine_u16 nn Hlnn) as Hnb.
  set (k := Z.to_nat (nf - 8)).
  set (post := drop (k + length rec) bd).
  set (nn' := le_split 2 (uint16_t (le_combine nn + 1))).
  assert (length nn' = 2%nat) as Hlnn' by apply length_le_split.
  assert (storeEvent mem nf port (eventName q) (default [] (data q))
          = m ++ sz ++ nn' ++ take k bd ++ rec ++ post) as Hmem4.
  { rewrite Hmem. replace nf with (8 + Z.of_nat k) by lia.
    apply storeEvent_memory; try assumption. fold name payload rec. lia. }
  rewrite Hmem4.
  set (mem4 := m ++ sz ++ nn' ++ take k bd ++ rec ++ post).
  assert (length (take k bd) = k) as Hk by (rewrite length_take; lia).
  assert (hdr_numEvents mem4 = le_combine nn + 1) as Hnum'.
  { unfold mem4. rewrite hdr_numEvents_split by assumption.
    unfold nn'. rewrite le_combine_split. change (Z.of_nat 2 * 8) with 16.
    unfold uint16_t. rewrite Z.mod_mod by lia. apply Z.mod_small. lia. }
  rewrite Hnum', <- Hnum.
  replace (Z.to_nat (hdr_numEvents mem + 1)) with (S n) by lia.
  rewrite walk_snoc, events_snoc.
  destruct (walk_prefix mem mem4 (take k bd) (drop k bd) (rec ++ post)) with (n := n) (p := 8)
    as [Hsame Hevs]; try lia.
  { rewrite Hmem.
    pose proof (chars_at_body m sz nn bd Hlm Hlsz Hlnn 0) as H0.
    change (8 + Z.of_nat 0) with 8 in H0. rewrite H0. cbn [drop].
    symmetry. apply take_drop. }
  { pose proof (chars_at_body m sz nn' (take k bd ++ rec ++ post) Hlm Hlsz Hlnn' 0) as H0.
    change (8 + Z.of_nat 0) with 8 in H0. exact H0. }
  rewrite Hsame, Hevs, Hw.
  assert (chars_at mem4 nf
          = le_split 2 port ++ (name ++ [Byte.x00]) ++ (payload ++ [Byte.x00]) ++ post) as Hch.
  { replace nf with (8 + Z.of_nat k) by lia.
    unfold mem4. rewrite chars_at_body by assumption.
    rewrite drop_app_length' by (symmetry; exact Hk).
    unfold rec. rewrite <- !app_assoc. reflexivity. }
  destruct (parse_stored port (eventName q) (default [] (data q)) post) as [Hraw Hparse].
  fold name payload in Hraw, Hparse.
  assert (length rec = 2 + (strlen (eventName q) + 1)
                       + (strlen (default [] (data q)) + 1))%nat as Hrec
    by (unfold rec, name, payload;
        rewrite !length_app, length_le_split, !length_take_strlen; cbn [length]; lia).
  assert (skipEvent mem4 nf = nf + size) as Hskip.
  { rewrite skipEvent_chars by lia. rewrite Hch, Hraw, <- Hrec.
    rewrite align4_add by assumption. rewrite Hexact. reflexivity. }
  assert (eventAt mem4 nf = (uint16_t port, name, payload)) as Hev
    by (rewrite eventAt_chars by lia; rewrite Hch; exact Hparse).
  rewrite Hskip, Hev.
  assert (Z.of_nat (length mem4) = E) as Hlen4.
  { unfold mem4, post. rewrite !length_app, length_drop, Hk, Hrec.
    pose proof Hexact as Hx. rewrite Hrec in Hrs, Hx. lia. }
  repeat split; try assumption; try lia.
Qed.

(** X7. When the size [publish] computes is the rounded-up length of
    what it stores and fits behind the cursor of a well-formed log,
    [publish] returns [true], the log is well formed again, and its
    events are the former ones followed by one new event: the port
    (16 bits), [eventName] and [data]. *)
Theorem publish_appends_stored_event q hostName port path body :
  consistent q ->
  eventSize hostName path body <= retainedBufferSize q - nextFree q ->
  align4 (Z.of_nat (length (storedBytes q port))) = eventSize hostName path body ->
  let r := publish q hostName port path body in
  fst r = true /\
  consistent (snd r) /\
  storedEvents (snd r) = storedEvents q ++ [storedEvent q port] /\
  numEvents (snd r) = numEvents q + 1.
Proof. exact (publish_append q hostName port path body). Qed.

Lemma publish_appends_stored_event_witness :
  (consistent sample_two /\
   eventSize (cstr "h") (cstr "") (cstr "b")
     <= retainedBufferSize sample_two - nextFree sample_two /\
   align4 (Z.of_nat (length (storedBytes sample_two 65618)))
     = eventSize (cstr "h") (cstr "") (cstr "b")) /\
  storedEvent sample_two 65618 = (82, cstr "h", cstr "b") /\
  let r := publish sample_two (cstr "h") 65618 (cstr "") (cstr "b") in
  fst r = true /\
  consistent (snd r) /\
  storedEvents (snd r) = storedEvents sample_two ++ [storedEvent sample_two 65618] /\
  numEvents (snd r) = numEvents sample_two + 1.
Proof.
  assert (consistent sample_two) as H1 by by_compute.
  assert (eventSize (cstr "h") (cstr "") (cstr "b")
            <= retainedBufferSize sample_two - nextFree sample_two) as H2 by by_compute.
  assert (align4 (Z.of_nat (length (storedBytes sample_two 65618)))
            = eventSize (cstr "h") (cstr "") (cstr "b")) as H3 by by_compute.
  split; [exact (conj H1 (conj H2 H3))|]. split; [by_compute|].
  exact (publish_appends_stored_event sample_two (cstr "h") 65618 (cstr "") (cstr "b")
           H1 H2 H3).
Defined.

(** ** The constructor on a region left by an earlier run *)

(** X8. A region whose header counts more events than its event area
    can hold at four bytes each is reset by the constructor, whatever
    its magic, size field and content: no event, the cursor at the end
    of the header, the header rewritten. *)
Theorem construct_rejects_impossible_count self (buf : list byte) (size : Z) :
  Z.of_nat (length buf) = size -> sizeof_RetainedBufHeader <= size < 2 ^ 16 ->
  size - sizeof_RetainedBufHeader < 4 * hdr_numEvents buf ->
  let q := construct self buf size in
  numEvents q = 0 /\ nextFree q = sizeof_RetainedBufHeader /\
  hdr_magic (retainedBuffer q) = RETAINED_BUF_HEADER_MAGIC /\
  hdr_size (retainedBuffer q) = size /\
  storedEvents q = [].
Proof.
  intros Hlen Hsize Hn q. subst q. unfold sizeof_RetainedBufHeader in *.
  pose proof (walk_lower buf (Z.to_nat (hdr_numEvents buf)) 8) as Hlow.
  assert (walk_overflows buf size = true) as Ho.
  { unfold walk_overflows, sizeof_RetainedBufHeader.
    destruct (Z.gtb_spec (walk buf (Z.to_nat (hdr_numEvents buf)) 8) size); [reflexivity|lia]. }
  rewrite construct_reset
    by (unfold sizeof_RetainedBufHeader; try lia; rewrite Ho; apply andb_false_r).
  destruct (reset_header buf size ltac:(lia) ltac:(lia)) as (Hm & Hs & Hz & _).
  unfold numEvents, storedEvents, numEvents.
  cbn [retainedBuffer nextFree]. rewrite Hz.
  repeat split; assumption.
Qed.

Lemma construct_rejects_impossible_count_witness :
  let buf := retainedBuffer sample_two in
  let buf' := set_hdr_numEvents buf 7 in
  (Z.of_nat (length buf') = 32 /\ sizeof_RetainedBufHeader <= 32 < 2 ^ 16 /\
   32 - sizeof_RetainedBufHeader < 4 * hdr_numEvents buf') /\
  header_valid buf' 32 = true /\
  let q := construct sample_empty buf' 32 in
  numEvents q = 0 /\ nextFree q = sizeof_RetainedBufHeader /\
  hdr_magic (retainedBuffer q) = RETAINED_BUF_HEADER_MAGIC /\
  hdr_size (retainedBuffer q) = 32 /\
  storedEvents q = [].
Proof.
  intros buf buf'.
  assert (Z.of_nat (length buf') = 32) as H1 by by_compute.
  assert (sizeof_RetainedBufHeader <= 32 < 2 ^ 16) as H2 by by_compute.
  assert (32 - sizeof_RetainedBufHeader < 4 * hdr_numEvents buf') as H3 by by_compute.
  split; [exact (conj H1 (conj H2 H3))|]. split; [by_compute|].
  exact (construct_rejects_impossible_count sample_empty buf' 32 H1 H2 H3).
Defined.

(** ** Turns of the drain loop *)

Lemma consistent_fields q q' :
  retainedBuffer q' = retainedBuffer q -> retainedBufferSize q' = retainedBufferSize q ->
  nextFree q' = nextFree q -> consistent q -> consistent q'.
Proof.
  unfold consistent, region_ok, walked, numEvents. intros -> -> -> H. exact H.
Qed.

Lemma consistent_discardOldEvent (secondEvent : bool) q :
  consistent q -> consistent (snd (discardOldEvent secondEvent q)).
Proof.
  intros Hc.
  destruct (Z.le_gt_cases (if secondEvent then 2 else 1) (numEvents q)) as [H|H].
  - apply discard_consistent; assumption.
  - rewrite discardOldEvent_refused by lia. exact Hc.
Qed.

Lemma checkQueueState_eq q t :
  canPublish q t = true ->
  checkQueueState q t =
    if (200 <=? responseStatus t) && (responseStatus t <? 300)
    then with_lastPublish
           (with_isSending (snd (discardOldEvent false (with_isSending q true))) false)
           (millis1 t)
    else with_lastPublish
           (with_isSending (with_stateHandler (with_isSending q true) waitRetryState_h) false)
           (millis1 t).
Proof.
  intros H. unfold checkQueueState. rewrite H, Z.geb_leb.
  destruct ((200 <=? responseStatus t) && (responseStatus t <? 300)); reflexivity.
Qed.

Lemma consistent_stateStep q t : consistent q -> consistent (stateStep q t).
Proof.
  intros Hc. unfold stateStep. destruct (stateHandler q).
  - exact Hc.
  - unfold checkQueueState. destruct (canPublish q t); [|exact Hc].
    destruct ((responseStatus t >=? 200) && (responseStatus t <? 300)); [|exact Hc].
    apply (consistent_fields
             (snd (discardOldEvent false (with_isSending q true)))); try reflexivity.
    apply consistent_discardOldEvent. exact Hc.
  - unfold waitRetryState.
    destruct (uint32_t (millis0 t - lastPublish q) >=? failureRetryMs q); exact Hc.
Qed.

Lemma canPublish_true q t :
  canPublish q t = true <->
  1 <= numEvents q /\ wifiReady t = true /\ 1010 <= uint32_t (millis0 t - lastPublish q).
Proof.
  unfold canPublish, numEvents. rewrite !andb_true_iff.
  rewrite Z.gtb_ltb, Z.ltb_lt, Z.geb_leb, Z.leb_le. intuition lia.
Qed.

Lemma checkQueueState_sent q t :
  consistent q -> stateHandler q = checkQueueState_h -> canPublish q t = true ->
  200 <= responseStatus t < 300 ->
  let q' := stateStep q t in
  consistent q' /\ storedEvents q' = drop 1 (storedEvents q) /\
  numEvents q' = numEvents q - 1 /\
  stateHandler q' = checkQueueState_h /\ lastPublish q' = millis1 t /\
  isSending q' = false.
Proof.
  intros Hc Hh Hcan Hst q'. subst q'.
  pose proof (consistent_stateStep q t Hc) as Hc'.
  unfold stateStep in *. rewrite Hh in *. rewrite checkQueueState_eq in * by assumption.
  destruct (Z.leb_spec 200 (responseStatus t)); [|lia].
  destruct (Z.ltb_spec (responseStatus t) 300); [|lia].
  cbn [andb] in *.
  apply canPublish_true in Hcan as (Hn & _).
  destruct Hc as (Hr & Hw & Hcur).
  destruct (discard_first (with_isSending q true) Hr Hn
              ltac:(exact (Z.le_trans _ _ _ (Z.eq_le_incl _ _ Hw) Hcur)))
    as (_ & _ & H3 & H4 & _).
  destruct (discardOldEvent_members false (with_isSending q true))
    as (_ & _ & _ & _ & H5 & _).
  cbn [stateHandler with_isSending] in H5.
  refine (conj Hc' (conj H4 (conj H3 (conj _ (conj eq_refl eq_refl))))).
  cbn [stateHandler with_lastPublish with_isSending]. rewrite H5. exact Hh.
Qed.

(** X9. One turn of the drain loop on a well-formed log, whatever the
    handler and the outside world: the log is well formed afterwards;
    either region, size and cursor are untouched, or the handler was
    [checkQueueState], its condition held, and exactly the oldest event
    was removed; the handler is never [startState] again; the strings
    [publish] stores and the retry interval are unchanged. *)
Theorem drain_turn_removes_at_most_front q (t : Tick) :
  consistent q ->
  let q' := stateStep q t in
  consistent q' /\
  (same_buffer q q' \/
   (stateHandler q = checkQueueState_h /\ canPublish q t = true /\
    200 <= responseStatus t < 300 /\
    storedEvents q' = drop 1 (storedEvents q) /\ numEvents q' = numEvents q - 1)) /\
  stateHandler q' <> startState_h /\
  eventName q' = eventName q /\ data q' = data q /\
  failureRetryMs q' = failureRetryMs q.
Proof.
  intros Hc q'. split; [apply consistent_stateStep, Hc|].
  destruct (stateHandler q) eqn:Hh.
  - subst q'. unfold stateStep. rewrite Hh. unfold startState.
    split; [left; repeat split|]. repeat split. discriminate.
  - destruct (canPublish q t) eqn:Hcan.
    + destruct (Z.leb_spec 200 (responseStatus t)) as [H2|H2].
      * destruct (Z.ltb_spec (responseStatus t) 300) as [H3|H3].
        -- destruct (checkQueueState_sent q t Hc Hh Hcan (conj H2 H3))
             as (_ & He & Hn & Hh' & _).
           fold q' in He, Hn, Hh'.
           split; [right; repeat split; assumption|].
           split; [rewrite Hh'; discriminate|].
           subst q'. unfold stateStep. rewrite Hh, checkQueueState_eq by assumption.
           destruct (discardOldEvent_members false (with_isSending q true))
             as (_ & _ & _ & Hf & _ & Hen & Hd).
           destruct ((200 <=? responseStatus t) && (responseStatus t <? 300));
             repeat split; assumption.
        -- subst q'. unfold stateStep. rewrite Hh, checkQueueState_eq by assumption.
           destruct (Z.ltb_spec (responseStatus t) 300); [lia|].
           rewrite andb_false_r.
           split; [left; repeat split|]. repeat split. discriminate.
      * subst q'. unfold stateStep. rewrite Hh, checkQueueState_eq by assumption.
        destruct (Z.leb_spec 200 (responseStatus t)); [lia|]. cbn [andb].
        split; [left; repeat split|]. repeat split. discriminate.
    + subst q'. unfold stateStep. rewrite Hh. unfold checkQueueState. rewrite Hcan.
      split; [left; repeat split|]. repeat split. rewrite Hh. discriminate.
  - subst q'. unfold stateStep. rewrite Hh. unfold waitRetryState.
    destruct (uint32_t (millis0 t - lastPublish q) >=? failureRetryMs q).
    + split; [left; repeat split|]. repeat split. discriminate.
    + split; [left; repeat split|]. repeat split. rewrite Hh. discriminate.
Qed.

Lemma drain_turn_removes_at_most_front_witness :
  consistent sample_two /\
  let q := startState sample_two in
  let t := mkTick true 5000 200 5100 in
  let q' := stateStep q t in
  consistent q' /\
  (same_buffer q q' \/
   (stateHandler q = checkQueueState_h /\ canPublish q t = true /\
    200 <= responseStatus t < 300 /\
    storedEvents q' = drop 1 (storedEvents q) /\ numEvents q' = numEvents q - 1)) /\
  stateHandler q' <> startState_h /\
  eventName q' = eventName q /\ data q' = data q /\
  failureRetryMs q' = failureRetryMs q.
Proof.
  assert (consistent sample_two) as H1 by by_compute.
  split; [exact H1|].
  exact (drain_turn_removes_at_most_front (startState sample_two)
           (mkTick true 5000 200 5100) H1).
Defined.

Lemma drains q (ts : list Tick) :
  consistent q -> stateHandler q = checkQueueState_h ->
  prompt (lastPublish q) ts -> Z.of_nat (length ts) <= numEvents q ->
  let q' := threadFunction q ts in
  consistent q' /\
  storedEvents q' = drop (length ts) (storedEvents q) /\
  numEvents q' = numEvents q - Z.of_nat (length ts) /\
  stateHandler q' = checkQueueState_h /\
  (Z.of_nat (length ts) = numEvents q -> nextFree q' = sizeof_RetainedBufHeader).
Proof.
  revert q. induction ts as [|t ts IH]; intros q Hc Hh Hp Hn q'; subst q'.
  - change (threadFunction q []) with q. cbn [length drop].
    refine (conj Hc (conj eq_refl (conj _ (conj Hh _)))); [cbn; lia|].
    intros H0. apply consistent_empty; [assumption|]. cbn in H0. lia.
  - cbn [length] in Hn. destruct Hp as (Hw & Hel & Hst & Hp).
    assert (canPublish q t = true) as Hcan
      by (apply canPublish_true; repeat split; try assumption; lia).
    destruct (checkQueueState_sent q t Hc Hh Hcan Hst)
      as (Hc1 & He1 & Hn1 & Hh1 & Hl1 & _).
    rewrite <- Hl1 in Hp.
    destruct (IH (stateStep q t) Hc1 Hh1 Hp ltac:(lia)) as (Hc2 & He2 & Hn2 & Hh2 & Hz2).
    change (threadFunction q (t :: ts)) with (threadFunction (stateStep q t) ts).
    split; [exact Hc2|]. split.
    { rewrite He2, He1, drop_drop. reflexivity. }
    split; [cbn [length]; lia|]. split; [exact Hh2|].
    intros Hall. apply Hz2. cbn [length] in Hall. lia.
Qed.

(** X10. The drain loop empties a well-formed log in order: in
    [checkQueueState], turns at which the network is ready, the last
    attempt is at least 1010 ms old and the response status is in
    [200, 300) remove one event each, oldest first; the handler stays
    [checkQueueState], and when as many turns as events have passed the
    log is empty with the cursor at the end of the header. *)
Theorem threadFunction_drains q (ts : list Tick) :
  consistent q -> stateHandler q = checkQueueState_h ->
  prompt (lastPublish q) ts -> Z.of_nat (length ts) <= numEvents q ->
  let q' := threadFunction q ts in
  consistent q' /\
  storedEvents q' = drop (length ts) (storedEvents q) /\
  numEvents q' = numEvents q - Z.of_nat (length ts) /\
  stateHandler q' = checkQueueState_h /\
  (Z.of_nat (length ts) = numEvents q -> nextFree q' = sizeof_RetainedBufHeader).
Proof. exact (drains q ts). Qed.

Lemma threadFunction_drains_witness :
  let q := startState sample_two in
  (consistent q /\ stateHandler q = checkQueueState_h /\
   prompt (lastPublish q) sample_ticks /\ Z.of_nat (length sample_ticks) <= numEvents q) /\
  let q' := threadFunction q sample_ticks in
  consistent q' /\
  storedEvents q' = drop (length sample_ticks) (storedEvents q) /\
  numEvents q' = numEvents q - Z.of_nat (length sample_ticks) /\
  stateHandler q' = checkQueueState_h /\
  (Z.of_nat (length sample_ticks) = numEvents q -> nextFree q' = sizeof_RetainedBufHeader).
Proof.
  intros q.
  assert (consistent q) as H1 by by_compute.
  assert (stateHandler q = checkQueueState_h) as H2 by by_compute.
  assert (prompt (lastPublish q) sample_ticks) as H3 by by_compute.
  assert (Z.of_nat (length sample_ticks) <= numEvents q) as H4 by by_compute.
  split; [exact (conj H1 (conj H2 (conj H3 H4)))|].
  exact (threadFunction_drains q sample_ticks H1 H2 H3 H4).
Defined.

(** ** The pace of the drain loop *)

Lemma attempt_fields q t :
  stateHandler q = checkQueueState_h -> canPublish q t = true ->
  let q1 := stateStep q t in
  lastPublish q1 = millis1 t /\ isSending q1 = false /\
  failureRetryMs q1 = failureRetryMs q /\
  stateHandler q1 =
    (if (200 <=? responseStatus t) && (responseStatus t <? 300)
     then checkQueueState_h else waitRetryState_h) /\
  ((200 <=? responseStatus t) && (responseStatus t <? 300) = false -> same_buffer q q1).
Proof.
  intros Hh Hcan q1. subst q1. unfold stateStep. rewrite Hh, checkQueueState_eq by assumption.
  destruct (discardOldEvent_members false (with_isSending q true))
    as (_ & _ & _ & Hf & Hs & _).
  destruct ((200 <=? responseStatus t) && (responseStatus t <? 300)).
  - refine (conj eq_refl (conj eq_refl (conj Hf (conj _ _)))).
    + cbn [stateHandler with_lastPublish with_isSending]. rewrite Hs. exact Hh.
    + discriminate.
  - refine (conj eq_refl (conj eq_refl (conj eq_refl (conj eq_refl _)))).
    intros _. repeat split.
Qed.

(** X11. After a turn of [checkQueueState] that attempted a transport,
    no turn that begins less than 1010 ms after the end of that attempt
    attempts another one: the condition of [checkQueueState] is false,
    and region, size, cursor and [lastPublish] are left as they were,
    whatever the response status of the first attempt. *)
Theorem no_second_attempt_within_interval q (t t' : Tick) :
  stateHandler q = checkQueueState_h -> canPublish q t = true ->
  uint32_t (millis0 t' - millis1 t) < 1010 ->
  let q1 := stateStep q t in
  let q2 := stateStep q1 t' in
  canPublish q1 t' = false /\ same_buffer q1 q2 /\
  lastPublish q2 = millis1 t /\ isSending q2 = false.
Proof.
  intros Hh Hcan Hsoon q1 q2.
  destruct (attempt_fields q t Hh Hcan) as (Hl & Hs & _ & Hh1 & _).
  fold q1 in Hl, Hs, Hh1.
  assert (canPublish q1 t' = false) as Hno.
  { unfold canPublish. rewrite Hl.
    destruct (Z.geb_spec (uint32_t (millis0 t' - millis1 t)) 1010); [lia|].
    apply andb_false_r. }
  split; [exact Hno|]. subst q2. unfold stateStep. rewrite Hh1.
  destruct ((200 <=? responseStatus t) && (responseStatus t <? 300)).
  - unfold checkQueueState. rewrite Hno. repeat split; assumption.
  - unfold waitRetryState.
    destruct (uint32_t (millis0 t' - lastPublish q1) >=? failureRetryMs q1);
      repeat split; assumption.
Qed.

Lemma no_second_attempt_within_interval_witness :
  let q := startState sample_two in
  let t := mkTick true 5000 200 5100 in
  let t' := mkTick true 6000 200 6100 in
  (stateHandler q = checkQueueState_h /\ canPublish q t = true /\
   uint32_t (millis0 t' - millis1 t) < 1010) /\
  let q1 := stateStep q t in
  let q2 := stateStep q1 t' in
  canPublish q1 t' = false /\ same_buffer q1 q2 /\
  lastPublish q2 = millis1 t /\ isSending q2 = false.
Proof.
  intros q t t'.
  assert (stateHandler q = checkQueueState_h) as H1 by by_compute.
  assert (canPublish q t = true) as H2 by by_compute.
  assert (uint32_t (millis0 t' - millis1 t) < 1010) as H3 by by_compute.
  split; [exact (conj H1 (conj H2 H3))|].
  exact (no_second_attempt_within_interval q t t' H1 H2 H3).
Defined.

(** X12. After an attempt answered with a status outside [200, 300)
    the loop waits: turns that begin less than [failureRetryMs] after
    the end of the attempt change nothing at all, whatever the network
    and the queue; the first turn that begins later only switches the
    handler back to [checkQueueState], without an attempt of its own. *)
Theorem failed_attempt_waits_retry q (t : Tick) (ts : list Tick) :
  stateHandler q = checkQueueState_h -> canPublish q t = true ->
  ~ (200 <= responseStatus t < 300) ->
  Forall (fun t' => uint32_t (millis0 t' - millis1 t) < failureRetryMs q) ts ->
  let q1 := stateStep q t in
  same_buffer q q1 /\ stateHandler q1 = waitRetryState_h /\
  threadFunction q1 ts = q1 /\
  forall t' : Tick, failureRetryMs q <= uint32_t (millis0 t' - millis1 t) ->
    stateStep q1 t' = with_stateHandler q1 checkQueueState_h.
Proof.
  intros Hh Hcan Hst Hts q1.
  destruct (attempt_fields q t Hh Hcan) as (Hl & _ & Hf & Hh1 & Hsame).
  fold q1 in Hl, Hf, Hh1, Hsame.
  assert ((200 <=? responseStatus t) && (responseStatus t <? 300) = false) as Hcase.
  { destruct (Z.leb_spec 200 (responseStatus t)); [|reflexivity].
    destruct (Z.ltb_spec (responseStatus t) 300); [lia | reflexivity]. }
  rewrite Hcase in Hh1.
  split; [exact (Hsame Hcase)|]. split; [exact Hh1|]. split.
  - induction Hts as [|t' ts Ht' _ IH]; [reflexivity|].
    change (threadFunction q1 (t' :: ts)) with (threadFunction (stateStep q1 t') ts).
    assert (stateStep q1 t' = q1) as ->; [|exact IH].
    unfold stateStep. rewrite Hh1. unfold waitRetryState. rewrite Hl, Hf.
    destruct (Z.geb_spec (uint32_t (millis0 t' - millis1 t)) (failureRetryMs q));
      [lia | reflexivity].
  - intros t' Hlate. unfold stateStep. rewrite Hh1. unfold waitRetryState.
    rewrite Hl, Hf.
    destruct (Z.geb_spec (uint32_t (millis0 t' - millis1 t)) (failureRetryMs q));
      [reflexivity | lia].
Qed.

Lemma failed_attempt_waits_retry_witness :
  let q := startState sample_two in
  let t := mkTick true 5000 503 5100 in
  let ts := [mkTick true 6000 200 6100; mkTick true 35099 200 35200] in
  (stateHandler q = checkQueueState_h /\ canPublish q t = true /\
   ~ (200 <= responseStatus t < 300) /\
   Forall (fun t' => uint32_t (millis0 t' - millis1 t) < failureRetryMs q) ts) /\
  let q1 := stateStep q t in
  same_buffer q q1 /\ stateHandler q1 = waitRetryState_h /\
  threadFunction q1 ts = q1 /\
  forall t' : Tick, failureRetryMs q <= uint32_t (millis0 t' - millis1 t) ->
    stateStep q1 t' = with_stateHandler q1 checkQueueState_h.
Proof.
  intros q t ts.
  assert (stateHandler q = checkQueueState_h) as H1 by by_compute.
  assert (canPublish q t = true) as H2 by by_compute.
  assert (~ (200 <= responseStatus t < 300)) as H3 by (cbn; lia).
  assert (Forall (fun t' => uint32_t (millis0 t' - millis1 t) < failureRetryMs q) ts) as H4
    by (repeat (apply List.Forall_cons; [by_compute|]); apply List.Forall_nil).
  split; [exact (conj H1 (conj H2 (conj H3 H4)))|].
  exact (failed_attempt_waits_retry q t ts H1 H2 H3 H4).
Defined.

(** X13. The age of the last attempt is measured modulo 2^32, so it
    is right across the wrap of the millisecond clock: when [d]
    milliseconds have passed since [lastPublish], wrapped or not, the
    condition of [checkQueueState] holds exactly when there is an
    event, the network is ready and [d] is at least 1010. *)
Theorem canPublish_across_clock_wrap q (t : Tick) (d : Z) :
  0 <= lastPublish q < 2 ^ 32 -> 0 <= d < 2 ^ 32 ->
  millis0 t = uint32_t (lastPublish q + d) ->
  canPublish q t = (numEvents q >? 0) && wifiReady t && (d >=? 1010).
Proof.
  intros Hl Hd Hm. unfold canPublish, numEvents. rewrite Hm. unfold uint32_t.
  rewrite Zminus_mod_idemp_l.
  replace (lastPublish q + d - lastPublish q) with d by lia.
  rewrite Z.mod_small by lia. reflexivity.
Qed.

Lemma canPublish_across_clock_wrap_witness :
  let q := with_lastPublish sample_two (2 ^ 32 - 10) in
  let t := mkTick true 1000 200 1100 in
  (0 <= lastPublish q < 2 ^ 32 /\ 0 <= 1010 < 2 ^ 32 /\
   millis0 t = uint32_t (lastPublish q + 1010)) /\
  canPublish q t = true /\
  canPublish q t = (numEvents q >? 0) && wifiReady t && (1010 >=? 1010).
Proof.
  intros q t.
  assert (0 <= lastPublish q < 2 ^ 32) as H1 by by_compute.
  assert (0 <= 1010 < 2 ^ 32) as H2 by by_compute.
  assert (millis0 t = uint32_t (lastPublish q + 1010)) as H3 by by_compute.
  split; [exact (conj H1 (conj H2 H3))|]. split; [by_compute|].
  exact (canPublish_across_clock_wrap q t 1010 H1 H2 H3).
Defined.

(** ** publish on a full log *)

Lemma consistent_default q :
  consistent q ->
  consistent (match data q with None => with_data q (Some []) | Some _ => q end).
Proof. intros H. destruct (data q); exact H. Qed.

Lemma storedEvents_default q :
  storedEvents (match data q with None => with_data q (Some []) | Some _ => q end)
  = storedEvents q.
Proof. destruct (data q); reflexivity. Qed.

(** X14. When the computed size would fit an empty region but does
    not fit behind the cursor of a well-formed log, [publish] returns
    [false] and stores nothing.  With exactly one event stored the log
    is unchanged; otherwise the log loses one event, the oldest, or, when
    a send is in flight, the second oldest, and stays well formed. *)
Theorem publish_full_evicts_one q hostName port path body :
  consistent q ->
  eventSize hostName path body <= retainedBufferSize q - sizeof_RetainedBufHeader ->
  retainedBufferSize q - nextFree q < eventSize hostName path body ->
  let r := publish q hostName port path body in
  fst r = false /\ consistent (snd r) /\ 1 <= numEvents q /\
  storedEvents (snd r) =
    (if numEvents q =? 1 then storedEvents q
     else if isSending q then take 1 (storedEvents q) ++ drop 2 (storedEvents q)
     else drop 1 (storedEvents q)).
Proof.
  intros Hc Hfit Hfull r. subst r.
  pose proof Hc as ((Hlen & Hsize) & Hw & Hcur).
  pose proof (walk_ge (retainedBuffer q) (Z.to_nat (numEvents q)) sizeof_RetainedBufHeader)
    as Hge.
  unfold walked in Hw. rewrite Hw in Hge. unfold sizeof_RetainedBufHeader in *.
  pose proof (numEvents_range (retainedBuffer q) ltac:(lia)) as Hrange.
  fold (numEvents q) in Hrange.
  assert (1 <= numEvents q) as Hn1.
  { destruct (Z.eq_dec (numEvents q) 0) as [H0|H0]; [|lia].
    pose proof (consistent_empty q Hc H0) as He.
    unfold sizeof_RetainedBufHeader in He. lia. }
  rewrite publish_full_eq
    by (unfold sizeof_RetainedBufHeader; rewrite size_t_small; lia).
  pose proof (consistent_default q Hc) as Hc0.
  pose proof (storedEvents_default q) as He0.
  destruct (data_default_fields q) as (Hb0 & Hnf0 & Hsz0 & Hs0).
  set (q0 := match data q with None => with_data q (Some []) | Some _ => q end) in *.
  assert (numEvents q0 = numEvents q) as Hn0 by (unfold numEvents; rewrite Hb0; reflexivity).
  destruct (Z.eqb_spec (numEvents q) 1) as [H1|H1]; cbn [fst snd].
  - refine (conj eq_refl (conj Hc0 (conj Hn1 He0))).
  - split; [reflexivity|]. split; [apply consistent_discardOldEvent, Hc0|].
    split; [exact Hn1|].
    destruct Hc0 as (Hr0 & Hw0 & Hcur0).
    destruct (isSending q).
    + destruct (discard_second q0 Hr0 ltac:(lia) ltac:(lia)) as (_ & _ & _ & He & _).
      rewrite He, He0. reflexivity.
    + destruct (discard_first q0 Hr0 ltac:(lia) ltac:(lia)) as (_ & _ & _ & He & _).
      rewrite He, He0. reflexivity.
Qed.

Lemma publish_full_evicts_one_witness :
  (consistent sample_three /\
   eventSize (cstr "h") (cstr "a") (cstr "bcde")
     <= retainedBufferSize sample_three - sizeof_RetainedBufHeader /\
   retainedBufferSize sample_three - nextFree sample_three
     < eventSize (cstr "h") (cstr "a") (cstr "bcde")) /\
  isSending sample_three = true /\
  let r := publish sample_three (cstr "h") 83 (cstr "a") (cstr "bcde") in
  fst r = false /\ consistent (snd r) /\ 1 <= numEvents sample_three /\
  storedEvents (snd r) =
    (if numEvents sample_three =? 1 then storedEvents sample_three
     else if isSending sample_three
          then take 1 (storedEvents sample_three) ++ drop 2 (storedEvents sample_three)
     else drop 1 (storedEvents sample_three)).
Proof.
  assert (consistent sample_three) as H1 by by_compute.
  assert (eventSize (cstr "h") (cstr "a") (cstr "bcde")
            <= retainedBufferSize sample_three - sizeof_RetainedBufHeader) as H2
    by by_compute.
  assert (retainedBufferSize sample_three - nextFree sample_three
            < eventSize (cstr "h") (cstr "a") (cstr "bcde")) as H3 by by_compute.
  split; [exact (conj H1 (conj H2 H3))|]. split; [reflexivity|].
  exact (publish_full_evicts_one sample_three (cstr "h") 83 (cstr "a") (cstr "bcde")
           H1 H2 H3).
Defined.

(** ** clearEvents and the room behind the cursor *)

Lemma publish_accepts q hostName port path body :
  fst (publish q hostName port path body) =
    negb (eventSize hostName path body
            >? size_t (retainedBufferSize q - sizeof_RetainedBufHeader))
    && (size_t (retainedBufferSize q - nextFree q) >=? eventSize hostName path body).
Proof.
  unfold publish.
  destruct (data q); cbn [retainedBufferSize nextFree retainedBuffer with_data];
    (destruct (eventSize hostName path body
                 >? size_t (retainedBufferSize q - sizeof_RetainedBufHeader));
     [reflexivity|];
     destruct (size_t (retainedBufferSize q - nextFree q) >=? eventSize hostName path body);
     [reflexivity|];
     destruct (hdr_numEvents (retainedBuffer q) =? 1); reflexivity).
Qed.

(** X15. [clearEvents] makes no room: whether it cleared the count or
    refused, every request is accepted by [publish] afterwards exactly
    when it would have been accepted before. *)
Theorem clearEvents_frees_no_room q hostName port path body :
  fst (publish (snd (clearEvents q)) hostName port path body)
  = fst (publish q hostName port path body).
Proof.
  rewrite !publish_accepts. unfold clearEvents.
  destruct (isSending q); reflexivity.
Qed.

(** ** Sequences of calls on a well-formed log *)

Lemma consistent_publish q hostName port path body :
  consistent q ->
  align4 (Z.of_nat (length (storedBytes q port))) = eventSize hostName path body ->
  consistent (snd (publish q hostName port path body)).
Proof.
  intros Hc Hex.
  pose proof Hc as ((Hlen & Hsize) & Hw & Hcur).
  pose proof (walk_ge (retainedBuffer q) (Z.to_nat (numEvents q)) sizeof_RetainedBufHeader)
    as Hge.
  unfold walked in Hw. rewrite Hw in Hge. unfold sizeof_RetainedBufHeader in Hge, Hsize.
  destruct (Z.le_gt_cases (eventSize hostName path body)
              (size_t (retainedBufferSize q - sizeof_RetainedBufHeader))) as [Hus|Hbig].
  2: { rewrite publish_oversized_eq by lia. apply consistent_default, Hc. }
  destruct (Z.le_gt_cases (eventSize hostName path body)
              (size_t (retainedBufferSize q - nextFree q))) as [Hroom|Hfull].
  2: { rewrite publish_full_eq by (try assumption; lia).
       destruct (numEvents q =? 1); cbn [snd].
       - apply consistent_default, Hc.
       - apply consistent_discardOldEvent, consistent_default, Hc. }
  rewrite size_t_small in Hroom by lia.
  apply publish_append; assumption.
Qed.

Lemma consistent_call q c : consistent q -> exactFit q c -> consistent (call q c).
Proof.
  intros Hc Hf. destruct c as [hostName port path body | | secondEvent | t]; cbn [call].
  - apply consistent_publish; assumption.
  - destruct Hf.
  - apply consistent_discardOldEvent, Hc.
  - apply consistent_stateStep, Hc.
Qed.

Lemma exactFit_call q c c' : exactFit q c' -> exactFit (call q c) c'.
Proof.
  destruct c' as [hostName port path body | | |]; cbn [exactFit]; try exact id.
  unfold storedBytes. destruct (call_members q c) as [-> ->]. exact id.
Qed.

Lemma exactFit_fits q c : exactFit q c -> fits q c.
Proof.
  destruct c as [hostName port path body | | |]; cbn [exactFit fits]; try (intros; exact I).
  intros <-. apply align4_spec.
Qed.

Lemma consistent_calls (cs : list Call) q :
  consistent q -> Forall (exactFit q) cs -> consistent (calls q cs).
Proof.
  revert q. induction cs as [|c cs IH]; intros q Hc Hf; [exact Hc|].
  unfold calls. cbn [fold_left]. inversion Hf as [|? ? Hc1 Hcs]; subst.
  apply IH.
  - apply consistent_call; assumption.
  - eapply Forall_impl; [exact Hcs|]. intros c'. apply exactFit_call.
Qed.

Lemma events_length (mem : list byte) (n : nat) (p : Z) : length (events mem n p) = n.
Proof.
  revert p. induction n as [|n IH]; intros p; [reflexivity|].
  cbn [events length]. rewrite IH. reflexivity.
Qed.

(** X16. As long as every request [publish] is given has a computed
    size equal to the rounded-up length of what is stored for it, and
    [clearEvents] is not called, every sequence of [publish],
    [discardOldEvent] and drain-loop turns keeps a well-formed log well
    formed: skipping the counted events from the end of the header ends
    at the cursor, inside the region.  The log then holds as many events
    as the header counts, at four bytes or more each. *)
Theorem log_stays_well_formed q (cs : list Call) :
  consistent q -> Forall (exactFit q) cs ->
  let q' := calls q cs in
  consistent q' /\
  Z.of_nat (length (storedEvents q')) = numEvents q' /\
  sizeof_RetainedBufHeader + 4 * numEvents q' <= nextFree q' <= retainedBufferSize q'.
Proof.
  intros Hc Hf q'.
  pose proof (consistent_calls cs q Hc Hf) as Hc'. fold q' in Hc'.
  split; [exact Hc'|].
  destruct Hc' as ((Hlen & Hsize) & Hw & Hcur).
  unfold sizeof_RetainedBufHeader in *.
  pose proof (numEvents_range (retainedBuffer q') ltac:(lia)) as Hrange.
  fold (numEvents q') in Hrange.
  pose proof (walk_lower (retainedBuffer q') (Z.to_nat (numEvents q')) 8) as Hlow.
  unfold walked, sizeof_RetainedBufHeader in Hw. rewrite Hw in Hlow.
  unfold storedEvents. rewrite events_length. lia.
Qed.

Lemma log_stays_well_formed_witness :
  (consistent sample_one /\ Forall (exactFit sample_one) sample_calls) /\
  storedEvents (calls sample_one sample_calls) = [(81, cstr "h", cstr "b")] /\
  let q' := calls sample_one sample_calls in
  consistent q' /\
  Z.of_nat (length (storedEvents q')) = numEvents q' /\
  sizeof_RetainedBufHeader + 4 * numEvents q' <= nextFree q' <= retainedBufferSize q'.
Proof.
  assert (consistent sample_one) as H1 by by_compute.
  assert (Forall (exactFit sample_one) sample_calls) as H2
    by (unfold sample_calls;
        repeat (apply List.Forall_cons; [by_compute|]); apply List.Forall_nil).
  split; [exact (conj H1 H2)|]. split; [by_compute|].
  exact (log_stays_well_formed sample_one sample_calls H1 H2).
Defined.

(** ** From publish to the drain loop, and across a restart *)

Lemma publish_room_members q hostName port path body :
  eventSize hostName path body <= size_t (retainedBufferSize q - sizeof_RetainedBufHeader) ->
  eventSize hostName path body <= size_t (retainedBufferSize q - nextFree q) ->
  stateHandler (snd (publish q hostName port path body)) = stateHandler q /\
  lastPublish (snd (publish q hostName port path body)) = lastPublish q.
Proof.
  intros H1 H2. rewrite publish_room_eq by assumption.
  destruct (data q); split; reflexivity.
Qed.

(** X17. What [publish] accepts is what the drain loop sends, after
    everything stored before it: on a well-formed log in
    [checkQueueState], once [publish] has stored an event and as many
    successful turns as there were events before have passed, the event
    the next turn reads at the front of the region is the one [publish]
    stored, and it is the only one left. *)
Theorem published_event_reaches_front q hostName port path body (ts : list Tick) :
  consistent q ->
  eventSize hostName path body <= retainedBufferSize q - nextFree q ->
  align4 (Z.of_nat (length (storedBytes q port))) = eventSize hostName path body ->
  stateHandler q = checkQueueState_h ->
  prompt (lastPublish q) ts -> Z.of_nat (length ts) = numEvents q ->
  let q1 := snd (publish q hostName port path body) in
  let q2 := threadFunction q1 ts in
  frontEvent (retainedBuffer q2) = storedEvent q port /\
  storedEvents q2 = [storedEvent q port] /\
  consistent q2.
Proof.
  intros Hc Hroom Hex Hh Hp Hn q1 q2.
  destruct (publish_append q hostName port path body Hc Hroom Hex) as (_ & Hc1 & He1 & Hn1).
  fold q1 in Hc1, He1, Hn1.
  pose proof Hc as ((Hlen & Hsize) & Hw & Hcur).
  pose proof (walk_ge (retainedBuffer q) (Z.to_nat (numEvents q)) sizeof_RetainedBufHeader)
    as Hge.
  unfold walked in Hw. rewrite Hw in Hge. unfold sizeof_RetainedBufHeader in Hge, Hsize.
  destruct (publish_room_members q hostName port path body) as (Hh1 & Hl1).
  { rewrite size_t_small by (unfold sizeof_RetainedBufHeader; lia).
    unfold sizeof_RetainedBufHeader. lia. }
  { rewrite size_t_small by lia. exact Hroom. }
  fold q1 in Hh1, Hl1.
  destruct (drains q1 ts Hc1 ltac:(congruence) ltac:(rewrite Hl1; exact Hp) ltac:(lia))
    as (Hc2 & He2 & Hn2 & _).
  fold q2 in Hc2, He2, Hn2.
  assert (storedEvents q2 = [storedEvent q port]) as Hev.
  { rewrite He2, He1.
    assert (length ts = length (storedEvents q)) as ->
      by (unfold storedEvents; rewrite events_length; lia).
    apply drop_app_length. }
  split; [|exact (conj Hev Hc2)].
  pose proof (storedEvents_front q2 ltac:(lia)) as Hf.
  rewrite Hev in Hf. cbn in Hf. congruence.
Qed.

Lemma published_event_reaches_front_witness :
  let q := startState sample_one in
  let ts := [mkTick true 5000 200 5100] in
  (consistent q /\
   eventSize (cstr "h") (cstr "") (cstr "b") <= retainedBufferSize q - nextFree q /\
   align4 (Z.of_nat (length (storedBytes q 81))) = eventSize (cstr "h") (cstr "") (cstr "b") /\
   stateHandler q = checkQueueState_h /\
   prompt (lastPublish q) ts /\ Z.of_nat (length ts) = numEvents q) /\
  storedEvent q 81 = (81, cstr "h", cstr "b") /\
  let q1 := snd (publish q (cstr "h") 81 (cstr "") (cstr "b")) in
  let q2 := threadFunction q1 ts in
  frontEvent (retainedBuffer q2) = storedEvent q 81 /\
  storedEvents q2 = [storedEvent q 81] /\
  consistent q2.
Proof.
  intros q ts.
  assert (consistent q) as H1 by by_compute.
  assert (eventSize (cstr "h") (cstr "") (cstr "b") <= retainedBufferSize q - nextFree q)
    as H2 by by_compute.
  assert (align4 (Z.of_nat (length (storedBytes q 81)))
          = eventSize (cstr "h") (cstr "") (cstr "b")) as H3 by by_compute.
  assert (stateHandler q = checkQueueState_h) as H4 by by_compute.
  assert (prompt (lastPublish q) ts) as H5 by by_compute.
  assert (Z.of_nat (length ts) = numEvents q) as H6 by by_compute.
  split; [exact (conj H1 (conj H2 (conj H3 (conj H4 (conj H5 H6)))))|].
  split; [by_compute|].
  exact (published_event_reaches_front q (cstr "h") 81 (cstr "") (cstr "b") ts
           H1 H2 H3 H4 H5 H6).
Defined.

Lemma consistent_construct self (buf : list byte) (size : Z) :
  Z.of_nat (length buf) = size -> sizeof_RetainedBufHeader <= size < 2 ^ 16 ->
  consistent (construct self buf size).
Proof.
  intros Hlen Hsize.
  destruct (header_valid buf size && negb (walk_overflows buf size)) eqn:Hcase.
  - apply andb_true_iff in Hcase as [Hv Ho]. apply negb_true_iff in Ho.
    rewrite construct_keep by (first [assumption | lia]).
    unfold consistent, walked, region_ok, numEvents.
    cbn [retainedBuffer nextFree retainedBufferSize].
    unfold walk_overflows in Ho.
    destruct (Z.gtb_spec (walk buf (Z.to_nat (hdr_numEvents buf))
                            sizeof_RetainedBufHeader) size); [discriminate|].
    refine (conj (conj Hlen Hsize) (conj eq_refl _)). assumption.
  - rewrite construct_reset by (first [assumption | lia]).
    unfold sizeof_RetainedBufHeader in Hsize.
    destruct (reset_header buf size ltac:(lia) ltac:(lia))
      as (Hmagic & Hsz & Hnum & Hl & Hbody).
    unfold consistent, walked, region_ok, numEvents.
    cbn [retainedBuffer nextFree retainedBufferSize].
    rewrite Hnum, Hl. change (Z.to_nat 0) with O. cbn [walk].
    unfold sizeof_RetainedBufHeader.
    refine (conj (conj Hlen Hsize) (conj eq_refl _)). lia.
Qed.

Lemma storedBytes_construct self (buf : list byte) (size port : Z) :
  storedBytes (construct self buf size) port = storedBytes self port.
Proof.
  unfold construct, storedBytes.
  destruct (if (hdr_magic buf =? RETAINED_BUF_HEADER_MAGIC) && (hdr_size buf =? size)
            then skipEvents buf size (Z.to_nat (hdr_numEvents buf)) sizeof_RetainedBufHeader
            else (nextFree self, true)) as [p [|]]; reflexivity.
Qed.

(** X18. A restart loses nothing.  Take the object the constructor
    makes of any region, apply any sequence of [publish],
    [discardOldEvent] and drain-loop turns in which every request's
    computed size is the rounded-up length of what is stored for it,
    and construct a new object on the region as it then is: the
    constructor accepts the region unchanged, recomputes the very cursor
    the old object had, and the new object holds the same events. *)
Theorem restart_recovers_log self self' (buf : list byte) (size : Z) (cs : list Call) :
  Z.of_nat (length buf) = size -> sizeof_RetainedBufHeader <= size < 2 ^ 16 ->
  Forall (exactFit self) cs ->
  let q := calls (construct self buf size) cs in
  let q' := construct self' (retainedBuffer q) (retainedBufferSize q) in
  retainedBuffer q' = retainedBuffer q /\
  retainedBufferSize q' = retainedBufferSize q /\
  nextFree q' = nextFree q /\
  storedEvents q' = storedEvents q.
Proof.
  intros Hlen Hsize Hf q q'.
  assert (Forall (exactFit (construct self buf size)) cs) as Hf'.
  { eapply Forall_impl; [exact Hf|].
    intros c. destruct c as [hostName port path body | | |]; cbn [exactFit]; try exact id.
    rewrite storedBytes_construct. exact id. }
  pose proof (consistent_calls cs _ (consistent_construct self buf size Hlen Hsize) Hf')
    as Hc.
  pose proof (bounded_calls cs _ (bounded_construct self buf size Hlen Hsize)
                (Forall_impl _ _ _ Hf' (exactFit_fits _))) as Hb.
  fold q in Hc, Hb.
  destruct (bounded_cursor q Hb) as (Hm & Hs & _).
  destruct Hc as ((Hl & Hsz) & Hw & Hcur).
  assert (header_valid (retainedBuffer q) (retainedBufferSize q) = true) as Hv
    by (unfold header_valid; rewrite Hm, Hs, !Z.eqb_refl; reflexivity).
  assert (walk_overflows (retainedBuffer q) (retainedBufferSize q) = false) as Ho.
  { unfold walk_overflows. unfold walked, numEvents in Hw. rewrite Hw.
    destruct (Z.gtb_spec (nextFree q) (retainedBufferSize q)); [lia | reflexivity]. }
  subst q'. rewrite construct_keep by (first [assumption | lia]).
  unfold storedEvents, numEvents. cbn [retainedBuffer retainedBufferSize nextFree].
  unfold walked, numEvents in Hw.
  refine (conj eq_refl (conj eq_refl (conj Hw eq_refl))).
Qed.

Lemma restart_recovers_log_witness :
  let buf := retainedBuffer sample_one in
  (Z.of_nat (length buf) = 32 /\ sizeof_RetainedBufHeader <= 32 < 2 ^ 16 /\
   Forall (exactFit sample_empty) sample_calls) /\
  storedEvents (calls (construct sample_empty buf 32) sample_calls)
    = [(81, cstr "h", cstr "b")] /\
  let q := calls (construct sample_empty buf 32) sample_calls in
  let q' := construct (members [] None) (retainedBuffer q) (retainedBufferSize q) in
  retainedBuffer q' = retainedBuffer q /\
  retainedBufferSize q' = retainedBufferSize q /\
  nextFree q' = nextFree q /\
  storedEvents q' = storedEvents q.
Proof.
  intros buf.
  assert (Z.of_nat (length buf) = 32) as H1 by by_compute.
  assert (sizeof_RetainedBufHeader <= 32 < 2 ^ 16) as H2 by by_compute.
  assert (Forall (exactFit sample_empty) sample_calls) as H3
    by (unfold sample_calls;
        repeat (apply List.Forall_cons; [by_compute|]); apply List.Forall_nil).
  split; [exact (conj H1 (conj H2 H3))|]. split; [by_compute|].
  exact (restart_recovers_log sample_empty (members [] None) buf 32 sample_calls H1 H2 H3).
Defined.
